(** * go-ia: the tensor container and its half-precision codec

    A shallow embedding of two Go packages of the repository:

    - [float16] (FF32, FF64, ToF32, ToF64): the binary16 codec;
    - [graph] (Shape, Tensor): the rank-N tensor with strided indexing.

    Conventions of the embedding.

    - Go's [int] is taken to be 64 bits wide (the size on every 64-bit
      target); its arithmetic wraps around, which [GoInt.wrap] writes out.
    - A floating-point value is represented by its IEEE-754 bit pattern
      ([math.Float32bits], [math.Float64bits]): an integer below [2^32] or
      [2^64].  A [float16.Float16] is a [uint16].
    - A panic is an explicit result: [Panic e].  The five error values of
      the package are distinguished from the panics raised by the Go
      runtime itself (index out of range, division by zero, ...).
    - Slices are references into a store of backing arrays, so that
      sharing between tensors is visible. *)

From Stdlib Require Import ZArith Lia SpecFloat.
From stdpp Require Import base numbers option list strings.

Local Open Scope Z_scope.

(** ** Results of a Go call: a value or a panic *)

Inductive panic : Set :=
  | ErrInvalidShape
  | ErrDimMismatch
  | ErrIndexOutOfRange
  | ErrInvalidData
  | ErrTypeMismatch
  | RuntimeIndex          (* runtime error: index out of range *)
  | RuntimeDivide         (* runtime error: integer divide by zero *)
  | RuntimeMakeslice      (* runtime error: makeslice: len out of range *)
  | RuntimeTypeAssertion  (* interface conversion panic of x.(T) *)
  | RuntimeNilDeref.      (* a slice reference with no backing array *)

Inductive Res (A : Type) : Type :=
  | Ok (a : A)
  | Panic (e : panic).
Arguments Ok {A} a.
Arguments Panic {A} e.

#[global] Instance Res_ret : MRet Res := fun A a => Ok a.
#[global] Instance Res_bind : MBind Res := fun A B f m =>
  match m with
  | Ok a => f a
  | Panic e => Panic e
  end.

(** [l[i]] with Go's bounds check. *)
Definition load {A} (l : list A) (i : nat) : Res A :=
  match l !! i with
  | Some x => Ok x
  | None => Panic RuntimeIndex
  end.

(** [l[i] = x] with Go's bounds check. *)
Definition assign {A} (l : list A) (i : nat) (x : A) : Res (list A) :=
  if decide (i < length l)%nat then Ok (<[i:=x]> l) else Panic RuntimeIndex.

(** [l[z]] for an [int] index [z]. *)
Definition load_Z {A} (l : list A) (z : Z) : Res A :=
  if z <? 0 then Panic RuntimeIndex else load l (Z.to_nat z).

Definition assign_Z {A} (l : list A) (z : Z) (x : A) : Res (list A) :=
  if z <? 0 then Panic RuntimeIndex else assign l (Z.to_nat z) x.

(** [for i := lo; i < lo + cnt; i++ { s = body(i, s) }] *)
Fixpoint for_up {St} (cnt : nat) (i : nat) (body : nat -> St -> Res St)
    (s : St) : Res St :=
  match cnt with
  | O => Ok s
  | S c => s' ← body i s; for_up c (S i) body s'
  end.

(** [for i := n - 1; i >= 0; i-- { s = body(i, s) }] *)
Fixpoint for_down {St} (n : nat) (body : nat -> St -> Res St) (s : St)
  : Res St :=
  match n with
  | O => Ok s
  | S i => s' ← body i s; for_down i body s'
  end.

(** ** Machine integers *)

Module GoInt.

Definition max_int : Z := 2^63 - 1.
Definition min_int : Z := - 2^63.

(** Two's-complement wrap-around of a 64-bit [int]. *)
Definition wrap (z : Z) : Z := (z + 2^63) mod 2^64 - 2^63.

Definition add (a b : Z) : Z := wrap (a + b).
Definition sub (a b : Z) : Z := wrap (a - b).
Definition mul (a b : Z) : Z := wrap (a * b).

(** [a / b] and [a % b] truncate toward zero and panic on [b == 0]. *)
Definition quo (a b : Z) : Res Z :=
  if b =? 0 then Panic RuntimeDivide else Ok (wrap (Z.quot a b)).
Definition rem (a b : Z) : Res Z :=
  if b =? 0 then Panic RuntimeDivide else Ok (wrap (Z.rem a b)).

(** Unsigned conversions [uint16(x)], [uint32(x)], [uint64(x)]. *)
Definition u16 (z : Z) : Z := z mod 2^16.
Definition u32 (z : Z) : Z := z mod 2^32.
Definition u64 (z : Z) : Z := z mod 2^64.
(** [int32(x)] *)
Definition i32 (z : Z) : Z := (z + 2^31) mod 2^32 - 2^31.

End GoInt.

(** ** IEEE-754 bit patterns and Go's numeric conversions *)

Module ieee.

(** A binary interchange format: [mw] mantissa bits, [ew] exponent bits. *)
Record format := { mw : Z; ew : Z }.
Definition binary32 := {| mw := 23; ew := 8 |}.
Definition binary64 := {| mw := 52; ew := 11 |}.

Definition bias (f : format) : Z := 2^(ew f - 1) - 1.
Definition exp_field (f : format) (bits : Z) : Z :=
  Z.land (Z.shiftr bits (mw f)) (2^(ew f) - 1).
Definition frac_field (f : format) (bits : Z) : Z :=
  Z.land bits (2^(mw f) - 1).
Definition sign_field (f : format) (bits : Z) : bool :=
  Z.testbit bits (mw f + ew f).

Definition isNaN (f : format) (bits : Z) : bool :=
  (exp_field f bits =? 2^(ew f) - 1) && negb (frac_field f bits =? 0).
Definition isZero (f : format) (bits : Z) : bool :=
  (exp_field f bits =? 0) && (frac_field f bits =? 0).

(** Go's [==] on floating-point operands: a NaN differs from every value,
    itself included; the two zeros are equal; otherwise values are equal
    exactly when their encodings are. *)
Definition eqb (f : format) (a b : Z) : bool :=
  negb (isNaN f a) && negb (isNaN f b)
  && ((a =? b) || (isZero f a && isZero f b)).

Definition decode (f : format) (bits : Z) : spec_float :=
  let s := sign_field f bits in
  let e := exp_field f bits in
  let m := frac_field f bits in
  if e =? 2^(ew f) - 1 then
    if m =? 0 then S754_infinity s else S754_nan
  else if e =? 0 then
    match m with
    | Zpos p => S754_finite s p (1 - bias f - mw f)
    | _ => S754_zero s
    end
  else
    match m + 2^(mw f) with
    | Zpos p => S754_finite s p (e - bias f - mw f)
    | _ => S754_nan
    end.

Definition sign_bit (f : format) (s : bool) : Z :=
  if s then Z.shiftl 1 (mw f + ew f) else 0.

Definition encode (f : format) (x : spec_float) : Z :=
  match x with
  | S754_zero s => sign_bit f s
  | S754_infinity s => Z.lor (sign_bit f s) (Z.shiftl (2^(ew f) - 1) (mw f))
  | S754_nan => Z.lor (Z.shiftl (2^(ew f) - 1) (mw f)) (2^(mw f - 1))
  | S754_finite s m e =>
      if Zpos m <? 2^(mw f) then Z.lor (sign_bit f s) (Zpos m)
      else Z.lor (sign_bit f s)
             (Z.lor (Z.shiftl (e + bias f + mw f) (mw f)) (Zpos m - 2^(mw f)))
  end.

(** Conversion between formats, rounding to nearest even.  NaN payloads
    are not tracked: every NaN converts to the quiet NaN of the target. *)
Definition convert (src dst : format) (bits : Z) : Z :=
  match decode src bits with
  | S754_finite s m e =>
      encode dst (binary_round (mw dst + 1) (2^(ew dst - 1)) s m e)
  | x => encode dst x
  end.

(** [float32(v)] for a [float64] [v], and [float64(v)] for a [float32]. *)
Definition float32_of_float64 : Z -> Z := convert binary64 binary32.
Definition float64_of_float32 : Z -> Z := convert binary32 binary64.

End ieee.

(** ** Package float16 *)

Module float16.
Import GoInt.

Definition NaN : Z := 0x7FFF.
Definition InfPos : Z := 0x7C00.
Definition InfNeg : Z := 0xFC00.
Definition expMask : Z := 0x7C00.
Definition mantissaMask : Z := 0x03FF.
Definition signMask : Z := 0x8000.
Definition signExpMask : Z := 0x0010.

(** [FF32(value)], on [bits = math.Float32bits(value)]. *)
Definition FF32 (bits : Z) : Z :=
  let sign := Z.shiftr bits 31 in
  let exp := Z.land (Z.shiftr bits 23) 0xff in
  let frac := Z.land bits 0x7fffff in
  if exp =? 0xff then
    if negb (frac =? 0) then NaN
    else Z.lor (u16 (u32 (Z.shiftl sign 15))) InfPos
  else if exp =? 0 then
    let frac := Z.shiftr frac 13 in
    Z.lor (u16 (u32 (Z.shiftl sign 15))) (u16 frac)
  else
    let sexp := i32 (i32 (i32 exp - 127) + 15) in
    if sexp >=? 0x1f then Z.lor (u16 (u32 (Z.shiftl sign 15))) InfPos
    else if sexp <=? 0 then
      let frac := Z.shiftr frac (i32 (i32 (- sexp) + 1)) in
      Z.lor (u16 (u32 (Z.shiftl sign 15))) (u16 (Z.shiftr frac 13))
    else
      let exp := u32 sexp in
      Z.lor (Z.lor (u16 (u32 (Z.shiftl sign 15))) (u16 (u32 (Z.shiftl exp 10))))
            (u16 (Z.shiftr frac 13)).

(** [FF64(value)], on [bits = math.Float64bits(value)]. *)
Definition FF64 (bits : Z) : Z :=
  let sign := Z.shiftr bits 63 in
  let exp := Z.land (Z.shiftr bits 52) 0x7ff in
  let frac := Z.land bits 0xfffffffffffff in
  if exp =? 0x7ff then
    if negb (frac =? 0) then NaN
    else Z.lor (u16 (u64 (Z.shiftl sign 15))) InfPos
  else if exp =? 0 then
    let frac := Z.shiftr frac 42 in
    Z.lor (u16 (u64 (Z.shiftl sign 15))) (u16 frac)
  else
    let sexp := i32 (i32 (i32 exp - 1023) + 15) in
    if sexp >=? 0x1f then Z.lor (u16 (u64 (Z.shiftl sign 15))) InfPos
    else if sexp <=? 0 then
      let frac := Z.shiftr frac (i32 (i32 (- sexp) + 1)) in
      Z.lor (u16 (u64 (Z.shiftl sign 15))) (u16 (Z.shiftr frac 13))
    else
      let exp := u64 sexp in
      Z.lor (Z.lor (u16 (u64 (Z.shiftl sign 15))) (u16 (u64 (Z.shiftl exp 10))))
            (u16 (Z.shiftr frac 42)).

(** The renormalisation loop of the decoders,
    [for frac&0x400 == 0 { frac <<= 1; exp-- }], on [uint32] or [uint64]
    operands ([w] is the width).  It runs at most ten times on a
    non-zero ten-bit [frac]; [fuel] bounds the unrolling. *)
Fixpoint renorm (w : Z) (fuel : nat) (frac exp : Z) : Z * Z :=
  match fuel with
  | O => (frac, exp)
  | S fuel' =>
      if Z.land frac 0x400 =? 0
      then renorm w fuel' (Z.shiftl frac 1 mod 2^w) ((exp - 1) mod 2^w)
      else (frac, exp)
  end.

(** [f16.ToF32()]; the result is the bit pattern handed to
    [math.Float32frombits]. *)
Definition ToF32 (f16 : Z) : Z :=
  let sign := u32 (Z.land (Z.shiftr f16 15) 0x1) in
  let exp := u32 (Z.land (Z.shiftr f16 10) 0x1f) in
  let frac := u32 (Z.land f16 0x3ff) in
  if exp =? 0x1f then
    if negb (frac =? 0)
    then u32 (Z.lor (Z.lor (Z.shiftl 0xff 23) (Z.shiftl frac 13)) 0x1)
    else u32 (Z.lor (Z.shiftl sign 31) (Z.shiftl 0xff 23))
  else if (frac =? 0) && (exp =? 0) then 0
  else
    let '(frac, exp) :=
      if exp =? 0 then
        let '(frac, exp) := renorm 32 10 frac exp in
        (Z.land frac 0x3ff, u32 (exp + 1))
      else (frac, exp) in
    let exp := u32 (exp + (127 - 15)) in
    u32 (Z.lor (Z.lor (u32 (Z.shiftl sign 31)) (u32 (Z.shiftl exp 23)))
               (u32 (Z.shiftl frac 13))).

(** [f16.ToF64()]; the result is the bit pattern handed to
    [math.Float64frombits]. *)
Definition ToF64 (f16 : Z) : Z :=
  let sign := u64 (Z.land (Z.shiftr f16 15) 0x1) in
  let exp := u64 (Z.land (Z.shiftr f16 10) 0x1f) in
  let frac := u64 (Z.land f16 0x3ff) in
  if exp =? 0x1f then
    if negb (frac =? 0)
    then u64 (Z.lor (Z.lor (Z.shiftl 0x7ff 52) (Z.shiftl frac 42)) 0x1)
    else u64 (Z.lor (Z.shiftl sign 63) (Z.shiftl 0x7ff 52))
  else if (frac =? 0) && (exp =? 0) then 0
  else
    let '(frac, exp) :=
      if exp =? 0 then
        let '(frac, exp) := renorm 64 10 frac exp in
        (Z.land frac 0x3ff, u64 (exp + 1))
      else (frac, exp) in
    let exp := u64 (exp + (1023 - 15)) in
    u64 (Z.lor (Z.lor (u64 (Z.shiftl sign 63)) (u64 (Z.shiftl exp 52)))
               (u64 (Z.shiftl frac 42))).

End float16.

(** ** Package graph: Shape and Tensor *)

Module graph.
Import GoInt.

(** *** Values of type [any] and the store of backing arrays *)

(** The element type of a slice: [float16.Float16], [float32], [float64]. *)
Inductive kind : Set := KF16 | KF32 | KF64.

#[global] Instance kind_eq_dec : EqDecision kind.
Proof. solve_decision. Defined.

(** A backing array together with the dynamic type of the slice over it.
    Cells hold bit patterns; the zero value of every element type is the
    pattern [0]. *)
Record slice : Set := { elem : kind; cells : list Z }.

(** Locations index the store; the store lists the backing arrays in the
    order of their allocation. *)
Abbreviation loc := nat (only parsing).
Abbreviation heap := (list slice) (only parsing).

(** What the code stores in, and reads from, an [any]. *)
Inductive any : Set :=
  | Nil                      (* the nil interface *)
  | SliceRef (l : loc)       (* a []float16.Float16, []float32 or []float64 *)
  | F16 (bits : Z)           (* a float16.Float16 *)
  | F32 (bits : Z)           (* a float32 *)
  | F64 (bits : Z)           (* a float64 *)
  | Other.                   (* a value of any other dynamic type *)

Definition deref (h : heap) (l : loc) : Res slice :=
  match h !! l with
  | Some s => Ok s
  | None => Panic RuntimeNilDeref
  end.

(** The type assertion [data.([]T)], [T] the element type [k]: the location
    and the contents of the slice. *)
Definition as_slice (h : heap) (data : any) (k : kind) : Res (loc * list Z) :=
  match data with
  | SliceRef l =>
      s ← deref h l;
      if decide (elem s = k) then Ok (l, cells s)
      else Panic RuntimeTypeAssertion
  | _ => Panic RuntimeTypeAssertion
  end.

(** A new backing array, at the first unused location. *)
Definition alloc (k : kind) (v : list Z) (h : heap) : any * heap :=
  (SliceRef (length h), h ++ [{| elem := k; cells := v |}]).

(** [make([]T, n)] *)
Definition make (k : kind) (n : Z) (h : heap) : Res (any * heap) :=
  if n <? 0 then Panic RuntimeMakeslice
  else Ok (alloc k (replicate (Z.to_nat n) 0) h).

(** The built-in [copy(dst, src)]: the contents of [dst] afterwards. *)
Definition copy (dst src : list Z) : list Z :=
  take (length dst) src ++ drop (length src) dst.

(** *** Shape *)

Definition Shape := list Z.

Definition NewShape (lens : list Z) : Shape := lens.

Definition Shape_Dim (sh : Shape) : Z := Z.of_nat (length sh).

(** The loop starts at [i := 1] whatever [dim] is. *)
Definition Shape_StrideOf (sh : Shape) (dim : Z) : Z :=
  fold_left mul (drop 1 sh) 1.

Definition Shape_Strides (sh : Shape) : Res (list Z) :=
  let strides := replicate (length sh) 0 in
  strides ← assign strides 0 1;
  for_up (length strides - 1) 1
    (fun i strides =>
       p ← load strides (i - 1);
       x ← load sh (i - 1);
       assign strides i (mul p x))
    strides.

Definition Shape_Key (sh : Shape) : list Z := replicate (length sh) (-1).

Definition Shape_Len (sh : Shape) : Z := fold_left mul sh 1.

Fixpoint Shape_Equal_loop (sh other : Shape) (cnt i : nat) : Res bool :=
  match cnt with
  | O => Ok true
  | S c =>
      a ← load sh i;
      b ← load other i;
      if negb (a =? b) then Ok false else Shape_Equal_loop sh other c (S i)
  end.

Definition Shape_Equal (sh other : Shape) : Res bool :=
  if negb (Shape_Len sh =? Shape_Len other) then Ok false
  else Shape_Equal_loop sh other (length sh) 0.

(** *** Tensor *)

Definition Type_ := Z.
Definition Float16 : Type_ := 1.
Definition Float32 : Type_ := 2.
Definition Float64 : Type_ := 3.

Record Tensor : Set := {
  rank : Z;
  data : any;
  shape : Shape;
  typ : Type_;
  strides : list Z
}.

Definition NewTensor (h : heap) (data : any) (typ : Type_) (shape : Shape)
  : Res (Tensor * heap) :=
  if negb (typ =? Float16) && negb (typ =? Float32) && negb (typ =? Float64)
  then Panic ErrTypeMismatch
  else if negb (forallb (fun x => 0 <? x) shape) then Panic ErrInvalidShape
  else
    '(data, h) ←
      match data with
      | Nil =>
          if typ =? Float16 then make KF16 (Shape_Len shape) h
          else if typ =? Float64 then make KF32 (Shape_Len shape) h
          else make KF64 (Shape_Len shape) h
      | _ => Ok (data, h)
      end;
    '(data, h) ←
      match data with
      | SliceRef l =>
          s ← deref h l;
          let v := cells s in
          match elem s with
          | KF16 =>
              if negb (Z.of_nat (length v) =? Shape_Len shape)
              then Panic ErrInvalidShape
              else if typ =? Float32
              then Ok (alloc KF32 (map float16.ToF32 v) h)
              else if typ =? Float64
              then Ok (alloc KF64 (map float16.ToF64 v) h)
              else Ok (data, h)
          | KF64 =>
              if negb (Z.of_nat (length v) =? Shape_Len shape)
              then Panic ErrInvalidShape
              else if typ =? Float16
              then Ok (alloc KF16 (map float16.FF64 v) h)
              else if typ =? Float32
              then Ok (alloc KF32 (map ieee.float32_of_float64 v) h)
              else Ok (data, h)
          | KF32 =>
              if negb (Z.of_nat (length v) =? Shape_Len shape)
              then Panic ErrInvalidShape
              else if typ =? Float16
              then Ok (alloc KF16 (map float16.FF32 v) h)
              else if typ =? Float64
              then Ok (alloc KF64 (map ieee.float64_of_float32 v) h)
              else Ok (data, h)
          end
      | _ => Panic ErrInvalidData
      end;
    strides ← Shape_Strides shape;
    Ok ({| rank := Z.of_nat (length shape); data := data; shape := shape;
           typ := typ; strides := strides |}, h).

Definition Tensor_Rank (ts : Tensor) : Z := rank ts.

Definition Tensor_Shape (ts : Tensor) : Shape :=
  copy (replicate (length (shape ts)) 0) (shape ts).

(** [Reshape] updates the receiver in place; the updated struct is the
    result.  The store is only read. *)
Definition Tensor_Reshape (h : heap) (ts : Tensor) (shape : Shape)
  : Res Tensor :=
  if negb (forallb (fun x => 0 <? x) shape) then Panic ErrInvalidShape
  else
    _ ← (if typ ts =? Float16 then
           '(_, v) ← as_slice h (data ts) KF16;
           if negb (Z.of_nat (length v) =? Shape_Len shape)
           then Panic ErrInvalidShape else Ok ()
         else if typ ts =? Float32 then
           '(_, v) ← as_slice h (data ts) KF32;
           if negb (Z.of_nat (length v) =? Shape_Len shape)
           then Panic ErrInvalidShape else Ok ()
         else if typ ts =? Float64 then
           '(_, v) ← as_slice h (data ts) KF64;
           if negb (Z.of_nat (length v) =? Shape_Len shape)
           then Panic ErrInvalidShape else Ok ()
         else Ok ());
    strides ← Shape_Strides shape;
    Ok {| rank := Z.of_nat (length shape); data := data ts; shape := shape;
          typ := typ ts; strides := strides |}.

Definition Tensor_index (ts : Tensor) (offset : Z) : Res (list Z) :=
  let index := replicate (length (shape ts)) 0 in
  '(_, index) ←
    for_down (length (strides ts))
      (fun i '(offset, index) =>
         s ← load (strides ts) i;
         q ← quo offset s;
         index ← assign index i q;
         r ← rem offset s;
         Ok (r, index))
      (offset, index);
  Ok index.

Definition Tensor_testOffset (ts : Tensor) (offset : Z) : Res () :=
  if (offset <? 0) || (offset >? Shape_Len (shape ts))
  then Panic ErrIndexOutOfRange else Ok ().

Definition Tensor_offset (ts : Tensor) (index : list Z) : Res Z :=
  for_up (length index) 0
    (fun i offset =>
       s ← load (strides ts) i;
       x ← load index i;
       Ok (add offset (mul s x)))
    0.

Definition Tensor_testIndex (ts : Tensor) (index : list Z) : Res () :=
  if negb (length index =? length (shape ts))%nat then Panic ErrDimMismatch
  else
    for_up (length index) 0
      (fun i _ =>
         x ← load index i;
         d ← load (shape ts) i;
         if (x <? 0) || (x >=? d) then Panic ErrIndexOutOfRange else Ok ())
      ().

Definition Tensor_at (h : heap) (ts : Tensor) (offset : Z) : Res any :=
  if typ ts =? Float16 then
    '(_, v) ← as_slice h (data ts) KF16; x ← load_Z v offset; Ok (F16 x)
  else if typ ts =? Float32 then
    '(_, v) ← as_slice h (data ts) KF32; x ← load_Z v offset; Ok (F32 x)
  else if typ ts =? Float64 then
    '(_, v) ← as_slice h (data ts) KF64; x ← load_Z v offset; Ok (F64 x)
  else Panic ErrInvalidData.

(** [get] computes the offset and then runs the same switch as [at]. *)
Definition Tensor_get (h : heap) (ts : Tensor) (index : list Z) : Res any :=
  offset ← Tensor_offset ts index;
  Tensor_at h ts offset.

Definition Tensor_Get (h : heap) (ts : Tensor) (index : list Z) : Res any :=
  _ ← Tensor_testIndex ts index;
  Tensor_get h ts index.

Definition Tensor_GetAt (h : heap) (ts : Tensor) (offset : Z) : Res any :=
  _ ← Tensor_testOffset ts offset;
  Tensor_at h ts offset.

(** The writers return the store after the write. *)
Definition Tensor_setAt (h : heap) (ts : Tensor) (offset : Z) (value : any)
  : Res heap :=
  if typ ts =? Float16 then
    '(l, v) ← as_slice h (data ts) KF16;
    match value with
    | F16 x => v ← assign_Z v offset x;
               Ok (<[l := {| elem := KF16; cells := v |}]> h)
    | _ => Panic ErrTypeMismatch
    end
  else if typ ts =? Float32 then
    '(l, v) ← as_slice h (data ts) KF32;
    match value with
    | F32 x => v ← assign_Z v offset x;
               Ok (<[l := {| elem := KF32; cells := v |}]> h)
    | _ => Panic ErrTypeMismatch
    end
  else if typ ts =? Float64 then
    '(l, v) ← as_slice h (data ts) KF64;
    match value with
    | F64 x => v ← assign_Z v offset x;
               Ok (<[l := {| elem := KF64; cells := v |}]> h)
    | _ => Panic ErrTypeMismatch
    end
  else Panic ErrInvalidData.

Definition Tensor_SetAt (h : heap) (ts : Tensor) (offset : Z) (value : any)
  : Res heap :=
  _ ← Tensor_testOffset ts offset;
  Tensor_setAt h ts offset value.

(** [set] computes the offset and then runs the same switch as [setAt]. *)
Definition Tensor_set (h : heap) (ts : Tensor) (index : list Z) (value : any)
  : Res heap :=
  offset ← Tensor_offset ts index;
  Tensor_setAt h ts offset value.

Definition Tensor_Set (h : heap) (ts : Tensor) (index : list Z) (value : any)
  : Res heap :=
  _ ← Tensor_testIndex ts index;
  Tensor_set h ts index value.

Definition Tensor_GetF16At (h : heap) (ts : Tensor) (index : list Z) : Res Z :=
  if negb (typ ts =? Float16) then Panic ErrTypeMismatch
  else
    _ ← Tensor_testIndex ts index;
    '(_, v) ← as_slice h (data ts) KF16;
    offset ← Tensor_offset ts index;
    load_Z v offset.

Definition Tensor_GetF32At (h : heap) (ts : Tensor) (index : list Z) : Res Z :=
  if negb (typ ts =? Float32) then Panic ErrTypeMismatch
  else
    _ ← Tensor_testIndex ts index;
    '(_, v) ← as_slice h (data ts) KF32;
    offset ← Tensor_offset ts index;
    load_Z v offset.

Definition Tensor_GetF64At (h : heap) (ts : Tensor) (index : list Z) : Res Z :=
  if negb (typ ts =? Float64) then Panic ErrTypeMismatch
  else
    _ ← Tensor_testIndex ts index;
    '(_, v) ← as_slice h (data ts) KF64;
    offset ← Tensor_offset ts index;
    load_Z v offset.

Definition Tensor_testKey (ts : Tensor) (index : list Z) : Res () :=
  if negb (length index =? length (shape ts))%nat then Panic ErrDimMismatch
  else
    for_up (length index) 0
      (fun i _ =>
         x ← load index i;
         d ← load (shape ts) i;
         if (x <? -1) || (x >=? d) then Panic ErrIndexOutOfRange else Ok ())
      ().

(** The new tensor and the store holding its buffer. *)
Definition Tensor_GetSub (h : heap) (ts : Tensor) (indexKey : list Z)
  : Res (Tensor * heap) :=
  _ ← Tensor_testKey ts indexKey;
  shape ←
    for_up (length indexKey) 0
      (fun i (shape : Shape) =>
         k ← load indexKey i;
         if k =? -1 then d ← load (graph.shape ts) i; Ok (shape ++ [d])
         else Ok (shape ++ [1]))
      [];
  '(tensor, h) ← NewTensor h Nil (typ ts) shape;
  let srcIndex := replicate (length indexKey) 0 in
  '(h, _) ←
    for_up (Z.to_nat (Shape_Len shape)) 0
      (fun offset '(h, srcIndex) =>
         dstIndex ← Tensor_index tensor (Z.of_nat offset);
         let srcIndex := copy srcIndex dstIndex in
         srcIndex ←
           for_up (length indexKey) 0
             (fun i srcIndex =>
                k ← load indexKey i;
                if negb (k =? -1) then assign srcIndex i k else Ok srcIndex)
             srcIndex;
         v ← Tensor_get h ts srcIndex;
         h ← Tensor_set h tensor dstIndex v;
         Ok (h, srcIndex))
      (h, srcIndex);
  Ok (tensor, h).

(** Go's [==] on the elements of a slice of kind [k]. *)
Definition elem_eqb (k : kind) (a b : Z) : bool :=
  match k with
  | KF16 => a =? b
  | KF32 => ieee.eqb ieee.binary32 a b
  | KF64 => ieee.eqb ieee.binary64 a b
  end.

Fixpoint Tensor_Equal_loop (k : kind) (v o : list Z) (cnt i : nat) : Res bool :=
  match cnt with
  | O => Ok true
  | S c =>
      a ← load v i;
      b ← load o i;
      if negb (elem_eqb k a b) then Ok false
      else Tensor_Equal_loop k v o c (S i)
  end.

Definition Tensor_Equal (h : heap) (ts other : Tensor) : Res bool :=
  same ← Shape_Equal (shape ts) (shape other);
  if negb same then Ok false
  else if negb (typ ts =? typ other) then Ok false
  else if typ ts =? Float16 then
    '(_, v) ← as_slice h (data ts) KF16;
    '(_, o) ← as_slice h (data other) KF16;
    Tensor_Equal_loop KF16 v o (Z.to_nat (Shape_Len (shape ts))) 0
  else if typ ts =? Float32 then
    '(_, v) ← as_slice h (data ts) KF32;
    '(_, o) ← as_slice h (data other) KF32;
    Tensor_Equal_loop KF32 v o (Z.to_nat (Shape_Len (shape ts))) 0
  else if typ ts =? Float64 then
    '(_, v) ← as_slice h (data ts) KF64;
    '(_, o) ← as_slice h (data other) KF64;
    Tensor_Equal_loop KF64 v o (Z.to_nat (Shape_Len (shape ts))) 0
  else Ok true.

Section Format.

(** [fmt.Sprintf("%v", x)] is left abstract. *)
Variable Sprintf_v : any -> string.

(** [toString(d, index)], by recursion on [dims = ts.shape[d:]]: the test
    [d == ts.shape.Dim()-1] holds exactly when one axis is left, and
    [ts.shape[d]] is out of range when none is.  [index] is shared by all
    levels, so it is returned with the text. *)
Fixpoint toString (h : heap) (ts : Tensor) (dims : list Z) (d : nat)
    (index : list Z) {struct dims} : Res (string * list Z) :=
  match dims with
  | [] => Panic RuntimeIndex
  | n :: rest =>
      match rest with
      | [] =>
          '(s, index) ←
            for_up (Z.to_nat (sub n 1)) 0
              (fun i '(s, index) =>
                 index ← assign index d (Z.of_nat i);
                 v ← Tensor_get h ts index;
                 Ok (s +:+ Sprintf_v v +:+ ", ", index))
              ("[", index);
          '(s, index) ←
            (if sub n 1 >? 0 then
               index ← assign index d (sub n 1);
               v ← Tensor_get h ts index;
               Ok (s +:+ Sprintf_v v, index)
             else Ok (s, index));
          Ok (s +:+ "]", index)
      | _ :: _ =>
          '(s, index) ←
            for_up (Z.to_nat (sub n 1)) 0
              (fun i '(s, index) =>
                 index ← assign index d (Z.of_nat i);
                 '(sub, index) ← toString h ts rest (S d) index;
                 Ok (s +:+ sub +:+ ", ", index))
              ("[", index);
          '(s, index) ←
            (if sub n 1 >? 0 then
               index ← assign index d (sub n 1);
               '(sub, index) ← toString h ts rest (S d) index;
               Ok (s +:+ sub, index)
             else Ok (s, index));
          Ok (s +:+ "]", index)
      end
  end.

Definition Tensor_String (h : heap) (ts : Tensor) : Res string :=
  '(s, _) ← toString h ts (shape ts) 0 (replicate (length (shape ts)) 0);
  Ok s.

End Format.

End graph.

Import GoInt graph.

(** ** Vocabulary of the statements *)

(** The product of a list of axis sizes, in unbounded arithmetic. *)
Definition product (l : list Z) : Z := foldr Z.mul 1 l.

(** [Σ strides[i] * index[i]], in unbounded arithmetic. *)
Definition dot (a b : list Z) : Z := foldr Z.add 0 (zip_with Z.mul a b).

(** The element kind that a precision tag stands for. *)
Definition kind_of (typ : Type_) : option kind :=
  if typ =? Float16 then Some KF16
  else if typ =? Float32 then Some KF32
  else if typ =? Float64 then Some KF64
  else None.

(** An element of kind [k] as an [any]. *)
Definition box (k : kind) (x : Z) : any :=
  match k with
  | KF16 => F16 x
  | KF32 => F32 x
  | KF64 => F64 x
  end.

(** The backing array a tensor points to. *)
Definition buffer (h : heap) (ts : Tensor) : option slice :=
  match data ts with
  | SliceRef l => h !! l
  | _ => None
  end.

(** The invariant that [NewTensor] and [Reshape] establish: the tag is one
    of the three precisions, the buffer is a slice of that precision with
    [shape.Len()] cells, the strides and the rank are those of the shape,
    and every axis size is positive. *)
Record wf (h : heap) (ts : Tensor) : Prop := {
  wf_buffer :
    exists k v, kind_of (typ ts) = Some k
      /\ buffer h ts = Some {| elem := k; cells := v |}
      /\ Z.of_nat (length v) = Shape_Len (shape ts);
  wf_strides : Shape_Strides (shape ts) = Ok (strides ts);
  wf_rank : rank ts = Z.of_nat (length (shape ts));
  wf_positive : Forall (fun d => 0 < d) (shape ts)
}.

(** The element count of the shape is representable: [Len] does not wrap. *)
Definition exact (sh : Shape) : Prop := product sh <= max_int.

(** A multi-index inside the bounds of every axis. *)
Definition in_bounds (sh : Shape) (index : list Z) : Prop :=
  Forall2 (fun x d => 0 <= x < d) index sh.

(** An index key: one entry per axis, the wildcard [-1] or a coordinate
    inside the axis. *)
Definition valid_key (sh : Shape) (key : list Z) : Prop :=
  Forall2 (fun k d => k = -1 \/ 0 <= k < d) key sh.

(** The shape selected by a key: the source size on wildcard axes, 1 on the
    others. *)
Definition sub_shape (key : list Z) (sh : Shape) : Shape :=
  zip_with (fun k d => if k =? -1 then d else 1) key sh.

(** The source coordinate of a coordinate of the selection: its own entry on
    wildcard axes, the key's on the others. *)
Definition merge (key index : list Z) : list Z :=
  zip_with (fun k x => if k =? -1 then x else k) key index.

(** A NaN of the element kind (a [Float16] cell is an integer: never). *)
Definition elem_isNaN (k : kind) (x : Z) : bool :=
  match k with
  | KF16 => false
  | KF32 => ieee.isNaN ieee.binary32 x
  | KF64 => ieee.isNaN ieee.binary64 x
  end.

(** The body of the loop of [Tensor.index], named for the lemmas about it. *)
Definition index_body (st : list Z) (i : nat) (s : Z * list Z)
  : Res (Z * list Z) :=
  let '(offset, index) := s in
  s ← load st i;
  q ← quo offset s;
  index ← assign index i q;
  r ← rem offset s;
  Ok (r, index).

(** ** Sample values *)

(** The tensor of the package's test: the doubles 0..15 under shape (4,4). *)
Definition heap_4x4 : heap :=
  [{| elem := KF64; cells := map Z.of_nat (seq 0 16) |}].

Definition tensor_4x4 : Tensor :=
  {| rank := 2; data := SliceRef 0%nat; shape := [4; 4]; typ := Float64;
     strides := [1; 4] |}.

(** A tensor of two half-precision cells. *)
Definition heap_2 : heap := [{| elem := KF16; cells := [0; 0] |}].

Definition tensor_2 : Tensor :=
  {| rank := 1; data := SliceRef 0%nat; shape := [2]; typ := Float16;
     strides := [1] |}.

(** A tensor of one double. *)
Definition heap_1 : heap := [{| elem := KF64; cells := [0] |}].

Definition tensor_1 : Tensor :=
  {| rank := 1; data := SliceRef 0%nat; shape := [1]; typ := Float64;
     strides := [1] |}.

(** A one-cell tensor holding a NaN, and two one-cell tensors holding the
    two zeros, in one store. *)
Definition heap_special : heap :=
  [{| elem := KF64; cells := [0x7FF8000000000000] |};
   {| elem := KF64; cells := [0] |};
   {| elem := KF64; cells := [0x8000000000000000] |}].

Definition tensor_nan : Tensor :=
  {| rank := 1; data := SliceRef 0%nat; shape := [1]; typ := Float64;
     strides := [1] |}.

Definition tensor_pos_zero : Tensor :=
  {| rank := 1; data := SliceRef 1%nat; shape := [1]; typ := Float64;
     strides := [1] |}.

Definition tensor_neg_zero : Tensor :=
  {| rank := 1; data := SliceRef 2%nat; shape := [1]; typ := Float64;
     strides := [1] |}.

(** A tensor of shape (2,1) over two doubles. *)
Definition heap_2x1 : heap := [{| elem := KF64; cells := [0; 0] |}].

Definition tensor_2x1 : Tensor :=
  {| rank := 2; data := SliceRef 0%nat; shape := [2; 1]; typ := Float64;
     strides := [1; 2] |}.

(** ** Mixed-radix numerals *)

(** The weights of the positions of a shape: [p], [p * d0], [p * d0 * d1],
    ...  [radix 1 sh] is what [Strides] computes when nothing wraps. *)
Fixpoint radix (p : Z) (sh : list Z) : list Z :=
  match sh with
  | [] => []
  | d :: rest => p :: radix (p * d) rest
  end.

(** The digits of [o] in the mixed radix [sh], least significant first. *)
Fixpoint digits (sh : list Z) (o : Z) : list Z :=
  match sh with
  | [] => []
  | d :: rest => o mod d :: digits rest (o / d)
  end.

(** ** The loops of [GetSub], named for the lemmas about them *)

Definition sub_shape_body (ts : Tensor) (indexKey : list Z) (i : nat)
    (shape : Shape) : Res Shape :=
  k ← load indexKey i;
  if k =? -1 then d ← load (graph.shape ts) i; Ok (shape ++ [d])
  else Ok (shape ++ [1]).

Definition merge_body (indexKey : list Z) (i : nat) (srcIndex : list Z)
  : Res (list Z) :=
  k ← load indexKey i;
  if negb (k =? -1) then assign srcIndex i k else Ok srcIndex.

Definition GetSub_body (ts tensor : Tensor) (indexKey : list Z) (offset : nat)
    (s : heap * list Z) : Res (heap * list Z) :=
  let '(h, srcIndex) := s in
  dstIndex ← Tensor_index tensor (Z.of_nat offset);
  let srcIndex := copy srcIndex dstIndex in
  srcIndex ← for_up (length indexKey) 0 (merge_body indexKey) srcIndex;
  v ← Tensor_get h ts srcIndex;
  h ← Tensor_set h tensor dstIndex v;
  Ok (h, srcIndex).

(** ** Package graph: the typed views and setters of Tensor *)

(** [F16Slice], [F32Slice] and [F64Slice] hand out the tensor's own slice,
    not a copy: the result is the reference, with the contents it has in the
    store. *)
Definition Tensor_F16Slice (h : heap) (ts : Tensor) : Res (loc * list Z) :=
  if negb (typ ts =? Float16) then Panic ErrTypeMismatch
  else as_slice h (data ts) KF16.

Definition Tensor_F32Slice (h : heap) (ts : Tensor) : Res (loc * list Z) :=
  if negb (typ ts =? Float32) then Panic ErrTypeMismatch
  else as_slice h (data ts) KF32.

Definition Tensor_F64Slice (h : heap) (ts : Tensor) : Res (loc * list Z) :=
  if negb (typ ts =? Float64) then Panic ErrTypeMismatch
  else as_slice h (data ts) KF64.

Definition Tensor_SetF16 (h : heap) (ts : Tensor) (index : list Z) (value : Z)
  : Res heap :=
  if negb (typ ts =? Float16) then Panic ErrTypeMismatch
  else
    _ ← Tensor_testIndex ts index;
    '(l, v) ← as_slice h (data ts) KF16;
    offset ← Tensor_offset ts index;
    v ← assign_Z v offset value;
    Ok (<[l := {| elem := KF16; cells := v |}]> h).

Definition Tensor_SetF32 (h : heap) (ts : Tensor) (index : list Z) (value : Z)
  : Res heap :=
  if negb (typ ts =? Float32) then Panic ErrTypeMismatch
  else
    _ ← Tensor_testIndex ts index;
    '(l, v) ← as_slice h (data ts) KF32;
    offset ← Tensor_offset ts index;
    v ← assign_Z v offset value;
    Ok (<[l := {| elem := KF32; cells := v |}]> h).

Definition Tensor_SetF64 (h : heap) (ts : Tensor) (index : list Z) (value : Z)
  : Res heap :=
  if negb (typ ts =? Float64) then Panic ErrTypeMismatch
  else
    _ ← Tensor_testIndex ts index;
    '(l, v) ← as_slice h (data ts) KF64;
    offset ← Tensor_offset ts index;
    v ← assign_Z v offset value;
    Ok (<[l := {| elem := KF64; cells := v |}]> h).

(** The typed accessors by element kind, for statements about all three. *)
Definition Tensor_GetKAt (k : kind) : heap -> Tensor -> list Z -> Res Z :=
  match k with
  | KF16 => Tensor_GetF16At
  | KF32 => Tensor_GetF32At
  | KF64 => Tensor_GetF64At
  end.

Definition Tensor_SetK (k : kind) : heap -> Tensor -> list Z -> Z -> Res heap :=
  match k with
  | KF16 => Tensor_SetF16
  | KF32 => Tensor_SetF32
  | KF64 => Tensor_SetF64
  end.

Definition Tensor_KSlice (k : kind) : heap -> Tensor -> Res (loc * list Z) :=
  match k with
  | KF16 => Tensor_F16Slice
  | KF32 => Tensor_F32Slice
  | KF64 => Tensor_F64Slice
  end.

(** The conversion [NewTensor] applies to each element of a slice of kind
    [src] for a tensor of kind [dst]. *)
Definition convert_elem (src dst : kind) : Z -> Z :=
  match src, dst with
  | KF16, KF32 => float16.ToF32
  | KF16, KF64 => float16.ToF64
  | KF32, KF16 => float16.FF32
  | KF32, KF64 => ieee.float64_of_float32
  | KF64, KF16 => float16.FF64
  | KF64, KF32 => ieee.float32_of_float64
  | _, _ => fun x => x
  end.

(** The tensor of the package's test after [Reshape(NewShape(2, 8))]. *)
Definition tensor_2x8 : Tensor :=
  {| rank := 2; data := SliceRef 0%nat; shape := [2; 8]; typ := Float64;
     strides := [1; 2] |}.

(** ** Vocabulary of the statements about the codec *)

(** The binary16 interchange format: 10 mantissa bits, 5 exponent bits. *)
Definition binary16 : ieee.format := {| ieee.mw := 10; ieee.ew := 5 |}.

(** Two decoded values stand for the same number: infinities of the same
    sign, two zeros, or finite values [m1 * 2^e1] and [m2 * 2^e2] of the same
    sign and magnitude. *)
Definition same_number (a b : spec_float) : Prop :=
  match a, b with
  | S754_zero _, S754_zero _ => True
  | S754_infinity s1, S754_infinity s2 => s1 = s2
  | S754_finite s1 m1 e1, S754_finite s2 m2 e2 =>
      s1 = s2
      /\ Zpos m1 * 2^(e1 - Z.min e1 e2) = Zpos m2 * 2^(e2 - Z.min e1 e2)
  | _, _ => False
  end.

(** ** Package graph: the directed graph

    A [Graph] holds its vertices and, for every vertex, the list of the
    sources of the edges that end in it.  Vertices are numbered from 0 in
    the order of [AddNode].  The methods have pointer receivers; a method
    that updates the graph returns the updated graph.  A graph is taken to
    be reached through one pointer: copies of the struct, and the slice that
    [InEdges] hands out, share backing arrays with the graph in Go and are
    represented here by their contents at the time of the call. *)

Module digraph.
Import GoInt graph.

Inductive error : Set := ErrEdgeNoExist | ErrNodeNoExist.

Record Node : Set := { Node_Name : string; Node_Value : any }.

Record Graph : Set := {
  Graph_Name : string;
  vertices : list Node;
  edges : list (list Z)
}.

(** [len(s)] as an [int]. *)
Definition len {A} (s : list A) : Z := Z.of_nat (length s).

Definition New (name : string) : Graph :=
  {| Graph_Name := name; vertices := []; edges := [] |}.

Definition Graph_AddNode (g : Graph) (name : string) (value : any)
  : Graph * Z :=
  let vid := len (vertices g) in
  ({| Graph_Name := Graph_Name g;
      vertices := vertices g ++ [{| Node_Name := name; Node_Value := value |}];
      edges := edges g ++ [[]] |}, vid).

(** The updated graph and the returned [error], [None] for [nil]. *)
Definition Graph_AddEdge (g : Graph) (src dst : Z)
  : Res (Graph * option error) :=
  if (src <? 0) || (dst <? 0) || (src >=? len (vertices g))
     || (dst >=? len (vertices g))
  then Ok (g, Some ErrNodeNoExist)
  else
    srcLs ← load_Z (edges g) dst;
    edges ← assign_Z (edges g) dst (srcLs ++ [src]);
    Ok ({| Graph_Name := Graph_Name g; vertices := vertices g;
           edges := edges |}, None).

(** The search of [RemoveEdge]: the list without its first entry equal to
    [src], if there is one. *)
Fixpoint RemoveEdge_loop (srcLs : list Z) (src : Z) (cnt i : nat)
  : Res (option (list Z)) :=
  match cnt with
  | O => Ok None
  | S c =>
      x ← load srcLs i;
      if x =? src then Ok (Some (take i srcLs ++ drop (S i) srcLs))
      else RemoveEdge_loop srcLs src c (S i)
  end.

Definition Graph_RemoveEdge (g : Graph) (src dst : Z) : Res (Graph * bool) :=
  if (src <? 0) || (src >? len (vertices g)) || (dst <? 0)
     || (dst >? len (vertices g))
  then Ok (g, false)
  else
    srcLs ← load_Z (edges g) dst;
    found ← RemoveEdge_loop srcLs src (length srcLs) 0;
    match found with
    | Some srcLs =>
        edges ← assign_Z (edges g) dst srcLs;
        Ok ({| Graph_Name := Graph_Name g; vertices := vertices g;
               edges := edges |}, true)
    | None => Ok (g, false)
    end.

(** [for i := range edges { if edges[i] == src { return true } }] *)
Fixpoint HasEdge_loop (edges : list Z) (src : Z) : bool :=
  match edges with
  | [] => false
  | e :: rest => if e =? src then true else HasEdge_loop rest src
  end.

Definition Graph_HasEdge (g : Graph) (src dst : Z) : Res bool :=
  if (src <? 0) || (src >=? len (vertices g)) then Ok false
  else if (dst <? 0) || (dst >=? len (vertices g)) then Ok false
  else
    edges ← load_Z (edges g) dst;
    Ok (HasEdge_loop edges src).

(** The two nested [range] loops of [OutEdges], from vertex [edge] on. *)
Fixpoint OutEdges_loop (node : Z) (edge : Z) (rest : list (list Z))
    (dstLs : list Z) : list Z :=
  match rest with
  | [] => dstLs
  | srcLs :: rest =>
      OutEdges_loop node (edge + 1) rest
        (fold_left (fun dstLs dst =>
                      if dst =? node then dstLs ++ [edge] else dstLs)
                   srcLs dstLs)
  end.

Definition Graph_OutEdges (g : Graph) (node : Z) : list Z :=
  if (node <? 0) || (node >=? len (edges g)) then []
  else OutEdges_loop node 0 (edges g) [].

Definition Graph_InEdges (g : Graph) (node : Z) : list Z :=
  if (node <? 0) || (node >=? len (edges g)) then []
  else default [] (edges g !! Z.to_nat node).

(** [None] is the nil pointer. *)
Definition Graph_NodeAt (g : Graph) (index : Z) : option Node :=
  if (index <? 0) || (index >=? len (vertices g)) then None
  else vertices g !! Z.to_nat index.

(** The inner loop of [RemoveNodeAt] on one list of sources: an entry equal
    to [index] is cut out and [j] stays, an entry above [index] is
    decremented.  Every round cuts an entry or advances [j], so the loop
    runs [len(srcLs)] times; [fuel] counts the rounds left. *)
Fixpoint RemoveNodeAt_loop (index : Z) (fuel : nat) (srcLs : list Z) (j : nat)
  : list Z :=
  match fuel with
  | O => srcLs
  | S fuel' =>
      match srcLs !! j with
      | None => srcLs
      | Some x =>
          if x =? index
          then RemoveNodeAt_loop index fuel' (take j srcLs ++ drop (S j) srcLs) j
          else if x >? index
          then RemoveNodeAt_loop index fuel' (<[j := sub x 1]> srcLs) (S j)
          else RemoveNodeAt_loop index fuel' srcLs (S j)
      end
  end.

(** The bounds of the slice expression [s[index+1:]] are checked like an
    index; the panic is reported as [RuntimeIndex]. *)
Definition Graph_RemoveNodeAt (g : Graph) (index : Z) : Res (Graph * bool) :=
  if (index <? 0) || (index >=? len (vertices g)) then Ok (g, false)
  else if index + 1 >? len (edges g) then Panic RuntimeIndex
  else
    let i := Z.to_nat index in
    let edges := take i (edges g) ++ drop (S i) (edges g) in
    let vertices := take i (vertices g) ++ drop (S i) (vertices g) in
    let edges :=
      map (fun srcLs => RemoveNodeAt_loop index (length srcLs) srcLs 0) edges in
    Ok ({| Graph_Name := Graph_Name g; vertices := vertices; edges := edges |},
        true).

Definition Graph_LenNodes (g : Graph) : Z := len (vertices g).

Definition Graph_LenEdges (g : Graph) : Z := len (edges g).

(** The loops of [DFS] and [BFS] stop when the stack or the queue is empty;
    [fuel] bounds the number of rounds, and [None] is the answer when it
    does not suffice. *)
Fixpoint DFS_loop (g : Graph) (fuel : nat) (stack : list Z)
    (visited : list bool) (sequence : list Z) : option (Res (list Z)) :=
  match fuel with
  | O => None
  | S fuel' =>
      match last stack with
      | None => Some (Ok sequence)
      | Some curr =>
          let stack := take (length stack - 1) stack in
          match load_Z visited curr with
          | Panic e => Some (Panic e)
          | Ok true => DFS_loop g fuel' stack visited sequence
          | Ok false =>
              match assign_Z visited curr true with
              | Panic e => Some (Panic e)
              | Ok visited =>
                  match load_Z (edges g) curr with
                  | Panic e => Some (Panic e)
                  | Ok srcLs =>
                      DFS_loop g fuel' (stack ++ srcLs) visited
                        (sequence ++ [curr])
                  end
              end
          end
      end
  end.

(** A round of [DFS] pops one entry and pushes the sources of a vertex at
    most once per vertex: one round more than there are edges is enough. *)
Definition DFS_fuel (g : Graph) : nat :=
  S (S (length (concat (edges g)))).

Definition Graph_DFS (g : Graph) (node : Z) : option (Res (list Z)) :=
  DFS_loop g (DFS_fuel g) [node] (replicate (length (vertices g)) false) [].

(** [for _, x := range l { s = body(x, s) }] *)
Fixpoint for_range {A St} (l : list A) (body : A -> St -> Res St) (s : St)
  : Res St :=
  match l with
  | [] => Ok s
  | x :: rest => s' ← body x s; for_range rest body s'
  end.

Definition BFS_visit (neighbor : Z) (s : list Z * list bool)
  : Res (list Z * list bool) :=
  let '(queue, visited) := s in
  v ← load_Z visited neighbor;
  if negb v then
    visited ← assign_Z visited neighbor true;
    Ok (queue ++ [neighbor], visited)
  else Ok (queue, visited).

Fixpoint BFS_loop (g : Graph) (fuel : nat) (queue : list Z)
    (visited : list bool) (sequence : list Z) : option (Res (list Z)) :=
  match fuel with
  | O => None
  | S fuel' =>
      match queue with
      | [] => Some (Ok sequence)
      | curr :: queue =>
          match load_Z (edges g) curr with
          | Panic e => Some (Panic e)
          | Ok srcLs =>
              match for_range srcLs BFS_visit (queue, visited) with
              | Panic e => Some (Panic e)
              | Ok (queue, visited) =>
                  BFS_loop g fuel' queue visited (sequence ++ [curr])
              end
          end
      end
  end.

(** A vertex enters the queue at most once: one round more than there are
    vertices is enough. *)
Definition Graph_BFS (g : Graph) (node : Z) : option (Res (list Z)) :=
  match assign_Z (replicate (length (vertices g)) false) node true with
  | Panic e => Some (Panic e)
  | Ok visited =>
      BFS_loop g (S (length (vertices g))) [node] visited []
  end.

(** [for i, j := 0, len(s)-1; i < j; i, j = i+1, j-1 { s[i], s[j] = s[j], s[i] }]:
    [j] is [len(s)-1-i] throughout, so the loop runs for the [i] below
    [len(s)/2]. *)
Definition swap_ends (s : list Z) : Res (list Z) :=
  for_up (length s / 2) 0
    (fun i s =>
       let j := (length s - 1 - i)%nat in
       a ← load s i;
       b ← load s j;
       s ← assign s i b;
       assign s j a)
    s.

Definition Graph_ReverseBFS (g : Graph) (node : Z) : option (Res (list Z)) :=
  match Graph_BFS g node with
  | Some (Ok sequence) => Some (swap_ends sequence)
  | r => r
  end.

(** The [range] loop of [hasCycleUtil] over the sources of [node]; [call]
    is the recursive call.  The answer carries the two arrays as the call
    leaves them: the callers share them. *)
Fixpoint hasCycleUtil_range
    (call : Z -> list bool -> list bool
            -> option (Res (bool * list bool * list bool)))
    (node : Z) (adjs : list Z) (visited recStack : list bool)
  : option (Res (bool * list bool * list bool)) :=
  match adjs with
  | [] =>
      match assign_Z recStack node false with
      | Panic e => Some (Panic e)
      | Ok recStack => Some (Ok (false, visited, recStack))
      end
  | adj :: rest =>
      match load_Z visited adj with
      | Panic e => Some (Panic e)
      | Ok false =>
          match call adj visited recStack with
          | None => None
          | Some (Panic e) => Some (Panic e)
          | Some (Ok (true, visited, recStack)) =>
              Some (Ok (true, visited, recStack))
          | Some (Ok (false, visited, recStack)) =>
              match load_Z recStack adj with
              | Panic e => Some (Panic e)
              | Ok true => Some (Ok (true, visited, recStack))
              | Ok false =>
                  hasCycleUtil_range call node rest visited recStack
              end
          end
      | Ok true =>
          match load_Z recStack adj with
          | Panic e => Some (Panic e)
          | Ok true => Some (Ok (true, visited, recStack))
          | Ok false => hasCycleUtil_range call node rest visited recStack
          end
      end
  end.

(** [fuel] bounds the depth of the recursion; [None] is the answer when it
    does not suffice. *)
Fixpoint hasCycleUtil (g : Graph) (fuel : nat) (node : Z)
    (visited recStack : list bool)
  : option (Res (bool * list bool * list bool)) :=
  match fuel with
  | O => None
  | S fuel' =>
      match assign_Z visited node true with
      | Panic e => Some (Panic e)
      | Ok visited =>
          match assign_Z recStack node true with
          | Panic e => Some (Panic e)
          | Ok recStack =>
              hasCycleUtil_range (hasCycleUtil g fuel') node
                (Graph_InEdges g node) visited recStack
          end
      end
  end.

(** The loop of [HasCycle] over the vertices, from vertex [i] on.  A call
    of [hasCycleUtil] goes as deep as there are vertices not yet visited,
    at most. *)
Fixpoint HasCycle_range (g : Graph) (cnt i : nat)
    (visited recStack : list bool) : option (Res bool) :=
  match cnt with
  | O => Some (Ok false)
  | S cnt' =>
      match load visited i with
      | Panic e => Some (Panic e)
      | Ok true => HasCycle_range g cnt' (S i) visited recStack
      | Ok false =>
          match hasCycleUtil g (length (vertices g)) (Z.of_nat i)
                  visited recStack with
          | None => None
          | Some (Panic e) => Some (Panic e)
          | Some (Ok (true, _, _)) => Some (Ok true)
          | Some (Ok (false, visited, recStack)) =>
              HasCycle_range g cnt' (S i) visited recStack
          end
      end
  end.

Definition Graph_HasCycle (g : Graph) : option (Res bool) :=
  HasCycle_range g (length (vertices g)) 0
    (replicate (length (vertices g)) false)
    (replicate (length (vertices g)) false).

(** *** Vocabulary of the statements about graphs *)

(** What the package keeps true of its graphs: one list of sources per
    vertex, and every source a vertex.  The number of vertices is the
    length of a slice: an [int]. *)
Definition wf_graph (g : Graph) : Prop :=
  length (edges g) = length (vertices g)
  /\ Forall (Forall (fun s => 0 <= s < len (vertices g))) (edges g)
  /\ len (vertices g) <= max_int.

(** The sources of the edges that end in [d], as stored. *)
Definition sources (g : Graph) (d : Z) : list Z :=
  if d <? 0 then [] else default [] (edges g !! Z.to_nat d).

(** There is an edge from [s] to [d]. *)
Definition edge (g : Graph) (s d : Z) : Prop := s ∈ sources g d.

(** [x] is reached from [node] by walking edges backwards, from a vertex to
    a source of one of its incoming edges, as [DFS] and [BFS] walk. *)
Inductive reaches (g : Graph) (node : Z) : Z -> Prop :=
  | reaches_here : reaches g node node
  | reaches_step x y : reaches g node y -> edge g x y -> reaches g node x.

(** The array [visited] of a search over [n] vertices marks exactly the
    entries of [l], which are vertices and pairwise different. *)
Definition marks (n : nat) (visited : list bool) (l : list Z) : Prop :=
  length visited = n
  /\ (forall x, x ∈ l -> 0 <= x < Z.of_nat n)
  /\ (forall x, 0 <= x -> (visited !! Z.to_nat x = Some true <-> x ∈ l))
  /\ NoDup l.

(** The number of entries that [DFS] has pushed for the vertices of [l]. *)
Definition weight (g : Graph) (l : list Z) : nat :=
  sum_list (map (fun y => length (sources g y)) l).

(** [l] without its first entry equal to [s]. *)
Fixpoint remove_first (s : Z) (l : list Z) : list Z :=
  match l with
  | [] => []
  | x :: rest => if x =? s then rest else x :: remove_first s rest
  end.

(** The graphs that the exported functions build.  [AddNode] is taken not
    to be called on a graph whose number of vertices is the largest
    [int]. *)
Inductive built : Graph -> Prop :=
  | built_New name : built (New name)
  | built_AddNode g name value :
      built g -> len (vertices g) < max_int ->
      built (Graph_AddNode g name value).1
  | built_AddEdge g src dst g' e :
      built g -> Graph_AddEdge g src dst = Ok (g', e) -> built g'
  | built_RemoveEdge g src dst g' b :
      built g -> Graph_RemoveEdge g src dst = Ok (g', b) -> built g'
  | built_RemoveNodeAt g index g' b :
      built g -> Graph_RemoveNodeAt g index = Ok (g', b) -> built g'.

(** What [RemoveNodeAt(index)] makes of a list of sources: the entries
    equal to [index] are gone, the entries above it are one less. *)
Fixpoint renumber (index : Z) (l : list Z) : list Z :=
  match l with
  | [] => []
  | x :: rest =>
      if x =? index then renumber index rest
      else (if x >? index then x - 1 else x) :: renumber index rest
  end.

(** The number of a vertex of the graph before [RemoveNodeAt(index)], from
    its number after it. *)
Definition before_removal (index x : Z) : Z :=
  if x <? index then x else x + 1.

(** The graph has a cycle: an edge from [x] to [y] and a walk from [y] on
    to [x] (a loop at [x] when [y] is [x]). *)
Definition cyclic (g : Graph) : Prop :=
  exists x y, edge g x y /\ reaches g x y.

(** The number of vertices not yet visited. *)
Fixpoint unvisited (visited : list bool) : nat :=
  match visited with
  | [] => 0
  | b :: rest => ((if b then 0 else 1) + unvisited rest)%nat
  end.

(** The colours of a depth-first search: a vertex is grey while its call
    of [hasCycleUtil] runs, and black once the call has returned. *)
Definition grey (recStack : list bool) (x : Z) : Prop :=
  0 <= x /\ recStack !! Z.to_nat x = Some true.

Definition black (visited recStack : list bool) (x : Z) : Prop :=
  0 <= x /\ visited !! Z.to_nat x = Some true
  /\ recStack !! Z.to_nat x = Some false.

(** What [hasCycleUtil] keeps true of its two arrays as long as it has not
    found a cycle: a grey vertex is visited; the sources of the edges into
    a black vertex are black; no black vertex lies on a cycle. *)
Definition colours (g : Graph) (visited recStack : list bool) : Prop :=
  length visited = length (vertices g)
  /\ length recStack = length (vertices g)
  /\ (forall i, recStack !! i = Some true -> visited !! i = Some true)
  /\ (forall x y, black visited recStack x -> edge g y x ->
        black visited recStack y)
  /\ (forall x y, black visited recStack x -> edge g y x ->
        ~ reaches g y x).

(** *** Sample graphs *)

(** [AddNode] for each name and [AddEdge] for each pair, in turn, as the
    tests of the package build their graphs. *)
Fixpoint add_nodes (g : Graph) (names : list string) : Graph :=
  match names with
  | [] => g
  | name :: names => add_nodes (Graph_AddNode g name Other).1 names
  end.

Fixpoint add_edges (g : Graph) (pairs : list (Z * Z)) : Res Graph :=
  match pairs with
  | [] => Ok g
  | (src, dst) :: pairs =>
      '(g, _) ← Graph_AddEdge g src dst; add_edges g pairs
  end.

Definition nodes_of (names : list string) : list Node :=
  map (fun name => {| Node_Name := name; Node_Value := Other |}) names.

(** Two vertices and the edge from 0 to 1. *)
Definition graph_2 : Graph :=
  {| Graph_Name := "g"; vertices := nodes_of ["A"; "B"];
     edges := [[]; [0]] |}.

(** The graph of [TestGraph] after its calls of [AddEdge]. *)
Definition graph_test : Graph :=
  {| Graph_Name := "mygraph";
     vertices := nodes_of ["0"; "1"; "2"; "3"; "4"; "5"; "6"];
     edges := [[3]; [0]; [0]; [0; 3; 4]; [2; 6]; [2; 1; 3; 3]; [3]] |}.

Definition names_a_j : list string :=
  ["node_a"; "node_b"; "node_c"; "node_d"; "node_e"; "node_f"; "node_g";
   "node_h"; "node_i"; "node_j"].

(** The graph of [TestDFS]. *)
Definition graph_dfs : Graph :=
  {| Graph_Name := "G"; vertices := nodes_of names_a_j;
     edges := [[7; 6; 1]; [5; 2]; [4; 3]; []; []; []; []; [9; 8]; []; []] |}.

(** The graph of [TestBFS]: the same edges, added in another order. *)
Definition graph_bfs : Graph :=
  {| Graph_Name := "G"; vertices := nodes_of names_a_j;
     edges := [[1; 6; 7]; [2; 5]; [3; 4]; []; []; []; []; [8; 9]; []; []] |}.

End digraph.

(** * Properties *)

(** ** Machine arithmetic and loops *)

Lemma max_int_val : max_int = 9223372036854775807.
Proof. reflexivity. Qed.

Lemma min_int_val : min_int = -9223372036854775808.
Proof. reflexivity. Qed.

Ltac int_lia := pose proof max_int_val; pose proof min_int_val; lia.

Lemma wrap_range z : min_int <= wrap z <= max_int.
Proof. unfold wrap, min_int, max_int. pose proof (Z.mod_pos_bound (z + 2^63) (2^64)). lia. Qed.

Lemma wrap_small z : min_int <= z <= max_int -> wrap z = z.
Proof. unfold wrap, min_int, max_int. intros. rewrite Z.mod_small; lia. Qed.

Lemma wrap_congr a b : a mod 2^64 = b mod 2^64 -> wrap a = wrap b.
Proof.
  intros E. unfold wrap. f_equal.
  rewrite (Z.add_mod a), (Z.add_mod b), E by lia. reflexivity.
Qed.

Lemma wrap_mod z : wrap z mod 2^64 = z mod 2^64.
Proof.
  unfold wrap.
  rewrite Zminus_mod, Z.mod_mod, <- Zminus_mod by lia. f_equal. lia.
Qed.

Lemma wrap_mul_l a b : wrap (wrap a * b) = wrap (a * b).
Proof. apply wrap_congr. rewrite Z.mul_mod, wrap_mod, <- Z.mul_mod by lia. reflexivity. Qed.

Lemma wrap_mul_r a b : wrap (a * wrap b) = wrap (a * b).
Proof. rewrite Z.mul_comm, wrap_mul_l. f_equal. lia. Qed.

Lemma wrap_add_l a b : wrap (wrap a + b) = wrap (a + b).
Proof. apply wrap_congr. rewrite Z.add_mod, wrap_mod, <- Z.add_mod by lia. reflexivity. Qed.

Lemma wrap_add_r a b : wrap (a + wrap b) = wrap (a + b).
Proof. rewrite Z.add_comm, wrap_add_l. f_equal. lia. Qed.

Lemma wrap_zero_mul a b : wrap a = 0 -> wrap (a * b) = 0.
Proof. intros E. rewrite <- wrap_mul_l, E. reflexivity. Qed.

Lemma for_up_inv {St} (P : nat -> St -> Prop) (body : nat -> St -> Res St) cnt :
  forall i s,
  P i s ->
  (forall j s, (i <= j < i + cnt)%nat -> P j s ->
     exists s', body j s = Ok s' /\ P (S j) s') ->
  exists s', for_up cnt i body s = Ok s' /\ P (i + cnt)%nat s'.
Proof.
  induction cnt as [|c IH]; intros i s HP Hstep; simpl.
  - exists s. rewrite Nat.add_0_r. auto.
  - destruct (Hstep i s) as (s1 & E1 & P1); [lia | assumption |].
    rewrite E1. simpl.
    destruct (IH (S i) s1 P1) as (s2 & E2 & P2).
    + intros j t Hj. apply Hstep. lia.
    + exists s2. split; [exact E2|]. replace (i + S c)%nat with (S i + c)%nat by lia. exact P2.
Qed.

Lemma for_down_inv {St} (P : nat -> St -> Prop) (body : nat -> St -> Res St) n :
  forall s,
  P n s ->
  (forall j s, (j < n)%nat -> P (S j) s ->
     exists s', body j s = Ok s' /\ P j s') ->
  exists s', for_down n body s = Ok s' /\ P 0%nat s'.
Proof.
  induction n as [|n IH]; intros s HP Hstep; simpl.
  - eauto.
  - destruct (Hstep n s) as (s1 & E1 & P1); [lia | assumption |].
    rewrite E1. simpl. apply IH; [exact P1|].
    intros j t Hj. apply Hstep. lia.
Qed.

(** Res helpers *)
Lemma load_Some {A} (l : list A) i x : l !! i = Some x -> load l i = Ok x.
Proof. unfold load. intros ->. reflexivity. Qed.

Lemma assign_lt {A} (l : list A) i x :
  (i < length l)%nat -> assign l i x = Ok (<[i:=x]> l).
Proof. unfold assign. intros H. destruct (decide (i < length l)%nat); [reflexivity | lia]. Qed.

(** ** The half-precision encoder *)

Example FF64_one : float16.FF64 0x3FF0000000000000 = 0x3C00.
Proof. reflexivity. Qed.

Example FF64_zero : float16.FF64 0 = 0.
Proof. reflexivity. Qed.

Example FF32_one : float16.FF32 0x3F800000 = 0x3C00.
Proof. reflexivity. Qed.

Example ToF32_one : float16.ToF32 0x3C00 = 0x3F800000.
Proof. reflexivity. Qed.

Example ToF64_smallest_subnormal : float16.ToF64 0x0001 = 0x3E70000000000000.
Proof. reflexivity. Qed.

Example ToF64_infinities :
  float16.ToF64 0x7C00 = 0x7FF0000000000000
  /\ float16.ToF64 0xFC00 = 0xFFF0000000000000.
Proof. split; reflexivity. Qed.

Example float32_of_float64_third :
  ieee.float32_of_float64 0x3FD5555555555555 = 0x3EAAAAAB.
Proof. reflexivity. Qed.

Example float64_of_float32_subnormal :
  ieee.float64_of_float32 0x00000001 = 0x36A0000000000000.
Proof. reflexivity. Qed.

(** The renormalisation loop of the decoders leaves the implicit bit set on
    every non-zero ten-bit mantissa: ten rounds are enough. *)
Lemma renorm_terminates :
  forallb
    (fun n => let frac := Z.of_nat n in
              negb (Z.land (fst (float16.renorm 32 10 frac 0)) 0x400 =? 0))
    (seq 1 1023) = true.
Proof. vm_compute. reflexivity. Qed.

Lemma i32_small z : -2147483648 <= z < 2147483648 -> i32 z = z.
Proof. intros H. unfold i32. rewrite Z.mod_small; lia. Qed.

(** What the underflow branch of [FF64] computes on a normal input whose
    rebiased exponent [sexp = exp - 1008] is not positive: the mantissa is
    shifted by [13 + (1 - sexp)] and the low sixteen bits of the result are
    kept, exponent and sign bits included. *)
Lemma FF64_underflow_branch (bits : Z) :
  let exp := Z.land (Z.shiftr bits 52) 0x7ff in
  let frac := Z.land bits 0xfffffffffffff in
  1 <= exp <= 1008 ->
  float16.FF64 bits =
    Z.lor (u16 (u64 (Z.shiftl (Z.shiftr bits 63) 15)))
          (u16 (Z.shiftr frac (13 + (1 - (exp - 1008))))).
Proof.
  intros exp frac Hexp. unfold float16.FF64. fold exp. fold frac.
  destruct (Z.eqb_spec exp 0x7ff) as [E|_]; [lia|].
  destruct (Z.eqb_spec exp 0) as [E|_]; [lia|].
  rewrite (i32_small exp) by lia.
  rewrite (i32_small (exp - 1023)) by lia.
  rewrite (i32_small (exp - 1023 + 15)) by lia.
  destruct (Z.geb_spec (exp - 1023 + 15) 0x1f) as [E|_]; [lia|].
  destruct (Z.leb_spec (exp - 1023 + 15) 0) as [_|E]; [|lia].
  rewrite (i32_small (- (exp - 1023 + 15))) by lia.
  rewrite (i32_small (- (exp - 1023 + 15) + 1)) by lia.
  rewrite Z.shiftr_shiftr by lia.
  do 3 f_equal. lia.
Qed.

(** C1 (the code departs from the claim).  [0x3F0FFFFFFFFFFFFF] is a normal
    [float64] just under [2^-14]: its exponent field is 1008, so the
    rebiased exponent is [sexp = 0].  The claim asks for exponent field 0
    and mantissa field [frac >> (42 + 1 - sexp) = 0x1FF]; [FF64] shifts by
    [13 + 1 - sexp] instead and returns [0xFFFF], whose exponent field is all
    ones. *)
Theorem FF64_underflow_sets_exponent_bits :
  let bits := 0x3F0FFFFFFFFFFFFF in
  Z.land (Z.shiftr bits 52) 0x7ff - 1023 + 15 = 0
  /\ Z.shiftr (Z.land bits 0xfffffffffffff) (42 + 1 - 0) = 0x1FF
  /\ float16.FF64 bits = 0xFFFF
  /\ Z.land (float16.FF64 bits) float16.expMask = 0x7C00.
Proof. vm_compute. repeat split. Qed.

(** The sibling encoder on the corresponding [float32] input: there the
    extra shift of 13 is the whole truncation and the result is the
    subnormal [0x01FF]. *)
Example FF32_underflow : float16.FF32 0x387FFFFF = 0x01FF.
Proof. reflexivity. Qed.

(** ** Shape *)

Lemma product_app l1 l2 : product (l1 ++ l2) = product l1 * product l2.
Proof. induction l1 as [|x l IH]; simpl; [lia|]. rewrite IH. lia. Qed.

Lemma product_take_drop (l : list Z) i : product l = product (take i l) * product (drop i l).
Proof. rewrite <- product_app, take_drop. reflexivity. Qed.

Lemma product_pos l : Forall (fun d => 0 < d) l -> 0 < product l.
Proof. induction 1; simpl; lia. Qed.

Lemma fold_left_mul l : forall a, fold_left mul l (wrap a) = wrap (a * product l).
Proof.
  induction l as [|x l IH]; intros a; cbn [fold_left].
  - f_equal. change (product []) with 1. lia.
  - change (product (x :: l)) with (x * product l).
    unfold mul at 2. rewrite wrap_mul_l, IH. f_equal. lia.
Qed.

Lemma Shape_Len_wrap sh : Shape_Len sh = wrap (product sh).
Proof.
  unfold Shape_Len.
  rewrite (fold_left_mul sh 1 : fold_left mul sh 1 = _).
  f_equal. lia.
Qed.

Lemma Shape_StrideOf_wrap sh dim : Shape_StrideOf sh dim = wrap (product (drop 1 sh)).
Proof.
  unfold Shape_StrideOf.
  rewrite (fold_left_mul (drop 1 sh) 1 : fold_left mul (drop 1 sh) 1 = _).
  f_equal. lia.
Qed.

Lemma Shape_Strides_nil : Shape_Strides [] = Panic RuntimeIndex.
Proof. reflexivity. Qed.

Lemma Shape_Strides_spec (sh : Shape) :
  sh <> [] ->
  exists st, Shape_Strides sh = Ok st /\ length st = length sh /\
    forall i, (i < length sh)%nat -> st !! i = Some (wrap (product (take i sh))).
Proof.
  intros Hne. unfold Shape_Strides.
  assert (Hlen : (0 < length sh)%nat) by (destruct sh; [congruence | simpl; lia]).
  rewrite assign_lt by (rewrite length_replicate; exact Hlen).
  simpl. rewrite length_insert, length_replicate.
  destruct (for_up_inv
    (fun i (st : list Z) => length st = length sh /\
       forall j, (j < i)%nat -> st !! j = Some (wrap (product (take j sh))))
    (fun i strides => p ← load strides (i - 1); x ← load sh (i - 1); assign strides i (mul p x))
    (length sh - 1) 1 (<[0%nat:=1]> (replicate (length sh) 0)))
    as (st & E & Hlenst & Hst).
  - split; [by rewrite length_insert, length_replicate|].
    intros j Hj. assert (j = 0%nat) as -> by lia.
    rewrite list_lookup_insert_eq by (rewrite length_replicate; lia).
    reflexivity.
  - intros j st Hj [Hl Hp].
    destruct (lookup_lt_is_Some_2 sh (j - 1)) as [x Hx]; [lia|].
    rewrite (load_Some _ _ _ (Hp (j - 1)%nat ltac:(lia))). simpl.
    rewrite (load_Some _ _ _ Hx). simpl.
    rewrite assign_lt by lia.
    eexists; split; [reflexivity|]. split; [by rewrite length_insert|].
    intros i Hi. destruct (decide (i = j)) as [->|Hne'].
    + rewrite list_lookup_insert_eq by lia. f_equal.
      unfold mul. rewrite wrap_mul_l. f_equal.
      assert (Ht : take j sh = take (j - 1) sh ++ [x]).
      { rewrite <- (take_S_r _ _ _ Hx). f_equal. lia. }
      rewrite Ht, product_app. simpl. lia.
    + rewrite list_lookup_insert_ne by congruence. apply Hp. lia.
  - exists st. split; [exact E|]. split; [exact Hlenst|].
    intros i Hi. apply Hst. lia.
Qed.

Lemma Shape_Strides_Ok_inv sh st :
  Shape_Strides sh = Ok st ->
  sh <> [] /\ length st = length sh /\
  forall i, (i < length sh)%nat -> st !! i = Some (wrap (product (take i sh))).
Proof.
  intros E. assert (Hne : sh <> []) by (intros ->; discriminate E).
  destruct (Shape_Strides_spec sh Hne) as (st' & E' & Hl & Hs).
  rewrite E in E'. inversion E'; subst st'. auto.
Qed.

(** C2 (the code departs from the claim).  [Equal] compares the lengths
    [Len], not the ranks: shapes [(6)] and [(6,1)] compare equal, and with
    the longer shape as receiver the loop indexes past the end of the
    other. *)
Theorem Shape_Equal_rank_mismatch :
  Shape_Equal [6] [6; 1] = Ok true
  /\ Shape_Equal [6; 1] [6] = Panic RuntimeIndex.
Proof. split; reflexivity. Qed.

Lemma Shape_Equal_loop_spec (sh other : Shape) cnt :
  forall i, length sh = length other -> (i + cnt = length sh)%nat ->
  Shape_Equal_loop sh other cnt i = Ok (bool_decide (drop i sh = drop i other)).
Proof.
  induction cnt as [|c IH]; intros i Hl Hi; simpl.
  - rewrite !drop_ge by lia. reflexivity.
  - destruct (lookup_lt_is_Some_2 sh i ltac:(lia)) as [a Ha].
    destruct (lookup_lt_is_Some_2 other i ltac:(lia)) as [b Hb].
    rewrite (load_Some _ _ _ Ha), (load_Some _ _ _ Hb). simpl.
    rewrite (drop_S _ _ _ Ha), (drop_S _ _ _ Hb).
    destruct (Z.eqb_spec a b) as [->|Hne]; simpl.
    + rewrite IH by lia. apply f_equal, bool_decide_ext.
      split; [intros ->; reflexivity | intros E; inversion E; reflexivity].
    + f_equal. symmetry. apply bool_decide_eq_false_2.
      intros E. inversion E. contradiction.
Qed.

(** On shapes of the same rank [Equal] is structural equality. *)
Lemma Shape_Equal_same_rank (sh other : Shape) :
  length sh = length other ->
  Shape_Equal sh other = Ok (bool_decide (sh = other)).
Proof.
  intros Hl. unfold Shape_Equal.
  destruct (Z.eqb_spec (Shape_Len sh) (Shape_Len other)) as [E|Hne]; simpl.
  - rewrite Shape_Equal_loop_spec by lia. reflexivity.
  - f_equal. symmetry. apply bool_decide_eq_false_2. intros ->. contradiction.
Qed.

(** C9, as the code has it.  For a shape of rank at least one, [Strides]
    succeeds and its entry for an axis is the product of the sizes strictly
    before that axis, in [int] arithmetic; [StrideOf(0)] is the product of
    the sizes strictly after axis 0. *)
Theorem Strides_are_prefix_products (sh : Shape) :
  sh <> [] ->
  exists st, Shape_Strides sh = Ok st
    /\ length st = length sh
    /\ (forall axis, (axis < length sh)%nat ->
          st !! axis = Some (wrap (product (take axis sh))))
    /\ Shape_StrideOf sh 0 = wrap (product (drop 1 sh)).
Proof.
  intros Hne. destruct (Shape_Strides_spec sh Hne) as (st & E & Hl & Hst).
  exists st. repeat split; try assumption. apply Shape_StrideOf_wrap.
Qed.

Lemma Strides_are_prefix_products_witness :
  exists st, Shape_Strides [2; 3; 4] = Ok st
    /\ length st = 3%nat
    /\ (forall axis, (axis < 3)%nat ->
          st !! axis = Some (wrap (product (take axis [2; 3; 4]))))
    /\ Shape_StrideOf [2; 3; 4] 0 = wrap (product (drop 1 [2; 3; 4])).
Proof. apply (Strides_are_prefix_products [2; 3; 4]). discriminate. Defined.

(** C9 as stated fails on shape [(2,3,4)] at axis 1: the product of the sizes
    after the axis is 4, [StrideOf(1)] is 12 and [Strides()[1]] is 2. *)
Lemma StrideOf_counterexample :
  let sh := [2; 3; 4] in
  Shape_StrideOf sh 1 <> product (drop 2 sh)
  /\ (st ← Shape_Strides sh; load st 1) <> Ok (Shape_StrideOf sh 1)
  /\ (st ← Shape_Strides sh; load st 1) <> Ok (product (drop 2 sh)).
Proof. vm_compute. repeat split; discriminate. Qed.

(** ** Offsets and multi-indices *)

Lemma quot_small a b : 0 <= a <= max_int -> b <> 0 -> wrap (Z.quot a b) = Z.quot a b.
Proof.
  intros Ha Hb. apply wrap_small.
  pose proof (Z.quot_rem' a b) as E.
  pose proof (Z.rem_bound_abs a b Hb) as Hr.
  pose proof (Z.rem_nonneg a b Hb ltac:(lia)) as Hr0.
  assert (Z.abs (Z.quot a b) <= a).
  { rewrite <- Z.quot_abs by exact Hb. rewrite (Z.abs_eq a) by lia.
    apply Z.quot_le_upper_bound; [lia | nia]. }
  int_lia.
Qed.

Lemma rem_small a b : 0 <= a <= max_int -> b <> 0 ->
  wrap (Z.rem a b) = Z.rem a b /\ 0 <= Z.rem a b <= a.
Proof.
  intros Ha Hb.
  pose proof (Z.quot_rem' a b) as E.
  pose proof (Z.rem_bound_abs a b Hb) as Hr.
  pose proof (Z.rem_nonneg a b Hb ltac:(lia)) as Hr0.
  assert (Z.rem a b <= a).
  { rewrite <- Z.rem_abs_r by exact Hb. apply Z.rem_le; lia. }
  split; [|lia]. apply wrap_small. int_lia.
Qed.

Lemma dot_nil_l b : dot [] b = 0.
Proof. reflexivity. Qed.

Lemma dot_cons x a y b : dot (x :: a) (y :: b) = x * y + dot a b.
Proof. reflexivity. Qed.

Lemma dot_app a1 a2 b1 b2 :
  length a1 = length b1 -> dot (a1 ++ a2) (b1 ++ b2) = dot a1 b1 + dot a2 b2.
Proof.
  revert b1. induction a1 as [|x a1 IH]; intros [|y b1] Hl; simpl in Hl; try lia.
  - reflexivity.
  - simpl app. rewrite !dot_cons, IH by lia. lia.
Qed.

Lemma Tensor_index_unfold ts k :
  Tensor_index ts k =
  ('(_, index) ← for_down (length (strides ts)) (index_body (strides ts))
                   (k, replicate (length (shape ts)) 0);
   Ok index).
Proof. reflexivity. Qed.

Lemma index_loop_sum (st : list Z) k idx0 :
  (forall i s, st !! i = Some s -> s <> 0) ->
  st !! 0%nat = Some 1 ->
  0 <= k <= max_int ->
  length idx0 = length st ->
  exists idx, for_down (length st) (index_body st) (k, idx0) = Ok (0, idx)
    /\ length idx = length st /\ dot st idx = k.
Proof.
  intros Hnz H0 Hk Hlen.
  destruct (for_down_inv
    (fun j (s : Z * list Z) =>
       length (snd s) = length st /\ 0 <= fst s <= k /\
       fst s + dot (drop j st) (drop j (snd s)) = k /\ (j = 0%nat -> fst s = 0))
    (index_body st) (length st) (k, idx0)) as ([r idx] & E & Hl & Hr & Hsum & Hz).
  - simpl. split; [exact Hlen|]. split; [lia|].
    rewrite !drop_ge by lia. split; [rewrite dot_nil_l; lia|].
    intros Hn. apply lookup_lt_Some in H0. lia.
  - intros j [off idx] Hj (Hl & Hoff & Hsum & _). simpl in *.
    destruct (lookup_lt_is_Some_2 st j Hj) as [s Hs].
    pose proof (Hnz _ _ Hs) as Hsnz.
    rewrite (load_Some _ _ _ Hs). simpl.
    unfold quo, rem. destruct (Z.eqb_spec s 0) as [|_]; [contradiction|]. simpl.
    rewrite assign_lt by lia. simpl.
    rewrite quot_small by (lia || assumption).
    destruct (rem_small off s ltac:(lia) Hsnz) as [-> Hrem].
    eexists; split; [reflexivity|]. simpl.
    split; [by rewrite length_insert|]. split; [lia|]. split.
    + rewrite (drop_S st s j Hs).
      rewrite (drop_S (<[j:=Z.quot off s]> idx) (Z.quot off s) j)
        by (apply list_lookup_insert_eq; lia).
      rewrite drop_insert_lt by lia. rewrite dot_cons.
      pose proof (Z.quot_rem' off s). lia.
    + intros ->. rewrite H0 in Hs. inversion Hs; subst s. apply Z.rem_1_r.
  - simpl in *. rewrite !drop_0 in Hsum. rewrite (Hz eq_refl) in *.
    exists idx. split; [exact E|]. split; [exact Hl|]. lia.
Qed.

(** The loop of [Tensor.offset] computes the wrapped dot product. *)
Lemma Tensor_offset_wrap ts index :
  (length index <= length (strides ts))%nat ->
  Tensor_offset ts index =
    Ok (wrap (dot (take (length index) (strides ts)) index)).
Proof.
  intros Hlen. unfold Tensor_offset.
  destruct (for_up_inv
    (fun i (acc : Z) => acc = wrap (dot (take i (strides ts)) (take i index)))
    (fun i offset => s ← load (strides ts) i; x ← load index i; Ok (add offset (mul s x)))
    (length index) 0 0) as (acc & E & Hacc).
  - reflexivity.
  - intros j acc Hj ->.
    destruct (lookup_lt_is_Some_2 (strides ts) j ltac:(lia)) as [s Hs].
    destruct (lookup_lt_is_Some_2 index j ltac:(lia)) as [x Hx].
    rewrite (load_Some _ _ _ Hs). simpl. rewrite (load_Some _ _ _ Hx). simpl.
    eexists; split; [reflexivity|].
    rewrite (take_S_r _ _ _ Hs), (take_S_r _ _ _ Hx).
    rewrite dot_app by (rewrite !length_take; lia).
    unfold add, mul. rewrite wrap_add_l, wrap_add_r. f_equal.
    rewrite dot_cons, dot_nil_l. lia.
  - rewrite E. simpl in Hacc. rewrite Hacc, (take_ge index) by lia. reflexivity.
Qed.

Lemma strides_nonzero sh st i s :
  Shape_Strides sh = Ok st -> Shape_Len sh <> 0 -> st !! i = Some s -> s <> 0.
Proof.
  intros E HL Hs Hz. subst s.
  destruct (Shape_Strides_Ok_inv _ _ E) as (_ & Hl & Hst).
  assert (Hi : (i < length sh)%nat) by (apply lookup_lt_Some in Hs; lia).
  rewrite (Hst i Hi) in Hs. inversion Hs as [Hw].
  apply HL. rewrite Shape_Len_wrap, (product_take_drop sh i).
  apply wrap_zero_mul. exact Hw.
Qed.

Lemma strides_head sh st : Shape_Strides sh = Ok st -> st !! 0%nat = Some 1.
Proof.
  intros E. destruct (Shape_Strides_Ok_inv _ _ E) as (Hne & Hl & Hst).
  rewrite Hst; [reflexivity|]. destruct sh; [congruence | simpl; lia].
Qed.

(** C5.  For a tensor whose strides are those of its shape and an offset
    [0 <= k < shape.Len()], [index(k)] returns a multi-index and [offset]
    maps it back to [k]. *)
Theorem index_offset_roundtrip (ts : Tensor) (k : Z) :
  Shape_Strides (shape ts) = Ok (strides ts) ->
  0 <= k < Shape_Len (shape ts) ->
  exists index, Tensor_index ts k = Ok index /\ Tensor_offset ts index = Ok k.
Proof.
  intros E Hk.
  destruct (Shape_Strides_Ok_inv _ _ E) as (Hne & Hl & Hst).
  pose proof (wrap_range (product (shape ts))) as HR.
  rewrite <- Shape_Len_wrap in HR.
  destruct (index_loop_sum (strides ts) k (replicate (length (shape ts)) 0))
    as (idx & Eidx & Hlidx & Hdot).
  - intros i s. apply (strides_nonzero _ _ _ _ E). lia.
  - exact (strides_head _ _ E).
  - lia.
  - rewrite length_replicate. lia.
  - exists idx. rewrite Tensor_index_unfold, Eidx. split; [reflexivity|].
    rewrite Tensor_offset_wrap by lia.
    rewrite take_ge by lia. rewrite Hdot. f_equal. apply wrap_small.
    int_lia.
Qed.

Lemma index_offset_roundtrip_witness :
  exists index, Tensor_index tensor_4x4 9 = Ok index
    /\ Tensor_offset tensor_4x4 index = Ok 9.
Proof.
  apply (index_offset_roundtrip tensor_4x4 9); [reflexivity | vm_compute; split; [discriminate | reflexivity]].
Defined.

(** ** Reading and writing cells *)

Lemma kind_of_cases typ k :
  kind_of typ = Some k ->
  (typ = Float16 /\ k = KF16) \/ (typ = Float32 /\ k = KF32)
  \/ (typ = Float64 /\ k = KF64).
Proof.
  unfold kind_of.
  destruct (Z.eqb_spec typ Float16); [intros E; inversion E; auto|].
  destruct (Z.eqb_spec typ Float32); [intros E; inversion E; auto|].
  destruct (Z.eqb_spec typ Float64); intros E; inversion E; auto.
Qed.

Lemma buffer_as_slice h ts k v :
  buffer h ts = Some {| elem := k; cells := v |} ->
  exists l, data ts = SliceRef l /\ h !! l = Some {| elem := k; cells := v |}
    /\ as_slice h (data ts) k = Ok (l, v).
Proof.
  unfold buffer. destruct (data ts) as [|l| | | |] eqn:Ed; try discriminate.
  intros Hb. exists l. repeat split; [exact Hb|].
  unfold as_slice, deref. rewrite Hb. simpl.
  destruct (decide (k = k)); [reflexivity | contradiction].
Qed.

Lemma Tensor_at_buffer h ts k v off :
  kind_of (typ ts) = Some k ->
  buffer h ts = Some {| elem := k; cells := v |} ->
  Tensor_at h ts off = (x ← load_Z v off; Ok (box k x)).
Proof.
  intros Hk Hb. destruct (buffer_as_slice _ _ _ _ Hb) as (l & _ & _ & Hs).
  unfold Tensor_at.
  destruct (kind_of_cases _ _ Hk) as [[Ht ->]|[[Ht ->]|[Ht ->]]];
    rewrite Ht; cbn; rewrite Hs; reflexivity.
Qed.

Lemma Tensor_setAt_buffer h ts k v off x :
  kind_of (typ ts) = Some k ->
  buffer h ts = Some {| elem := k; cells := v |} ->
  exists l, data ts = SliceRef l /\
    Tensor_setAt h ts off (box k x) =
      (v' ← assign_Z v off x; Ok (<[l := {| elem := k; cells := v' |}]> h)).
Proof.
  intros Hk Hb. destruct (buffer_as_slice _ _ _ _ Hb) as (l & Hd & _ & Hs).
  exists l. split; [exact Hd|]. unfold Tensor_setAt.
  destruct (kind_of_cases _ _ Hk) as [[Ht ->]|[[Ht ->]|[Ht ->]]];
    rewrite Ht; cbn; rewrite Hs; reflexivity.
Qed.

Lemma load_Z_in_range {A} (v : list A) off :
  0 <= off < Z.of_nat (length v) ->
  exists x, v !! Z.to_nat off = Some x /\ load_Z v off = Ok x.
Proof.
  intros H. unfold load_Z. destruct (Z.ltb_spec off 0); [lia|].
  destruct (lookup_lt_is_Some_2 v (Z.to_nat off) ltac:(lia)) as [x Hx].
  exists x. split; [exact Hx | exact (load_Some _ _ _ Hx)].
Qed.

Lemma load_Z_at_length {A} (v : list A) :
  load_Z v (Z.of_nat (length v)) = Panic RuntimeIndex.
Proof.
  unfold load_Z. destruct (Z.ltb_spec (Z.of_nat (length v)) 0); [reflexivity|].
  unfold load. rewrite lookup_ge_None_2 by lia. reflexivity.
Qed.

(** What [GetAt] does on a well-formed tensor, offset by offset: the package's
    error below 0 and above [Len], the cell inside, and the runtime's own
    panic at [Len] itself. *)
Lemma Tensor_GetAt_cases h ts k v off :
  kind_of (typ ts) = Some k ->
  buffer h ts = Some {| elem := k; cells := v |} ->
  Z.of_nat (length v) = Shape_Len (shape ts) ->
  (off < 0 \/ Shape_Len (shape ts) < off ->
     Tensor_GetAt h ts off = Panic ErrIndexOutOfRange)
  /\ (0 <= off < Shape_Len (shape ts) ->
     exists x, v !! Z.to_nat off = Some x
       /\ Tensor_GetAt h ts off = Ok (box k x))
  /\ (off = Shape_Len (shape ts) ->
     Tensor_GetAt h ts off = Panic RuntimeIndex).
Proof.
  intros Hk Hb Hl. unfold Tensor_GetAt, Tensor_testOffset.
  rewrite (Tensor_at_buffer _ _ _ _ _ Hk Hb).
  repeat split.
  - intros H. destruct (Z.ltb_spec off 0), (Z.gtb_spec off (Shape_Len (shape ts)));
      try reflexivity; lia.
  - intros H. destruct (Z.ltb_spec off 0), (Z.gtb_spec off (Shape_Len (shape ts)));
      try lia. cbn.
    destruct (load_Z_in_range v off ltac:(lia)) as (x & Hx & ->).
    exists x. split; [exact Hx | reflexivity].
  - intros ->. destruct (Z.ltb_spec (Shape_Len (shape ts)) 0),
      (Z.gtb_spec (Shape_Len (shape ts)) (Shape_Len (shape ts))); try lia.
    cbn. rewrite <- Hl, load_Z_at_length. reflexivity.
Qed.

(** C3 (the code departs from the claim).  On the two-cell tensor that
    [NewTensor(nil, Float16, (2))] builds, offset 2 equals [shape.Len()]:
    [testOffset] accepts it, and [GetAt] and [SetAt] stop on the runtime's
    index panic, not on [ErrIndexOutOfRange]. *)
Theorem GetAt_at_Len_is_not_IndexOutOfRange :
  NewTensor [] Nil Float16 [2] = Ok (tensor_2, heap_2)
  /\ Shape_Len (shape tensor_2) = 2
  /\ Tensor_testOffset tensor_2 2 = Ok ()
  /\ Tensor_GetAt heap_2 tensor_2 2 = Panic RuntimeIndex
  /\ Tensor_SetAt heap_2 tensor_2 2 (F16 0) = Panic RuntimeIndex
  /\ Tensor_GetAt heap_2 tensor_2 3 = Panic ErrIndexOutOfRange.
Proof. repeat split. Qed.

(** ** Construction *)

Lemma forallb_positive (sh : Shape) :
  Forall (fun d => 0 < d) sh -> forallb (fun x => 0 <? x) sh = true.
Proof.
  induction 1 as [|d sh Hd _ IH]; [reflexivity|].
  cbn. rewrite IH. destruct (Z.ltb_spec 0 d); [reflexivity | lia].
Qed.

Lemma make_nonneg k n h :
  0 <= n ->
  make k n h =
    Ok (SliceRef (length h),
        h ++ [{| elem := k; cells := replicate (Z.to_nat n) 0 |}]).
Proof. intros H. unfold make. destruct (Z.ltb_spec n 0); [lia | reflexivity]. Qed.

Lemma deref_new h s : deref (h ++ [s]) (length h) = Ok s.
Proof. unfold deref. rewrite list_lookup_middle by reflexivity. reflexivity. Qed.

Lemma length_zeros n : 0 <= n -> Z.of_nat (length (replicate (Z.to_nat n) 0)) = n.
Proof. intros H. rewrite length_replicate. lia. Qed.

Lemma wf_intro h ts k v :
  kind_of (typ ts) = Some k ->
  buffer h ts = Some {| elem := k; cells := v |} ->
  Z.of_nat (length v) = Shape_Len (shape ts) ->
  Shape_Strides (shape ts) = Ok (strides ts) ->
  rank ts = Z.of_nat (length (shape ts)) ->
  Forall (fun d => 0 < d) (shape ts) ->
  wf h ts.
Proof. intros. split; eauto. Qed.

Lemma NewTensor_nil_spec (h : heap) (typ : Type_) (sh : Shape) :
  typ = Float16 \/ typ = Float32 \/ typ = Float64 ->
  sh <> [] ->
  Forall (fun d => 0 < d) sh ->
  0 <= Shape_Len sh ->
  exists ts h' k l,
    NewTensor h Nil typ sh = Ok (ts, h')
    /\ kind_of typ = Some k
    /\ graph.typ ts = typ
    /\ shape ts = sh
    /\ buffer h' ts =
         Some {| elem := k; cells := replicate (Z.to_nat (Shape_Len sh)) 0 |}
    /\ wf h' ts
    /\ data ts = SliceRef l /\ (length h <= l)%nat
    /\ (forall l', (l' < length h)%nat -> h' !! l' = h !! l').
Proof.
  intros Htyp Hne Hpos Hlen.
  destruct (Shape_Strides_spec sh Hne) as (st & Est & _).
  pose proof (forallb_positive sh Hpos) as Hfb.
  pose proof (length_zeros _ Hlen) as Hz.
  unfold NewTensor. rewrite Hfb.
  destruct Htyp as [-> | [-> | ->]]; cbn -[Shape_Len Shape_Strides replicate].
  - rewrite make_nonneg by exact Hlen. cbn -[Shape_Len Shape_Strides replicate].
    rewrite deref_new. cbn -[Shape_Len Shape_Strides replicate].
    rewrite Hz, Z.eqb_refl, Est. cbn -[Shape_Len Shape_Strides replicate].
    eexists _, _, KF16, _. split; [reflexivity|].
    assert (Hb : buffer (h ++ [{| elem := KF16; cells := replicate (Z.to_nat (Shape_Len sh)) 0 |}])
              {| rank := Z.of_nat (length sh); data := SliceRef (length h);
                 shape := sh; typ := Float16; strides := st |}
            = Some {| elem := KF16; cells := replicate (Z.to_nat (Shape_Len sh)) 0 |}).
    { unfold buffer. cbn. apply list_lookup_middle. reflexivity. }
    repeat split; try reflexivity; try exact Hb.
    all: try (eapply wf_intro; eauto; reflexivity).
    all: try (cbn; rewrite ?length_app; cbn; lia).
    all: intros l' Hl'; rewrite <- ?app_assoc; apply lookup_app_l; exact Hl'.
  - rewrite make_nonneg by exact Hlen. cbn -[Shape_Len Shape_Strides replicate].
    rewrite deref_new. cbn -[Shape_Len Shape_Strides replicate].
    rewrite Hz, Z.eqb_refl, Est. cbn -[Shape_Len Shape_Strides replicate].
    rewrite fmap_replicate.
    change (ieee.float32_of_float64 0) with 0.
    eexists _, _, KF32, _. split; [reflexivity|].
    assert (Hb : buffer ((h ++ [{| elem := KF64; cells := replicate (Z.to_nat (Shape_Len sh)) 0 |}])
                   ++ [{| elem := KF32; cells := replicate (Z.to_nat (Shape_Len sh)) 0 |}])
              {| rank := Z.of_nat (length sh);
                 data := SliceRef (length (h ++ [{| elem := KF64; cells := replicate (Z.to_nat (Shape_Len sh)) 0 |}]));
                 shape := sh; typ := Float32; strides := st |}
            = Some {| elem := KF32; cells := replicate (Z.to_nat (Shape_Len sh)) 0 |}).
    { unfold buffer. cbn -[replicate]. apply list_lookup_middle. reflexivity. }
    repeat split; try reflexivity; try exact Hb.
    all: try (eapply wf_intro; eauto; reflexivity).
    all: try (cbn; rewrite ?length_app; cbn; lia).
    all: intros l' Hl'; rewrite <- ?app_assoc; apply lookup_app_l; exact Hl'.
  - rewrite make_nonneg by exact Hlen. cbn -[Shape_Len Shape_Strides replicate].
    rewrite deref_new. cbn -[Shape_Len Shape_Strides replicate].
    rewrite Hz, Z.eqb_refl, Est. cbn -[Shape_Len Shape_Strides replicate].
    rewrite fmap_replicate.
    change (ieee.float64_of_float32 0) with 0.
    eexists _, _, KF64, _. split; [reflexivity|].
    assert (Hb : buffer ((h ++ [{| elem := KF32; cells := replicate (Z.to_nat (Shape_Len sh)) 0 |}])
                   ++ [{| elem := KF64; cells := replicate (Z.to_nat (Shape_Len sh)) 0 |}])
              {| rank := Z.of_nat (length sh);
                 data := SliceRef (length (h ++ [{| elem := KF32; cells := replicate (Z.to_nat (Shape_Len sh)) 0 |}]));
                 shape := sh; typ := Float64; strides := st |}
            = Some {| elem := KF64; cells := replicate (Z.to_nat (Shape_Len sh)) 0 |}).
    { unfold buffer. cbn -[replicate]. apply list_lookup_middle. reflexivity. }
    repeat split; try reflexivity; try exact Hb.
    all: try (eapply wf_intro; eauto; reflexivity).
    all: try (cbn; rewrite ?length_app; cbn; lia).
    all: intros l' Hl'; rewrite <- ?app_assoc; apply lookup_app_l; exact Hl'.
Qed.




(** ** Reshape *)

(** C6, as the code has it.  For a well-formed tensor and a new shape of rank
    at least one with positive sizes whose [Len()] equals the length of the
    buffer, [Reshape] succeeds; the tensor has the new shape, its strides and
    its rank, the same buffer reference and the same tag; the store is not
    written; and [GetAt] answers every offset as before. *)
Theorem Reshape_keeps_buffer (h : heap) (ts : Tensor) (s : slice) (sh : Shape) :
  wf h ts ->
  buffer h ts = Some s ->
  sh <> [] ->
  Forall (fun d => 0 < d) sh ->
  Shape_Len sh = Z.of_nat (length (cells s)) ->
  exists ts',
    Tensor_Reshape h ts sh = Ok ts'
    /\ shape ts' = sh
    /\ Shape_Strides sh = Ok (strides ts')
    /\ rank ts' = Z.of_nat (length sh)
    /\ data ts' = data ts
    /\ typ ts' = typ ts
    /\ buffer h ts' = Some s
    /\ wf h ts'
    /\ forall k, Tensor_GetAt h ts' k = Tensor_GetAt h ts k.
Proof.
  intros Hwf Hs Hne Hpos Hlen.
  destruct Hwf as [(k & v & Hk & Hb & Hl) Hst Hrk Hp].
  rewrite Hs in Hb. inversion Hb; subst s. cbn in Hlen. clear Hb.
  destruct (buffer_as_slice _ _ _ _ Hs) as (l & Hd & Hhl & Has).
  destruct (Shape_Strides_spec sh Hne) as (st & Est & _).
  assert (Hsw : (if typ ts =? Float16 then
           '(_, v) ← as_slice h (data ts) KF16;
           if negb (Z.of_nat (length v) =? Shape_Len sh)
           then Panic ErrInvalidShape else Ok ()
         else if typ ts =? Float32 then
           '(_, v) ← as_slice h (data ts) KF32;
           if negb (Z.of_nat (length v) =? Shape_Len sh)
           then Panic ErrInvalidShape else Ok ()
         else if typ ts =? Float64 then
           '(_, v) ← as_slice h (data ts) KF64;
           if negb (Z.of_nat (length v) =? Shape_Len sh)
           then Panic ErrInvalidShape else Ok ()
         else Ok ()) = Ok ()).
  { destruct (kind_of_cases _ _ Hk) as [[Ht ->]|[[Ht ->]|[Ht ->]]];
      rewrite Ht; cbn -[Shape_Len]; rewrite Has; cbn -[Shape_Len];
      rewrite Hlen, Z.eqb_refl; reflexivity. }
  unfold Tensor_Reshape. rewrite (forallb_positive sh Hpos).
  cbn -[Shape_Len Shape_Strides]. rewrite Hsw. cbn -[Shape_Len Shape_Strides].
  rewrite Est. cbn -[Shape_Len Shape_Strides].
  set (ts' := {| rank := Z.of_nat (length sh); data := data ts;
                 shape := sh; typ := typ ts; strides := st |}).
  assert (Hk' : kind_of (typ ts') = Some k) by exact Hk.
  assert (Hb' : buffer h ts' = Some {| elem := k; cells := v |}) by exact Hs.
  exists ts'. split; [reflexivity|].
  split; [reflexivity|]. split; [reflexivity|]. split; [reflexivity|].
  split; [reflexivity|]. split; [reflexivity|]. split; [exact Hb'|].
  split.
  - apply (wf_intro h ts' k v); auto; cbn; lia.
  - intros off. unfold Tensor_GetAt.
    rewrite (Tensor_at_buffer h ts k v off Hk Hs).
    rewrite (Tensor_at_buffer h ts' k v off Hk' Hb').
    unfold Tensor_testOffset. cbn [shape ts'].
    rewrite Hlen, <- Hl. reflexivity.
Qed.

Lemma heap_4x4_wf : wf heap_4x4 tensor_4x4.
Proof.
  eapply (wf_intro _ _ KF64); try reflexivity. repeat constructor.
Qed.

Lemma Reshape_keeps_buffer_witness :
  exists ts',
    Tensor_Reshape heap_4x4 tensor_4x4 [2; 2; 2; 2] = Ok ts'
    /\ shape ts' = [2; 2; 2; 2]
    /\ Shape_Strides [2; 2; 2; 2] = Ok (strides ts')
    /\ rank ts' = Z.of_nat (length [2; 2; 2; 2])
    /\ data ts' = data tensor_4x4
    /\ typ ts' = typ tensor_4x4
    /\ buffer heap_4x4 ts' = Some {| elem := KF64; cells := map Z.of_nat (seq 0 16) |}
    /\ wf heap_4x4 ts'
    /\ forall k, Tensor_GetAt heap_4x4 ts' k = Tensor_GetAt heap_4x4 tensor_4x4 k.
Proof.
  apply (Reshape_keeps_buffer heap_4x4 tensor_4x4 _ [2; 2; 2; 2]).
  - exact heap_4x4_wf.
  - reflexivity.
  - discriminate.
  - repeat constructor.
  - reflexivity.
Defined.

(** C6 as stated fails on the new shape of rank zero: its sizes are all
    positive and its [Len()] is 1, the length of the buffer of a one-cell
    tensor, yet [Reshape] stops in [Strides] on the runtime's index panic. *)
Lemma Reshape_counterexample :
  wf heap_1 tensor_1
  /\ Forall (fun d => 0 < d) ([] : Shape)
  /\ Shape_Len [] = Z.of_nat (length [0])
  /\ Tensor_Reshape heap_1 tensor_1 [] = Panic RuntimeIndex.
Proof.
  split.
  - apply (wf_intro _ _ KF64 [0]); try reflexivity. repeat constructor.
  - split; [constructor|]. split; reflexivity.
Qed.

(** ** Equality of tensors *)

Lemma elem_eqb_refl k x : elem_isNaN k x = false -> elem_eqb k x x = true.
Proof.
  destruct k; cbn; intros H.
  - apply Z.eqb_refl.
  - unfold ieee.eqb. rewrite H, Z.eqb_refl. reflexivity.
  - unfold ieee.eqb. rewrite H, Z.eqb_refl. reflexivity.
Qed.

Lemma Tensor_Equal_loop_spec k (v o : list Z) cnt :
  forall i, length v = length o -> (i + cnt = length v)%nat ->
  exists b, Tensor_Equal_loop k v o cnt i = Ok b
    /\ (b = true <->
        Forall2 (fun x y => elem_eqb k x y = true) (drop i v) (drop i o)).
Proof.
  induction cnt as [|c IH]; intros i Hl Hi; cbn [Tensor_Equal_loop].
  - exists true. split; [reflexivity|]. rewrite !drop_ge by lia.
    split; [constructor | reflexivity].
  - destruct (lookup_lt_is_Some_2 v i ltac:(lia)) as [a Ha].
    destruct (lookup_lt_is_Some_2 o i ltac:(lia)) as [b Hb].
    rewrite (load_Some _ _ _ Ha), (load_Some _ _ _ Hb). cbn.
    rewrite (drop_S _ _ _ Ha), (drop_S _ _ _ Hb).
    destruct (elem_eqb k a b) eqn:Eab; cbn.
    + destruct (IH (S i) Hl ltac:(lia)) as (r & Er & Hr).
      exists r. split; [exact Er|]. rewrite Hr. split.
      * intros H. constructor; assumption.
      * intros H. inversion H; assumption.
    + exists false. split; [reflexivity|]. split; [discriminate|].
      intros H. inversion H; congruence.
Qed.

(** C8, as the code has it.  For two well-formed tensors of the same rank,
    [Equal] returns true exactly when the shapes are equal, the tags are
    equal and every pair of corresponding cells is equal under Go's [==] of
    the element type: equality of the 16-bit patterns for half precision,
    IEEE-754 equality for single and double (a NaN differs from itself, the
    two zeros are equal).  So [Equal(t, t)] is true when no cell of [t] is a
    NaN, and two tensors one of whose pairs of cells differs under [==]
    compare unequal. *)
Theorem Tensor_Equal_spec (h : heap) (ts other : Tensor) (k k' : kind)
    (v o : list Z) :
  wf h ts ->
  wf h other ->
  buffer h ts = Some {| elem := k; cells := v |} ->
  buffer h other = Some {| elem := k'; cells := o |} ->
  length (shape ts) = length (shape other) ->
  exists b, Tensor_Equal h ts other = Ok b
    /\ (b = true <->
          shape ts = shape other /\ typ ts = typ other
          /\ Forall2 (fun x y => elem_eqb k x y = true) v o)
    /\ (ts = other -> Forall (fun x => elem_isNaN k x = false) v -> b = true)
    /\ (forall i x y, v !! i = Some x -> o !! i = Some y ->
          elem_eqb k x y = false -> b = false).
Proof.
  intros [(k1 & v1 & Hk & Hb & Hl) _ _ _] [(k2 & v2 & Hk2 & Hb2 & Hl2) _ _ _]
         Hv Ho Hrank.
  rewrite Hv in Hb. inversion Hb; subst k1 v1. clear Hb.
  rewrite Ho in Hb2. inversion Hb2; subst k2 v2. clear Hb2.
  assert (Hmain : exists b, Tensor_Equal h ts other = Ok b
    /\ (b = true <->
          shape ts = shape other /\ typ ts = typ other
          /\ Forall2 (fun x y => elem_eqb k x y = true) v o)).
  { unfold Tensor_Equal. rewrite (Shape_Equal_same_rank _ _ Hrank).
    cbn -[Shape_Len].
    destruct (decide (shape ts = shape other)) as [Hsh|Hsh].
    2:{ rewrite bool_decide_eq_false_2 by exact Hsh. cbn.
        exists false. split; [reflexivity|]. split; [discriminate|].
        intros [? _]. contradiction. }
    rewrite bool_decide_eq_true_2 by exact Hsh. cbn -[Shape_Len].
    destruct (Z.eqb_spec (typ ts) (typ other)) as [Ht|Ht]; cbn -[Shape_Len].
    2:{ exists false. split; [reflexivity|]. split; [discriminate|].
        intros (_ & ? & _). contradiction. }
    assert (k' = k) as -> by (rewrite <- Ht in Hk2; congruence).
    assert (Hlen : length v = length o).
    { apply Nat2Z.inj. rewrite Hl, Hl2, Hsh. reflexivity. }
    destruct (buffer_as_slice _ _ _ _ Hv) as (l1 & _ & _ & Hs1).
    destruct (buffer_as_slice _ _ _ _ Ho) as (l2 & _ & _ & Hs2).
    destruct (Tensor_Equal_loop_spec k v o (Z.to_nat (Shape_Len (shape ts))) 0 Hlen
                ltac:(lia)) as (b & Eb & Hbb).
    rewrite !drop_0 in Hbb.
    exists b. split.
    - destruct (kind_of_cases _ _ Hk) as [[Ht' ->]|[[Ht' ->]|[Ht' ->]]];
        rewrite Ht'; cbn -[Shape_Len]; rewrite Hs1; cbn -[Shape_Len];
        rewrite Hs2; cbn -[Shape_Len]; exact Eb.
    - rewrite Hbb. tauto. }
  destruct Hmain as (b & Eb & Hiff).
  exists b. split; [exact Eb|]. split; [exact Hiff|]. split.
  - intros -> Hnan. apply Hiff. split; [reflexivity|]. split; [reflexivity|].
    assert (k' = k /\ o = v) as [-> ->]
      by (rewrite Hv in Ho; inversion Ho; auto).
    clear - Hnan. induction Hnan; constructor; auto using elem_eqb_refl.
  - intros i x y Hx Hy Hne. destruct b; [|reflexivity].
    destruct Hiff as [Hiff _]. destruct (Hiff eq_refl) as (_ & _ & HF).
    pose proof (Forall2_lookup_lr _ _ _ _ _ _ HF Hx Hy) as E. cbn in E. congruence.
Qed.

Lemma heap_special_wf :
  wf heap_special tensor_nan /\ wf heap_special tensor_pos_zero
  /\ wf heap_special tensor_neg_zero.
Proof.
  repeat split; try reflexivity; try (repeat constructor).
  all: eexists KF64, _; repeat split.
Qed.

Lemma Tensor_Equal_spec_witness :
  exists b, Tensor_Equal heap_4x4 tensor_4x4 tensor_4x4 = Ok b
    /\ (b = true <->
          shape tensor_4x4 = shape tensor_4x4 /\ typ tensor_4x4 = typ tensor_4x4
          /\ Forall2 (fun x y => elem_eqb KF64 x y = true)
               (map Z.of_nat (seq 0 16)) (map Z.of_nat (seq 0 16)))
    /\ (tensor_4x4 = tensor_4x4 ->
        Forall (fun x => elem_isNaN KF64 x = false) (map Z.of_nat (seq 0 16)) ->
        b = true)
    /\ (forall i x y, map Z.of_nat (seq 0 16) !! i = Some x ->
          map Z.of_nat (seq 0 16) !! i = Some y ->
          elem_eqb KF64 x y = false -> b = false).
Proof.
  apply (Tensor_Equal_spec heap_4x4 tensor_4x4 tensor_4x4 KF64 KF64).
  - exact heap_4x4_wf.
  - exact heap_4x4_wf.
  - reflexivity.
  - reflexivity.
  - reflexivity.
Defined.

(** C8 as stated fails twice on well-formed tensors of one double: a tensor
    holding a NaN is not [Equal] to itself, and the tensors holding [+0] and
    [-0], whose cells differ in their sign bit, are [Equal]. *)
Lemma Tensor_Equal_counterexample :
  (wf heap_special tensor_nan
   /\ Tensor_Equal heap_special tensor_nan tensor_nan = Ok false)
  /\ (wf heap_special tensor_pos_zero /\ wf heap_special tensor_neg_zero
      /\ buffer heap_special tensor_pos_zero
           <> buffer heap_special tensor_neg_zero
      /\ Tensor_Equal heap_special tensor_pos_zero tensor_neg_zero = Ok true).
Proof.
  destruct heap_special_wf as (Hn & Hp & Hm).
  split; [split; [exact Hn | reflexivity]|].
  split; [exact Hp|]. split; [exact Hm|].
  split; [discriminate | reflexivity].
Qed.

(** ** Rendering *)

Lemma toString_unit_axis (Sprintf_v : any -> string) h ts rest d index :
  toString Sprintf_v h ts (1 :: rest) d index = Ok ("[]"%string, index).
Proof. destruct rest; reflexivity. Qed.

(** C10.  At a nesting level whose axis has size 1, [toString] renders
    ["[]"]: the loop over the leading entries runs [size - 1 = 0] times and
    the final entry is printed only if [size - 1 > 0].  So a tensor of shape
    (1) renders as ["[]"] and a tensor of shape (2,1) as ["[[], []]"],
    whatever its cells hold. *)
Theorem String_omits_unit_axes (Sprintf_v : any -> string) (h : heap)
    (ts : Tensor) :
  (forall d index, shape ts !! d = Some 1 ->
     toString Sprintf_v h ts (drop d (shape ts)) d index
       = Ok ("[]"%string, index))
  /\ (shape ts = [1] -> Tensor_String Sprintf_v h ts = Ok "[]"%string)
  /\ (shape ts = [2; 1] ->
      Tensor_String Sprintf_v h ts = Ok "[[], []]"%string).
Proof.
  split; [|split].
  - intros d index Hd. rewrite (drop_S _ _ _ Hd). apply toString_unit_axis.
  - intros E. unfold Tensor_String. rewrite E. reflexivity.
  - intros E. unfold Tensor_String. rewrite E. reflexivity.
Qed.

Lemma String_omits_unit_axes_witness :
  toString (fun _ => "x"%string) heap_2x1 tensor_2x1
      (drop 1 (shape tensor_2x1)) 1 [1; 0] = Ok ("[]"%string, [1; 0])
  /\ Tensor_String (fun _ => "x"%string) heap_2x1 tensor_2x1
       = Ok "[[], []]"%string.
Proof.
  destruct (String_omits_unit_axes (fun _ => "x"%string) heap_2x1 tensor_2x1)
    as (H1 & _ & H3).
  split; [apply H1; reflexivity | apply H3; reflexivity].
Defined.

(** With sizes above 1 every cell is printed, outermost axis first. *)
Example String_4x4 :
  Tensor_String (fun _ => "x"%string) heap_4x4 tensor_4x4
  = Ok "[[x, x, x, x], [x, x, x, x], [x, x, x, x], [x, x, x, x]]"%string.
Proof. vm_compute. reflexivity. Qed.

(** ** Mixed-radix numerals and exact strides *)

Lemma radix_length p sh : length (radix p sh) = length sh.
Proof. revert p. induction sh as [|d sh IH]; intros p; cbn; [reflexivity|]. by rewrite IH. Qed.

Lemma radix_lookup sh : forall p i, (i < length sh)%nat ->
  radix p sh !! i = Some (p * product (take i sh)).
Proof.
  induction sh as [|d sh IH]; intros p i Hi; cbn in Hi; [lia|].
  destruct i as [|i]; cbn.
  - f_equal. lia.
  - rewrite IH by lia. f_equal.
    unfold product. cbn. lia.
Qed.

Lemma radix_take sh : forall p j, take j (radix p sh) = radix p (take j sh).
Proof.
  induction sh as [|d sh IH]; intros p [|j]; cbn; try reflexivity.
  by rewrite IH.
Qed.

Lemma dot_radix_scale sh : forall p idx,
  dot (radix p sh) idx = p * dot (radix 1 sh) idx.
Proof.
  induction sh as [|d sh IH]; intros p [|x idx]; cbn [radix];
    rewrite ?dot_nil_l; try (unfold dot; cbn; lia).
  rewrite !dot_cons, (IH (p * d)), (IH (1 * d)). ring.
Qed.

Lemma product_take_le sh j :
  Forall (fun d => 0 < d) sh -> 0 < product (take j sh) <= product sh.
Proof.
  intros Hp. rewrite (product_take_drop sh j).
  pose proof (product_pos (take j sh) (Forall_take _ _ _ Hp)).
  pose proof (product_pos (drop j sh) (Forall_drop _ _ _ Hp)).
  nia.
Qed.

(** When the element count is representable, [Strides] is [radix 1]. *)
Lemma Shape_Strides_exact sh :
  sh <> [] -> Forall (fun d => 0 < d) sh -> exact sh ->
  Shape_Strides sh = Ok (radix 1 sh).
Proof.
  intros Hne Hp Hx. destruct (Shape_Strides_spec sh Hne) as (st & E & Hl & Hst).
  rewrite E. f_equal. apply list_eq. intros i.
  destruct (decide (i < length sh)%nat) as [Hi|Hi].
  - rewrite (Hst i Hi), (radix_lookup sh 1 i Hi). f_equal.
    pose proof (product_take_le sh i Hp). unfold exact in Hx.
    rewrite wrap_small by int_lia. lia.
  - rewrite !lookup_ge_None_2; [reflexivity | rewrite radix_length; lia | lia].
Qed.

Lemma Shape_Len_exact sh :
  Forall (fun d => 0 < d) sh -> exact sh -> Shape_Len sh = product sh.
Proof.
  intros Hp Hx. rewrite Shape_Len_wrap. apply wrap_small.
  pose proof (product_pos sh Hp). unfold exact in Hx. int_lia.
Qed.

Lemma in_bounds_length sh idx : in_bounds sh idx -> length idx = length sh.
Proof. apply Forall2_length. Qed.

(** The value of an in-bounds numeral is below the product of the sizes. *)
Lemma dot_radix_range sh idx :
  in_bounds sh idx -> 0 <= dot (radix 1 sh) idx < product sh.
Proof.
  unfold in_bounds. induction 1 as [|x d idx sh Hx _ IH]; cbn [radix].
  - rewrite dot_nil_l. change (product []) with 1. lia.
  - rewrite dot_cons, dot_radix_scale.
    change (product (d :: sh)) with (d * product sh). nia.
Qed.

Lemma digits_spec sh : forall o,
  Forall (fun d => 0 < d) sh -> 0 <= o < product sh ->
  in_bounds sh (digits sh o) /\ dot (radix 1 sh) (digits sh o) = o.
Proof.
  induction sh as [|d sh IH]; intros o Hp Ho; cbn [digits radix].
  - split; [constructor|]. change (product []) with 1 in Ho.
    rewrite dot_nil_l. lia.
  - inversion Hp as [|? ? Hd Hp']; subst.
    change (product (d :: sh)) with (d * product sh) in Ho.
    assert (Hq : 0 <= o / d < product sh).
    { split; [apply Z.div_pos; lia|]. apply Z.div_lt_upper_bound; lia. }
    destruct (IH (o / d) Hp' Hq) as [Hb Hdot].
    split.
    + constructor; [apply Z.mod_pos_bound; lia | exact Hb].
    + rewrite dot_cons, dot_radix_scale, Hdot.
      pose proof (Z.div_mod o d ltac:(lia)). lia.
Qed.

Lemma in_bounds_take sh idx j :
  in_bounds sh idx -> in_bounds (take j sh) (take j idx).
Proof. apply Forall2_take. Qed.

Lemma dot_prefix_range sh idx j :
  in_bounds sh idx ->
  0 <= dot (take j (radix 1 sh)) (take j idx) < product (take j sh).
Proof.
  intros Hb. rewrite radix_take. apply dot_radix_range, in_bounds_take, Hb.
Qed.

(** With exact strides, [index] inverts [offset] on in-bounds indices. *)
Lemma index_loop_exact (sh : Shape) (idx cur0 : list Z) :
  Forall (fun d => 0 < d) sh -> exact sh -> in_bounds sh idx ->
  length cur0 = length sh ->
  exists r, for_down (length (radix 1 sh)) (index_body (radix 1 sh))
              (dot (radix 1 sh) idx, cur0) = Ok (r, idx).
Proof.
  intros Hp Hx Hb Hlen. set (st := radix 1 sh).
  pose proof (in_bounds_length _ _ Hb) as Hli.
  assert (Hlst : length st = length sh) by apply radix_length.
  destruct (for_down_inv
    (fun j (s : Z * list Z) =>
       fst s = dot (take j st) (take j idx) /\ length (snd s) = length sh
       /\ drop j (snd s) = drop j idx)
    (index_body st) (length st) (dot st idx, cur0)) as ([r cur] & E & _ & Hl & Hd).
  - cbn. rewrite !take_ge by lia. rewrite !drop_ge by lia. auto.
  - intros j [off cur] Hj (Hoff & Hl & Hd). cbn in Hoff, Hl, Hd.
    destruct (lookup_lt_is_Some_2 sh j ltac:(lia)) as [d Hdj].
    destruct (lookup_lt_is_Some_2 idx j ltac:(lia)) as [x Hxj].
    assert (Hs : st !! j = Some (product (take j sh))).
    { unfold st. rewrite radix_lookup by lia. f_equal. lia. }
    pose proof (product_take_le sh j Hp) as Hsp.
    pose proof (product_take_le sh (S j) Hp) as Hsp'.
    pose proof (dot_prefix_range sh idx j Hb) as HDj. fold st in HDj.
    pose proof (dot_prefix_range sh idx (S j) Hb) as HDj'. fold st in HDj'.
    assert (Hxd : 0 <= x < d).
    { unfold in_bounds in Hb.
      exact (Forall2_lookup_lr _ _ _ _ _ _ Hb Hxj Hdj). }
    assert (Hstep : dot (take (S j) st) (take (S j) idx)
                    = dot (take j st) (take j idx) + product (take j sh) * x).
    { rewrite (take_S_r _ _ _ Hs), (take_S_r _ _ _ Hxj).
      rewrite dot_app by (rewrite !length_take; lia).
      rewrite dot_cons, dot_nil_l. lia. }
    set (D := dot (take j st) (take j idx)) in *.
    set (s := product (take j sh)) in *.
    assert (Hoffr : 0 <= off <= max_int) by (unfold exact in Hx; lia).
    assert (Hq : Z.quot off s = x).
    { rewrite Z.quot_div_nonneg by lia. symmetry.
      apply (Z.div_unique off s x D); lia. }
    assert (Hr : Z.rem off s = D).
    { rewrite Z.rem_mod_nonneg by lia. symmetry.
      apply (Z.mod_unique off s x D); lia. }
    cbn. rewrite (load_Some _ _ _ Hs). cbn.
    unfold quo, rem. destruct (Z.eqb_spec s 0) as [|_]; [lia|]. cbn.
    rewrite assign_lt by lia. cbn.
    rewrite Hq, Hr, !wrap_small by int_lia.
    eexists; split; [reflexivity|]. cbn.
    split; [reflexivity|]. split; [by rewrite length_insert|].
    rewrite (drop_S (<[j:=x]> cur) x j) by (apply list_lookup_insert_eq; lia).
    rewrite drop_insert_lt by lia. rewrite Hd. symmetry. apply drop_S, Hxj.
  - cbn in Hd. rewrite !drop_0 in Hd. subst cur. exists r. exact E.
Qed.

Lemma Tensor_index_exact (ts : Tensor) (idx : list Z) :
  Forall (fun d => 0 < d) (shape ts) -> exact (shape ts) ->
  strides ts = radix 1 (shape ts) ->
  in_bounds (shape ts) idx ->
  Tensor_index ts (dot (strides ts) idx) = Ok idx.
Proof.
  intros Hp Hx Hst Hb. rewrite Tensor_index_unfold, Hst.
  destruct (index_loop_exact (shape ts) idx (replicate (length (shape ts)) 0)
              Hp Hx Hb (length_replicate _ _)) as (r & ->).
  reflexivity.
Qed.

Lemma Tensor_offset_exact (ts : Tensor) (idx : list Z) :
  Forall (fun d => 0 < d) (shape ts) -> exact (shape ts) ->
  strides ts = radix 1 (shape ts) ->
  in_bounds (shape ts) idx ->
  Tensor_offset ts idx = Ok (dot (strides ts) idx)
  /\ 0 <= dot (strides ts) idx < product (shape ts).
Proof.
  intros Hp Hx Hst Hb.
  pose proof (in_bounds_length _ _ Hb) as Hl.
  pose proof (dot_radix_range _ _ Hb) as Hr. rewrite <- Hst in Hr.
  split; [|exact Hr].
  rewrite Tensor_offset_wrap by (rewrite Hst, radix_length; lia).
  rewrite take_ge by (rewrite Hst, radix_length; lia).
  f_equal. apply wrap_small. unfold exact in Hx. int_lia.
Qed.

(** The bounds checks of [testIndex] and [testKey]. *)
Lemma Tensor_testIndex_in_bounds ts idx :
  in_bounds (shape ts) idx -> Tensor_testIndex ts idx = Ok ().
Proof.
  intros Hb. pose proof (in_bounds_length _ _ Hb) as Hl.
  unfold Tensor_testIndex. rewrite Hl, Nat.eqb_refl. cbn.
  destruct (for_up_inv (fun _ (_ : ()) => True)
    (fun i (_ : ()) => x ← load idx i; d ← load (shape ts) i;
       if (x <? 0) || (x >=? d) then Panic ErrIndexOutOfRange else Ok ())
    (length (shape ts)) 0 ()) as ([] & E & _); [exact I | | exact E].
  intros j [] Hj _.
  destruct (lookup_lt_is_Some_2 idx j ltac:(lia)) as [x Hx].
  destruct (lookup_lt_is_Some_2 (shape ts) j ltac:(lia)) as [d Hd].
  rewrite (load_Some _ _ _ Hx). cbn. rewrite (load_Some _ _ _ Hd). cbn.
  pose proof (Forall2_lookup_lr _ _ _ _ _ _ Hb Hx Hd) as Hxd. cbn in Hxd.
  destruct (Z.ltb_spec x 0), (Z.geb_spec x d); try lia.
  exists (). auto.
Qed.

Lemma Tensor_testKey_valid ts key :
  Forall (fun d => 0 < d) (shape ts) ->
  valid_key (shape ts) key -> Tensor_testKey ts key = Ok ().
Proof.
  intros Hp Hb. pose proof (Forall2_length _ _ _ Hb) as Hl.
  unfold Tensor_testKey. rewrite Hl, Nat.eqb_refl. cbn.
  destruct (for_up_inv (fun _ (_ : ()) => True)
    (fun i (_ : ()) => x ← load key i; d ← load (shape ts) i;
       if (x <? -1) || (x >=? d) then Panic ErrIndexOutOfRange else Ok ())
    (length (shape ts)) 0 ()) as ([] & E & _); [exact I | | exact E].
  intros j [] Hj _.
  destruct (lookup_lt_is_Some_2 key j ltac:(lia)) as [x Hx].
  destruct (lookup_lt_is_Some_2 (shape ts) j ltac:(lia)) as [d Hd].
  rewrite (load_Some _ _ _ Hx). cbn. rewrite (load_Some _ _ _ Hd). cbn.
  pose proof (Forall2_lookup_lr _ _ _ _ _ _ Hb Hx Hd) as Hxd. cbn in Hxd.
  pose proof (Forall_lookup_1 _ _ _ _ Hp Hd) as Hdp. cbn in Hdp.
  destruct (Z.ltb_spec x (-1)), (Z.geb_spec x d); try lia.
  exists (). auto.
Qed.

(** ** Sub-tensors *)

Lemma Tensor_GetSub_unfold h ts indexKey :
  Tensor_GetSub h ts indexKey =
  (_ ← Tensor_testKey ts indexKey;
   shape ← for_up (length indexKey) 0 (sub_shape_body ts indexKey) [];
   '(tensor, h) ← NewTensor h Nil (typ ts) shape;
   '(h, _) ← for_up (Z.to_nat (Shape_Len shape)) 0
               (GetSub_body ts tensor indexKey)
               (h, replicate (length indexKey) 0);
   Ok (tensor, h)).
Proof. reflexivity. Qed.

Lemma sub_shape_length key sh :
  length key = length sh -> length (sub_shape key sh) = length sh.
Proof. intros H. unfold sub_shape. rewrite length_zip_with. lia. Qed.

Lemma sub_shape_lookup key sh i k d :
  key !! i = Some k -> sh !! i = Some d ->
  sub_shape key sh !! i = Some (if k =? -1 then d else 1).
Proof.
  intros Hk Hd. unfold sub_shape. apply lookup_zip_with_Some. eauto.
Qed.

Lemma merge_lookup key idx i k x :
  key !! i = Some k -> idx !! i = Some x ->
  merge key idx !! i = Some (if k =? -1 then x else k).
Proof.
  intros Hk Hd. unfold merge. apply lookup_zip_with_Some. eauto.
Qed.

Lemma merge_length key idx :
  length key = length idx -> length (merge key idx) = length idx.
Proof. intros H. unfold merge. rewrite length_zip_with. lia. Qed.

Lemma sub_shape_positive key sh :
  Forall (fun d => 0 < d) sh -> Forall (fun d => 0 < d) (sub_shape key sh).
Proof.
  intros Hp. revert key. induction Hp as [|d sh Hd _ IH]; intros [|k key]; cbn;
    try constructor; [destruct (k =? -1); lia | apply IH].
Qed.

Lemma sub_shape_product key sh :
  Forall (fun d => 0 < d) sh -> length key = length sh ->
  product (sub_shape key sh) <= product sh.
Proof.
  intros Hp. revert key. induction Hp as [|d sh Hd Hp IH]; intros [|k key] Hl;
    cbn in Hl; try lia; cbn [sub_shape zip_with].
  - unfold product; cbn; lia.
  - change (product (?a :: ?l)) with (a * product l).
    specialize (IH key ltac:(lia)). fold (sub_shape key sh) in *.
    pose proof (product_pos _ (sub_shape_positive key sh Hp)).
    pose proof (product_pos _ Hp).
    destruct (k =? -1); nia.
Qed.

Lemma merge_in_bounds sh key idx :
  valid_key sh key -> in_bounds (sub_shape key sh) idx ->
  in_bounds sh (merge key idx).
Proof.
  unfold valid_key, in_bounds. intros Hk. revert idx.
  induction Hk as [|k d key sh Hkd _ IH]; intros idx Hb; cbn in *.
  - constructor.
  - inversion Hb as [|x d' idx' sh' Hx Hb']; subst. cbn.
    constructor; [|apply IH, Hb'].
    destruct (Z.eqb_spec k (-1)); lia.
Qed.

Lemma copy_same_length (dst src : list Z) :
  length dst = length src -> copy dst src = src.
Proof.
  intros H. unfold copy. rewrite take_ge by lia. rewrite drop_ge by lia.
  apply app_nil_r.
Qed.

Lemma sub_shape_loop ts key :
  length key = length (shape ts) ->
  for_up (length key) 0 (sub_shape_body ts key) []
    = Ok (sub_shape key (shape ts)).
Proof.
  intros Hl.
  destruct (for_up_inv
    (fun i (acc : Shape) => acc = take i (sub_shape key (shape ts)))
    (sub_shape_body ts key) (length key) 0 []) as (acc & E & Hacc).
  - reflexivity.
  - intros j acc Hj ->.
    destruct (lookup_lt_is_Some_2 key j ltac:(lia)) as [k Hk].
    destruct (lookup_lt_is_Some_2 (shape ts) j ltac:(lia)) as [d Hd].
    pose proof (sub_shape_lookup _ _ _ _ _ Hk Hd) as Hs.
    rewrite (take_S_r _ _ _ Hs).
    unfold sub_shape_body. rewrite (load_Some _ _ _ Hk). cbn.
    destruct (k =? -1); [rewrite (load_Some _ _ _ Hd); cbn|]; eauto.
  - rewrite E, Hacc. f_equal. apply take_ge. rewrite sub_shape_length; lia.
Qed.

Lemma merge_loop key dst :
  length key = length dst ->
  for_up (length key) 0 (merge_body key) dst = Ok (merge key dst).
Proof.
  intros Hl.
  destruct (for_up_inv
    (fun i (cur : list Z) => cur = take i (merge key dst) ++ drop i dst)
    (merge_body key) (length key) 0 dst) as (cur & E & Hcur).
  - reflexivity.
  - intros j cur Hj ->.
    destruct (lookup_lt_is_Some_2 key j ltac:(lia)) as [k Hk].
    destruct (lookup_lt_is_Some_2 dst j ltac:(lia)) as [x Hx].
    pose proof (merge_lookup _ _ _ _ _ Hk Hx) as Hm.
    assert (Hlt : length (take j (merge key dst)) = j).
    { rewrite length_take, merge_length; lia. }
    rewrite (take_S_r _ _ _ Hm), (drop_S _ _ _ Hx), <- app_assoc. cbn [app].
    unfold merge_body. rewrite (load_Some _ _ _ Hk). cbn.
    destruct (Z.eqb_spec k (-1)) as [->|Hne]; cbn.
    + eauto.
    + rewrite assign_lt by (rewrite length_app; cbn; lia).
      eexists; split; [reflexivity|].
      rewrite insert_app_r_alt by lia. rewrite Hlt, Nat.sub_diag. reflexivity.
  - rewrite E, Hcur. f_equal. cbn.
    rewrite take_ge by (rewrite merge_length; lia).
    rewrite drop_ge by lia. apply app_nil_r.
Qed.

Lemma buffer_ref h ts l : data ts = SliceRef l -> buffer h ts = h !! l.
Proof. unfold buffer. intros ->. reflexivity. Qed.

Lemma digits_dot sh idx :
  in_bounds sh idx -> digits sh (dot (radix 1 sh) idx) = idx.
Proof.
  unfold in_bounds. induction 1 as [|x d idx sh Hx Hb IH]; cbn [radix digits].
  - reflexivity.
  - rewrite dot_cons, dot_radix_scale.
    replace (1 * x + 1 * d * dot (radix 1 sh) idx)
      with (x + dot (radix 1 sh) idx * d) by ring.
    rewrite Z_mod_plus_full, Z.mod_small by lia.
    rewrite Z.div_add by lia. rewrite Z.div_small by lia.
    rewrite Z.add_0_l, IH. reflexivity.
Qed.

(** Reading a cell of a tensor with exact strides at an in-bounds index. *)
Lemma Tensor_get_exact h ts k v idx :
  kind_of (typ ts) = Some k ->
  buffer h ts = Some {| elem := k; cells := v |} ->
  Z.of_nat (length v) = product (shape ts) ->
  Forall (fun d => 0 < d) (shape ts) -> exact (shape ts) ->
  strides ts = radix 1 (shape ts) ->
  in_bounds (shape ts) idx ->
  exists x, v !! Z.to_nat (dot (strides ts) idx) = Some x
    /\ Tensor_get h ts idx = Ok (box k x)
    /\ Tensor_Get h ts idx = Ok (box k x).
Proof.
  intros Hk Hb Hl Hp Hx Hst Hin.
  destruct (Tensor_offset_exact ts idx Hp Hx Hst Hin) as [Eo Hr].
  destruct (load_Z_in_range v (dot (strides ts) idx) ltac:(lia)) as (x & Hvx & Elx).
  assert (Eg : Tensor_get h ts idx = Ok (box k x)).
  { unfold Tensor_get. rewrite Eo. cbn.
    rewrite (Tensor_at_buffer _ _ _ _ _ Hk Hb), Elx. reflexivity. }
  exists x. split; [exact Hvx|]. split; [exact Eg|].
  unfold Tensor_Get. rewrite (Tensor_testIndex_in_bounds _ _ Hin). exact Eg.
Qed.

Lemma GetSub_loop (h1 : heap) (ts t' : Tensor) (key : list Z) (k : kind)
    (v buf0 : list Z) (ls ld : nat) :
  kind_of (typ ts) = Some k -> data ts = SliceRef ls ->
  Forall (fun d => 0 < d) (shape ts) -> exact (shape ts) ->
  strides ts = radix 1 (shape ts) ->
  Z.of_nat (length v) = product (shape ts) ->
  valid_key (shape ts) key ->
  kind_of (typ t') = Some k -> data t' = SliceRef ld ->
  shape t' = sub_shape key (shape ts) ->
  strides t' = radix 1 (shape t') ->
  ls <> ld ->
  h1 !! ls = Some {| elem := k; cells := v |} ->
  h1 !! ld = Some {| elem := k; cells := buf0 |} ->
  length buf0 = Z.to_nat (product (shape t')) ->
  exists h2 src buf,
    for_up (Z.to_nat (product (shape t'))) 0 (GetSub_body ts t' key)
      (h1, replicate (length key) 0) = Ok (h2, src)
    /\ length h2 = length h1
    /\ (forall l', l' <> ld -> h2 !! l' = h1 !! l')
    /\ h2 !! ld = Some {| elem := k; cells := buf |}
    /\ length buf = Z.to_nat (product (shape t'))
    /\ forall o', (o' < Z.to_nat (product (shape t')))%nat ->
         exists x,
           v !! Z.to_nat (dot (strides ts)
                            (merge key (digits (shape t') (Z.of_nat o'))))
             = Some x
           /\ buf !! o' = Some x.
Proof.
  intros Hk Hds Hp Hx Hst Hlv Hkey Hk' Hdd Hsh' Hst' Hne Hls Hld Hlb.
  pose proof (Forall2_length _ _ _ Hkey) as Hlk.
  assert (Hp' : Forall (fun d => 0 < d) (shape t'))
    by (rewrite Hsh'; apply sub_shape_positive, Hp).
  assert (Hx' : exact (shape t')).
  { unfold exact in *. rewrite Hsh'.
    pose proof (sub_shape_product key (shape ts) Hp Hlk). lia. }
  assert (Hls' : length (shape t') = length (shape ts))
    by (rewrite Hsh'; apply sub_shape_length, Hlk).
  set (N := Z.to_nat (product (shape t'))) in *.
  destruct (for_up_inv
    (fun o (s : heap * list Z) =>
       length (snd s) = length (shape ts)
       /\ length (fst s) = length h1
       /\ (forall l', l' <> ld -> fst s !! l' = h1 !! l')
       /\ exists buf, fst s !! ld = Some {| elem := k; cells := buf |}
            /\ length buf = N
            /\ forall o', (o' < o)%nat ->
                 exists x,
                   v !! Z.to_nat (dot (strides ts)
                          (merge key (digits (shape t') (Z.of_nat o'))))
                     = Some x
                   /\ buf !! o' = Some x)
    (GetSub_body ts t' key) N 0 (h1, replicate (length key) 0))
    as ([h2 src] & E & _ & Hl2 & Hfr & buf & Hbuf & Hlbuf & Hcells).
  - cbn. rewrite length_replicate. split; [lia|]. split; [reflexivity|].
    split; [reflexivity|]. exists buf0. split; [exact Hld|].
    split; [exact Hlb|]. intros o' Ho'. lia.
  - intros o [hc src] Ho (Hlsrc & Hlhc & Hfr & buf & Hbuf & Hlbuf & Hcells).
    cbn [fst snd] in *.
    (* the destination index *)
    destruct (digits_spec (shape t') (Z.of_nat o) Hp' ltac:(lia)) as [Hin Hdot].
    set (dst := digits (shape t') (Z.of_nat o)) in *.
    pose proof (in_bounds_length _ _ Hin) as Hldst.
    assert (Ei : Tensor_index t' (Z.of_nat o) = Ok dst).
    { rewrite <- Hdot, <- Hst'. apply Tensor_index_exact; assumption. }
    (* the source index *)
    assert (Hins : in_bounds (shape ts) (merge key dst)).
    { apply merge_in_bounds; [exact Hkey | rewrite <- Hsh'; exact Hin]. }
    assert (Hbs : buffer hc ts = Some {| elem := k; cells := v |}).
    { rewrite (buffer_ref _ _ _ Hds), (Hfr ls Hne). exact Hls. }
    destruct (Tensor_get_exact hc ts k v (merge key dst) Hk Hbs Hlv Hp Hx Hst Hins)
      as (x & Hvx & Eg & _).
    (* the write *)
    assert (Hbd : buffer hc t' = Some {| elem := k; cells := buf |}).
    { rewrite (buffer_ref _ _ _ Hdd). exact Hbuf. }
    destruct (Tensor_offset_exact t' dst Hp' Hx' Hst' Hin) as [Eo _].
    rewrite Hst', Hdot in Eo.
    destruct (Tensor_setAt_buffer hc t' k buf (Z.of_nat o) x Hk' Hbd)
      as (ld' & Hdd' & Es).
    assert (ld' = ld) as -> by congruence.
    assert (Ea : assign_Z buf (Z.of_nat o) x = Ok (<[o:=x]> buf)).
    { unfold assign_Z. destruct (Z.ltb_spec (Z.of_nat o) 0); [lia|].
      rewrite Nat2Z.id. apply assign_lt. lia. }
    unfold GetSub_body. rewrite Ei. cbn.
    rewrite copy_same_length by lia.
    rewrite merge_loop by lia. cbn.
    rewrite Eg. cbn.
    unfold Tensor_set. rewrite Eo. cbn. rewrite Es, Ea. cbn.
    eexists; split; [reflexivity|]. cbn [fst snd].
    split; [rewrite merge_length; lia|].
    split; [by rewrite length_insert|].
    split.
    { intros l' Hl'. rewrite list_lookup_insert_ne by congruence. apply Hfr, Hl'. }
    exists (<[o:=x]> buf). split.
    { apply list_lookup_insert_eq. apply lookup_lt_Some in Hbuf. exact Hbuf. }
    split; [by rewrite length_insert|].
    intros o' Ho'. destruct (decide (o' = o)) as [->|Hneo].
    + exists x. split; [exact Hvx|]. apply list_lookup_insert_eq. lia.
    + destruct (Hcells o' ltac:(lia)) as (x' & Hx1 & Hx2).
      exists x'. split; [exact Hx1|]. rewrite list_lookup_insert_ne by congruence.
      exact Hx2.
  - cbn [fst snd] in *. exists h2, src, buf. split; [exact E|].
    split; [exact Hl2|]. split; [exact Hfr|]. split; [exact Hbuf|].
    split; [exact Hlbuf|]. intros o' Ho'. apply Hcells. lia.
Qed.



(** ** The scenario of the package's test *)

Example test_NewTensor :
  NewTensor heap_4x4 (SliceRef 0%nat) Float64 [4; 4] = Ok (tensor_4x4, heap_4x4).
Proof. reflexivity. Qed.

Example test_GetF64At :
  Tensor_GetF64At heap_4x4 tensor_4x4 [1; 2] = Ok 9.
Proof. reflexivity. Qed.

Example test_Reshape_GetF64At :
  (t ← Tensor_Reshape heap_4x4 tensor_4x4 [2; 2; 2; 2];
   Tensor_GetF64At heap_4x4 t [1; 0; 0; 1]) = Ok 9.
Proof. reflexivity. Qed.

Example test_GetSub :
  (t ← Tensor_Reshape heap_4x4 tensor_4x4 [2; 8];
   '(sub, h) ← Tensor_GetSub heap_4x4 t [1; -1];
   '(_, v) ← as_slice h (data sub) KF64;
   Ok (shape sub, v))
  = Ok ([1; 8], [1; 3; 5; 7; 9; 11; 13; 15]).
Proof. vm_compute. reflexivity. Qed.

Example test_Equal :
  Tensor_Equal heap_4x4 tensor_4x4 tensor_4x4 = Ok true.
Proof. reflexivity. Qed.

(** ** The codec, field by field *)

Lemma land_disjoint a b n :
  0 <= n -> 0 <= b < 2^n -> a mod 2^n = 0 -> Z.land a b = 0.
Proof.
  intros Hn Hb Ha. apply Z.bits_inj'. intros i Hi.
  rewrite Z.land_spec, Z.bits_0.
  destruct (Z.lt_ge_cases i n) as [Hlt|Hge].
  - assert (E : Z.testbit a i = Z.testbit (a mod 2^n) i)
      by (rewrite Z.mod_pow2_bits_low by lia; reflexivity).
    rewrite E, Ha, Z.bits_0. reflexivity.
  - destruct (Z.eq_dec b 0) as [->|Hb0]; [rewrite Z.bits_0; apply andb_false_r|].
    rewrite (Z.bits_above_log2 b i); [apply andb_false_r | lia |].
    apply Z.log2_lt_pow2; [lia|]. 
    apply Z.lt_le_trans with (2^n); [lia|]. apply Z.pow_le_mono_r; lia.
Qed.

Lemma lor_disjoint a b n :
  0 <= n -> 0 <= b < 2^n -> a mod 2^n = 0 -> Z.lor a b = a + b.
Proof.
  intros Hn Hb Ha. pose proof (land_disjoint a b n Hn Hb Ha) as E.
  rewrite <- (Z.lxor_lor _ _ E). symmetry. apply Z.add_nocarry_lxor, E.
Qed.

Lemma land_mask x n : 0 <= n -> Z.land x (2^n - 1) = x mod 2^n.
Proof. intros Hn. rewrite <- Z.land_ones by lia. rewrite Z.ones_equiv. reflexivity. Qed.

(** Evaluate the powers of two with a literal exponent. *)
Ltac pow2 :=
  repeat match goal with
  | |- context [2 ^ (Zpos ?k)] =>
      let v := eval vm_compute in (2 ^ (Zpos k)) in
      progress change (2 ^ (Zpos k)) with v
  | H : context [2 ^ (Zpos ?k)] |- _ =>
      let v := eval vm_compute in (2 ^ (Zpos k)) in
      progress change (2 ^ (Zpos k)) with v in H
  end.

Lemma half_fields s e f :
  0 <= s <= 1 -> 0 <= e < 32 -> 0 <= f < 1024 ->
  let h := s * 32768 + e * 1024 + f in
  u32 (Z.land (Z.shiftr h 15) 0x1) = s
  /\ u32 (Z.land (Z.shiftr h 10) 0x1f) = e
  /\ u32 (Z.land h 0x3ff) = f
  /\ u64 (Z.land (Z.shiftr h 15) 0x1) = s
  /\ u64 (Z.land (Z.shiftr h 10) 0x1f) = e
  /\ u64 (Z.land h 0x3ff) = f.
Proof.
  intros Hs He Hf h. unfold u32, u64.
  change 0x1 with (2^1 - 1). change 0x1f with (2^5 - 1). change 0x3ff with (2^10 - 1).
  rewrite !land_mask, !Z.shiftr_div_pow2 by lia. pow2. subst h.
  repeat split; Z.div_mod_to_equations; lia.
Qed.

Lemma ToF32_normal s e f :
  0 <= s <= 1 -> 1 <= e <= 30 -> 0 <= f < 1024 ->
  float16.ToF32 (s * 32768 + e * 1024 + f)
  = s * 2^31 + (e + 112) * 2^23 + f * 2^13.
Proof.
  intros Hs He Hf.
  destruct (half_fields s e f Hs ltac:(lia) Hf) as (E1 & E2 & E3 & _).
  unfold float16.ToF32. cbv zeta. rewrite E1, E2, E3.
  destruct (Z.eqb_spec e 0x1f); [lia|].
  destruct (Z.eqb_spec e 0); [lia|]. rewrite andb_false_r.
  unfold u32. rewrite !Z.shiftl_mul_pow2 by lia. pow2.
  rewrite (Z.mod_small (e + (127 - 15))) by lia.
  rewrite (Z.mod_small (s * _)) by lia.
  rewrite (Z.mod_small ((e + _) * _)) by lia.
  rewrite (Z.mod_small (f * _)) by lia.
  rewrite (lor_disjoint (s * 2147483648) _ 31) by (pow2; Z.div_mod_to_equations; lia).
  rewrite (lor_disjoint _ (f * 8192) 23) by (pow2; Z.div_mod_to_equations; lia).
  rewrite Z.mod_small by lia. lia.
Qed.

Lemma ToF64_normal s e f :
  0 <= s <= 1 -> 1 <= e <= 30 -> 0 <= f < 1024 ->
  float16.ToF64 (s * 32768 + e * 1024 + f)
  = s * 2^63 + (e + 1008) * 2^52 + f * 2^42.
Proof.
  intros Hs He Hf.
  destruct (half_fields s e f Hs ltac:(lia) Hf) as (_ & _ & _ & E1 & E2 & E3).
  unfold float16.ToF64. cbv zeta. rewrite E1, E2, E3.
  destruct (Z.eqb_spec e 0x1f); [lia|].
  destruct (Z.eqb_spec e 0); [lia|]. rewrite andb_false_r.
  unfold u64. rewrite !Z.shiftl_mul_pow2 by lia. pow2.
  rewrite (Z.mod_small (e + (1023 - 15))) by lia.
  rewrite (Z.mod_small (s * _)) by lia.
  rewrite (Z.mod_small ((e + _) * _)) by lia.
  rewrite (Z.mod_small (f * _)) by lia.
  rewrite (lor_disjoint (s * 9223372036854775808) _ 63)
    by (pow2; Z.div_mod_to_equations; lia).
  rewrite (lor_disjoint _ (f * 4398046511104) 52)
    by (pow2; Z.div_mod_to_equations; lia).
  rewrite Z.mod_small by lia. lia.
Qed.

Lemma ToF32_special s f :
  0 <= s <= 1 -> 0 <= f < 1024 ->
  float16.ToF32 (s * 32768 + 31 * 1024 + f)
  = if f =? 0 then s * 2^31 + 255 * 2^23 else 255 * 2^23 + f * 2^13 + 1.
Proof.
  intros Hs Hf.
  destruct (half_fields s 31 f Hs ltac:(lia) Hf) as (E1 & E2 & E3 & _).
  unfold float16.ToF32. cbv zeta. rewrite E1, E2, E3.
  change (31 =? 0x1f) with true. cbv iota.
  unfold u32. rewrite !Z.shiftl_mul_pow2 by lia. pow2.
  destruct (Z.eqb_spec f 0) as [->|Hf0]; cbn [negb].
  - rewrite (lor_disjoint (s * 2147483648) _ 31)
      by (pow2; Z.div_mod_to_equations; lia).
    rewrite Z.mod_small by lia. reflexivity.
  - rewrite (lor_disjoint _ (f * 8192) 23)
      by (pow2; Z.div_mod_to_equations; lia).
    rewrite (lor_disjoint _ 1 1) by (pow2; Z.div_mod_to_equations; lia).
    rewrite Z.mod_small by lia. reflexivity.
Qed.

Lemma ToF64_special s f :
  0 <= s <= 1 -> 0 <= f < 1024 ->
  float16.ToF64 (s * 32768 + 31 * 1024 + f)
  = if f =? 0 then s * 2^63 + 2047 * 2^52 else 2047 * 2^52 + f * 2^42 + 1.
Proof.
  intros Hs Hf.
  destruct (half_fields s 31 f Hs ltac:(lia) Hf) as (_ & _ & _ & E1 & E2 & E3).
  unfold float16.ToF64. cbv zeta. rewrite E1, E2, E3.
  change (31 =? 0x1f) with true. cbv iota.
  unfold u64. rewrite !Z.shiftl_mul_pow2 by lia. pow2.
  destruct (Z.eqb_spec f 0) as [->|Hf0]; cbn [negb].
  - rewrite (lor_disjoint (s * 9223372036854775808) _ 63)
      by (pow2; Z.div_mod_to_equations; lia).
    rewrite Z.mod_small by lia. reflexivity.
  - rewrite (lor_disjoint _ (f * 4398046511104) 52)
      by (pow2; Z.div_mod_to_equations; lia).
    rewrite (lor_disjoint _ 1 1) by (pow2; Z.div_mod_to_equations; lia).
    rewrite Z.mod_small by lia. reflexivity.
Qed.

Lemma single_fields s e f :
  0 <= s <= 1 -> 0 <= e < 256 -> 0 <= f < 2^23 ->
  let x := s * 2^31 + e * 2^23 + f in
  Z.shiftr x 31 = s
  /\ Z.land (Z.shiftr x 23) 0xff = e
  /\ Z.land x 0x7fffff = f.
Proof.
  intros Hs He Hf x.
  change 0xff with (2^8 - 1). change 0x7fffff with (2^23 - 1).
  rewrite !land_mask, !Z.shiftr_div_pow2 by lia. subst x. pow2.
  repeat split; Z.div_mod_to_equations; lia.
Qed.

Lemma double_fields s e f :
  0 <= s <= 1 -> 0 <= e < 2048 -> 0 <= f < 2^52 ->
  let x := s * 2^63 + e * 2^52 + f in
  Z.shiftr x 63 = s
  /\ Z.land (Z.shiftr x 52) 0x7ff = e
  /\ Z.land x 0xfffffffffffff = f.
Proof.
  intros Hs He Hf x.
  change 0x7ff with (2^11 - 1). change 0xfffffffffffff with (2^52 - 1).
  rewrite !land_mask, !Z.shiftr_div_pow2 by lia. subst x. pow2.
  repeat split; Z.div_mod_to_equations; lia.
Qed.

Lemma sign16 s : 0 <= s <= 1 ->
  u16 (u32 (Z.shiftl s 15)) = s * 32768 /\ u16 (u64 (Z.shiftl s 15)) = s * 32768.
Proof.
  intros Hs. unfold u16, u32, u64. rewrite Z.shiftl_mul_pow2 by lia. pow2.
  rewrite !(Z.mod_small (s * 32768)) by lia. auto.
Qed.

(** [FF32], case by case on the fields of the argument. *)
Lemma FF32_cases s e f :
  0 <= s <= 1 -> 0 <= e < 256 -> 0 <= f < 2^23 ->
  float16.FF32 (s * 2^31 + e * 2^23 + f) =
    if e =? 255 then (if f =? 0 then s * 32768 + 0x7C00 else 0x7FFF)
    else if e =? 0 then s * 32768 + f / 2^13
    else if 143 <=? e then s * 32768 + 0x7C00
    else if e <=? 112 then s * 32768 + f / 2^(126 - e)
    else s * 32768 + (e - 112) * 1024 + f / 2^13.
Proof.
  intros Hs He Hf.
  destruct (single_fields s e f Hs He Hf) as (E1 & E2 & E3).
  destruct (sign16 s Hs) as [Es _].
  unfold float16.FF32. cbv zeta. rewrite E1, E2, E3, Es.
  change (0xff) with 255.
  assert (Hq : 0 <= f / 2^13 < 1024) by (pow2; Z.div_mod_to_equations; lia).
  destruct (Z.eqb_spec e 255) as [->|He255].
  { destruct (Z.eqb_spec f 0); cbn [negb]; [|reflexivity].
    apply (lor_disjoint _ _ 15); [lia | unfold float16.InfPos; pow2; lia |].
    pow2. Z.div_mod_to_equations; lia. }
  destruct (Z.eqb_spec e 0) as [->|He0].
  { rewrite Z.shiftr_div_pow2 by lia. unfold u16.
    rewrite Z.mod_small by (pow2; lia).
    apply (lor_disjoint _ _ 15); [lia | pow2; lia |].
    pow2. Z.div_mod_to_equations; lia. }
  rewrite (i32_small e) by lia. rewrite (i32_small (e - 127)) by lia.
  rewrite (i32_small (e - 127 + 15)) by lia.
  destruct (Z.geb_spec (e - 127 + 15) 0x1f), (Z.leb_spec 143 e); try lia.
  { apply (lor_disjoint _ _ 15); [lia | unfold float16.InfPos; pow2; lia |].
    pow2. Z.div_mod_to_equations; lia. }
  destruct (Z.leb_spec (e - 127 + 15) 0), (Z.leb_spec e 112); try lia.
  - rewrite (i32_small (- _)) by lia. rewrite (i32_small (- _ + 1)) by lia.
    rewrite !Z.shiftr_div_pow2 by lia.
    rewrite Z.div_div by (try apply Z.pow_pos_nonneg; lia).
    rewrite <- Z.pow_add_r by lia.
    replace (- (e - 127 + 15) + 1 + 13) with (126 - e) by lia.
    assert (Hq' : 0 <= f / 2^(126 - e) < 1024).
    { assert (2^14 <= 2^(126 - e)) by (apply Z.pow_le_mono_r; lia).
      assert (0 < 2^(126 - e)) by (apply Z.pow_pos_nonneg; lia).
      split; [apply Z.div_pos; lia|].
      apply Z.div_lt_upper_bound; [lia|]. pow2. nia. }
    unfold u16. rewrite Z.mod_small by (pow2; lia).
    apply (lor_disjoint _ _ 15); [lia | pow2; lia |].
    pow2. Z.div_mod_to_equations; lia.
  - unfold u16, u32. rewrite Z.shiftl_mul_pow2, Z.shiftr_div_pow2 by lia.
    pow2. rewrite (Z.mod_small (e - 127 + 15)) by lia.
    rewrite (Z.mod_small (_ * 1024)) by lia.
    rewrite (Z.mod_small (_ * 1024)) by lia.
    rewrite (Z.mod_small (f / _)) by lia.
    rewrite (lor_disjoint (s * 32768) _ 15)
      by (pow2; Z.div_mod_to_equations; lia).
    rewrite (lor_disjoint _ (f / 8192) 10)
      by (pow2; Z.div_mod_to_equations; lia).
    lia.
Qed.

(** [FF64] outside the underflow branch, case by case on the fields. *)
Lemma FF64_cases s e f :
  0 <= s <= 1 -> 0 <= e < 2048 -> 0 <= f < 2^52 -> (e = 0 \/ 1009 <= e) ->
  float16.FF64 (s * 2^63 + e * 2^52 + f) =
    if e =? 2047 then (if f =? 0 then s * 32768 + 0x7C00 else 0x7FFF)
    else if e =? 0 then s * 32768 + f / 2^42
    else if 1039 <=? e then s * 32768 + 0x7C00
    else s * 32768 + (e - 1008) * 1024 + f / 2^42.
Proof.
  intros Hs He Hf Hr.
  destruct (double_fields s e f Hs He Hf) as (E1 & E2 & E3).
  destruct (sign16 s Hs) as [_ Es].
  unfold float16.FF64. cbv zeta. rewrite E1, E2, E3, Es.
  change (0x7ff) with 2047.
  assert (Hq : 0 <= f / 2^42 < 1024) by (pow2; Z.div_mod_to_equations; lia).
  destruct (Z.eqb_spec e 2047) as [->|He255].
  { destruct (Z.eqb_spec f 0); cbn [negb]; [|reflexivity].
    apply (lor_disjoint _ _ 15); [lia | unfold float16.InfPos; pow2; lia |].
    pow2. Z.div_mod_to_equations; lia. }
  destruct (Z.eqb_spec e 0) as [->|He0].
  { rewrite Z.shiftr_div_pow2 by lia. unfold u16.
    rewrite Z.mod_small by (pow2; lia).
    apply (lor_disjoint _ _ 15); [lia | pow2; lia |].
    pow2. Z.div_mod_to_equations; lia. }
  rewrite (i32_small e) by lia. rewrite (i32_small (e - 1023)) by lia.
  rewrite (i32_small (e - 1023 + 15)) by lia.
  destruct (Z.geb_spec (e - 1023 + 15) 0x1f), (Z.leb_spec 1039 e); try lia.
  { apply (lor_disjoint _ _ 15); [lia | unfold float16.InfPos; pow2; lia |].
    pow2. Z.div_mod_to_equations; lia. }
  destruct (Z.leb_spec (e - 1023 + 15) 0); [lia|].
  unfold u16, u64. rewrite Z.shiftl_mul_pow2, Z.shiftr_div_pow2 by lia.
  pow2. rewrite (Z.mod_small (e - 1023 + 15)) by lia.
  rewrite (Z.mod_small (_ * 1024)) by lia.
  rewrite (Z.mod_small (_ * 1024)) by lia.
  rewrite (Z.mod_small (f / _)) by lia.
  rewrite (lor_disjoint (s * 32768) _ 15)
    by (pow2; Z.div_mod_to_equations; lia).
  rewrite (lor_disjoint _ (f / 4398046511104) 10)
    by (pow2; Z.div_mod_to_equations; lia).
  lia.
Qed.

Lemma half_decompose h :
  0 <= h < 2^16 ->
  exists s e f, 0 <= s <= 1 /\ 0 <= e < 32 /\ 0 <= f < 1024
    /\ h = s * 32768 + e * 1024 + f
    /\ ieee.exp_field binary16 h = e /\ ieee.frac_field binary16 h = f.
Proof.
  intros Hh. exists (h / 32768), (h / 1024 mod 32), (h mod 1024).
  unfold ieee.exp_field, ieee.frac_field. cbn [ieee.mw ieee.ew binary16].
  rewrite !land_mask, Z.shiftr_div_pow2 by lia. pow2.
  repeat split; Z.div_mod_to_equations; lia.
Qed.

Lemma single_decompose x :
  0 <= x < 2^32 ->
  exists s e f, 0 <= s <= 1 /\ 0 <= e < 256 /\ 0 <= f < 2^23
    /\ x = s * 2^31 + e * 2^23 + f
    /\ ieee.exp_field ieee.binary32 x = e
    /\ ieee.frac_field ieee.binary32 x = f
    /\ Z.shiftr x 31 = s.
Proof.
  intros Hh. exists (x / 2^31), (x / 2^23 mod 2^8), (x mod 2^23).
  unfold ieee.exp_field, ieee.frac_field. cbn [ieee.mw ieee.ew ieee.binary32].
  rewrite !land_mask, !Z.shiftr_div_pow2 by lia. pow2.
  repeat split; Z.div_mod_to_equations; lia.
Qed.

Lemma double_decompose x :
  0 <= x < 2^64 ->
  exists s e f, 0 <= s <= 1 /\ 0 <= e < 2048 /\ 0 <= f < 2^52
    /\ x = s * 2^63 + e * 2^52 + f
    /\ ieee.exp_field ieee.binary64 x = e
    /\ ieee.frac_field ieee.binary64 x = f
    /\ Z.shiftr x 63 = s.
Proof.
  intros Hh. exists (x / 2^63), (x / 2^52 mod 2^11), (x mod 2^52).
  unfold ieee.exp_field, ieee.frac_field. cbn [ieee.mw ieee.ew ieee.binary64].
  rewrite !land_mask, !Z.shiftr_div_pow2 by lia. pow2.
  repeat split; Z.div_mod_to_equations; lia.
Qed.

(** X: the round trip of a half through [float32] and through [float64].
    On a half that is the positive zero, a normal number or an infinity,
    [FF32(h.ToF32())] and [FF64(h.ToF64())] are [h] again.  On a NaN, both
    are the one pattern [NaN] (0x7FFF). *)
Theorem half_roundtrip (h : Z) :
  0 <= h < 2^16 ->
  (h = 0 \/ (ieee.exp_field binary16 h <> 0 /\ ieee.isNaN binary16 h = false) ->
     float16.FF32 (float16.ToF32 h) = h /\ float16.FF64 (float16.ToF64 h) = h)
  /\ (ieee.isNaN binary16 h = true ->
     float16.FF32 (float16.ToF32 h) = float16.NaN
     /\ float16.FF64 (float16.ToF64 h) = float16.NaN).
Proof.
  intros Hh.
  destruct (half_decompose h Hh) as (s & e & f & Hs & He & Hf & -> & Ee & Ef).
  unfold ieee.isNaN. rewrite Ee, Ef. cbn [ieee.ew binary16]. pow2.
  change (32 - 1) with 31.
  split.
  - intros [E0|[Hne Hnan]].
    { rewrite E0. split; reflexivity. }
    destruct (Z.eqb_spec e 31) as [->|He31].
    + destruct (Z.eqb_spec f 0) as [->|]; [|discriminate].
      rewrite ToF32_special, ToF64_special by lia. cbn [Z.eqb].
      rewrite <- (Z.add_0_r (s * 2^31 + _)), <- (Z.add_0_r (s * 2^63 + _)).
      rewrite (FF32_cases s 255 0), (FF64_cases s 2047 0) by (pow2; lia).
      cbn [Z.eqb Pos.eqb]. lia.
    + rewrite ToF32_normal, ToF64_normal by lia.
      rewrite (FF32_cases s (e + 112) (f * 2^13)),
        (FF64_cases s (e + 1008) (f * 2^42)) by (pow2; lia).
      destruct (Z.eqb_spec (e + 112) 255), (Z.eqb_spec (e + 112) 0),
        (Z.leb_spec 143 (e + 112)), (Z.leb_spec (e + 112) 112); try lia.
      destruct (Z.eqb_spec (e + 1008) 2047), (Z.eqb_spec (e + 1008) 0),
        (Z.leb_spec 1039 (e + 1008)); try lia.
      rewrite !Z.div_mul by (pow2; lia). lia.
  - destruct (Z.eqb_spec e 31) as [->|]; [|discriminate].
    destruct (Z.eqb_spec f 0) as [|Hf0]; [discriminate|]. intros _.
    rewrite ToF32_special, ToF64_special by lia.
    destruct (Z.eqb_spec f 0); [contradiction|].
    replace (255 * 2^23 + f * 2^13 + 1) with (0 * 2^31 + 255 * 2^23 + (f * 2^13 + 1))
      by lia.
    replace (2047 * 2^52 + f * 2^42 + 1) with (0 * 2^63 + 2047 * 2^52 + (f * 2^42 + 1))
      by lia.
    rewrite (FF32_cases 0 255), (FF64_cases 0 2047) by (pow2; lia).
    cbn [Z.eqb].
    destruct (Z.eqb_spec (f * 2^13 + 1) 0), (Z.eqb_spec (f * 2^42 + 1) 0);
      try (pow2; lia). split; reflexivity.
Qed.

Lemma half_roundtrip_witness :
  (0x3C00 = 0 \/ (ieee.exp_field binary16 0x3C00 <> 0
                  /\ ieee.isNaN binary16 0x3C00 = false) ->
     float16.FF32 (float16.ToF32 0x3C00) = 0x3C00
     /\ float16.FF64 (float16.ToF64 0x3C00) = 0x3C00)
  /\ (ieee.isNaN binary16 0x3C00 = true ->
     float16.FF32 (float16.ToF32 0x3C00) = float16.NaN
     /\ float16.FF64 (float16.ToF64 0x3C00) = float16.NaN).
Proof. apply (half_roundtrip 0x3C00). vm_compute. split; [discriminate | reflexivity]. Defined.

(** X: the encoders truncate.  On a [float32] whose exponent is in the range
    of the normal halves, decoding [FF32(x)] gives [x] with the low 13 bits
    of its mantissa cleared: the value is rounded toward zero, and a value
    whose low 13 bits are zero survives unchanged.  The same holds for
    [FF64] and the low 42 bits. *)
Theorem encoders_truncate :
  (forall x, 0 <= x < 2^32 ->
     113 <= ieee.exp_field ieee.binary32 x <= 142 ->
     float16.ToF32 (float16.FF32 x) = x - x mod 2^13)
  /\ (forall x, 0 <= x < 2^64 ->
     1009 <= ieee.exp_field ieee.binary64 x <= 1038 ->
     float16.ToF64 (float16.FF64 x) = x - x mod 2^42).
Proof.
  split; intros x Hx He.
  - destruct (single_decompose x Hx) as (s & e & f & Hs & _ & Hf & -> & Ee & _ & _).
    rewrite Ee in He. rewrite (FF32_cases s e f) by lia.
    destruct (Z.eqb_spec e 255), (Z.eqb_spec e 0), (Z.leb_spec 143 e),
      (Z.leb_spec e 112); try lia.
    rewrite ToF32_normal by (pow2; try lia; Z.div_mod_to_equations; lia).
    pow2. Z.div_mod_to_equations; lia.
  - destruct (double_decompose x Hx) as (s & e & f & Hs & _ & Hf & -> & Ee & _ & _).
    rewrite Ee in He. rewrite (FF64_cases s e f) by lia.
    destruct (Z.eqb_spec e 2047), (Z.eqb_spec e 0), (Z.leb_spec 1039 e); try lia.
    rewrite ToF64_normal by (pow2; try lia; Z.div_mod_to_equations; lia).
    pow2. Z.div_mod_to_equations; lia.
Qed.

Lemma encoders_truncate_witness :
  float16.ToF32 (float16.FF32 0x3F801234) = 0x3F801234 - 0x3F801234 mod 2^13
  /\ float16.ToF64 (float16.FF64 0x3FF0000000012345)
     = 0x3FF0000000012345 - 0x3FF0000000012345 mod 2^42.
Proof.
  split.
  - apply (proj1 encoders_truncate); vm_compute; split; discriminate || reflexivity.
  - apply (proj2 encoders_truncate); vm_compute; split; discriminate || reflexivity.
Defined.

(** X: [FF32] outside the range of the normal halves.  A NaN becomes the
    pattern [NaN]; an infinity and every number too large for a half
    (exponent field 143 or more) become the infinity of the same sign; a
    number too small for a normal half (exponent field 112 or less) becomes
    a pattern with exponent field 0 and the sign of the argument, whose
    mantissa is the source mantissa shifted right, without the implicit
    leading one: up to exponent field 103 the result is a signed zero. *)
Theorem FF32_outside_normal_range (x : Z) :
  0 <= x < 2^32 ->
  (ieee.isNaN ieee.binary32 x = true -> float16.FF32 x = float16.NaN)
  /\ (ieee.isNaN ieee.binary32 x = false ->
      143 <= ieee.exp_field ieee.binary32 x ->
      float16.FF32 x = Z.shiftr x 31 * 2^15 + float16.InfPos)
  /\ (ieee.exp_field ieee.binary32 x = 0 ->
      float16.FF32 x
      = Z.shiftr x 31 * 2^15 + ieee.frac_field ieee.binary32 x / 2^13)
  /\ (1 <= ieee.exp_field ieee.binary32 x <= 112 ->
      float16.FF32 x
      = Z.shiftr x 31 * 2^15
        + ieee.frac_field ieee.binary32 x
          / 2^(126 - ieee.exp_field ieee.binary32 x))
  /\ (1 <= ieee.exp_field ieee.binary32 x <= 103 ->
      float16.FF32 x = Z.shiftr x 31 * 2^15).
Proof.
  intros Hx.
  destruct (single_decompose x Hx) as (s & e & f & Hs & He & Hf & E & Ee & Ef & Es).
  unfold ieee.isNaN. rewrite Ee, Ef, Es. cbn [ieee.ew ieee.binary32].
  rewrite E, (FF32_cases s e f) by lia. clear E x Hx Ee Ef Es.
  change (2^8 - 1) with 255. change (2^15) with 32768.
  unfold float16.NaN, float16.InfPos.
  destruct (Z.eqb_spec e 255), (Z.eqb_spec e 0), (Z.leb_spec 143 e),
    (Z.leb_spec e 112), (Z.eqb_spec f 0); cbn [andb negb];
    repeat split; intros; try discriminate; try lia; try reflexivity.
  all: assert (H23 : 2^23 <= 2^(126 - e)) by (apply Z.pow_le_mono_r; lia).
  all: rewrite Z.div_small by (pow2; lia); lia.
Qed.

Lemma FF32_outside_normal_range_witness :
  (ieee.isNaN ieee.binary32 0x38000000 = true ->
     float16.FF32 0x38000000 = float16.NaN)
  /\ (ieee.isNaN ieee.binary32 0x38000000 = false ->
      143 <= ieee.exp_field ieee.binary32 0x38000000 ->
      float16.FF32 0x38000000
      = Z.shiftr 0x38000000 31 * 2^15 + float16.InfPos)
  /\ (ieee.exp_field ieee.binary32 0x38000000 = 0 ->
      float16.FF32 0x38000000
      = Z.shiftr 0x38000000 31 * 2^15
        + ieee.frac_field ieee.binary32 0x38000000 / 2^13)
  /\ (1 <= ieee.exp_field ieee.binary32 0x38000000 <= 112 ->
      float16.FF32 0x38000000
      = Z.shiftr 0x38000000 31 * 2^15
        + ieee.frac_field ieee.binary32 0x38000000
          / 2^(126 - ieee.exp_field ieee.binary32 0x38000000))
  /\ (1 <= ieee.exp_field ieee.binary32 0x38000000 <= 103 ->
      float16.FF32 0x38000000 = Z.shiftr 0x38000000 31 * 2^15).
Proof.
  apply (FF32_outside_normal_range 0x38000000). vm_compute.
  split; [discriminate | reflexivity].
Defined.

Lemma bit10 frac : 0 <= frac < 2048 ->
  (Z.land frac 0x400 =? 0) = (frac <? 1024).
Proof.
  intros Hf. change 0x400 with (2^10).
  assert (E : Z.land frac (2^10) = if Z.testbit frac 10 then 2^10 else 0).
  { apply Z.bits_inj'. intros i Hi. rewrite Z.land_spec, Z.pow2_bits_eqb by lia.
    destruct (Z.eqb_spec 10 i) as [<-|Hne].
    - rewrite andb_true_r. destruct (Z.testbit frac 10);
        [rewrite Z.pow2_bits_true by lia | rewrite Z.bits_0]; reflexivity.
    - rewrite andb_false_r. destruct (Z.testbit frac 10);
        [rewrite Z.pow2_bits_false by lia | rewrite Z.bits_0]; reflexivity. }
  rewrite E. pose proof (Z.testbit_spec' frac 10 ltac:(lia)) as Hb.
  destruct (Z.testbit frac 10); cbn [Z.b2z] in Hb; pow2;
    destruct (Z.ltb_spec frac 1024); try reflexivity;
    exfalso; Z.div_mod_to_equations; lia.
Qed.

Lemma renorm_spec w : 11 <= w ->
  forall (j fuel : nat) frac exp, (j <= fuel)%nat -> (j <= 10)%nat ->
  0 <= exp < 2^w ->
  2^(10 - Z.of_nat j) <= frac < 2^(11 - Z.of_nat j) ->
  float16.renorm w fuel frac exp
  = (frac * 2^(Z.of_nat j), (exp - Z.of_nat j) mod 2^w).
Proof.
  intros Hw.
  assert (H2w : 2048 <= 2^w) by (change 2048 with (2^11); apply Z.pow_le_mono_r; lia).
  induction j as [|j IH]; intros fuel frac exp Hj H10 He Hf.
  - cbn [Z.of_nat] in *. change (10 - 0) with 10 in Hf. change (11 - 0) with 11 in Hf.
    pow2. rewrite Z.sub_0_r, Z.mul_1_r, Z.mod_small by lia.
    destruct fuel; cbn [float16.renorm]; [reflexivity|].
    rewrite bit10 by lia. destruct (Z.ltb_spec frac 1024); [lia | reflexivity].
  - destruct fuel as [|fuel]; [lia|]. cbn [float16.renorm].
    assert (Hp : 0 < 2^(10 - Z.of_nat (S j))) by (apply Z.pow_pos_nonneg; lia).
    assert (Hle : 2^(11 - Z.of_nat (S j)) <= 2^10) by (apply Z.pow_le_mono_r; lia).
    assert (E1 : 2^(10 - Z.of_nat j) = 2 * 2^(10 - Z.of_nat (S j))).
    { rewrite <- Z.pow_succ_r by lia. f_equal. lia. }
    assert (E2 : 2^(11 - Z.of_nat j) = 2 * 2^(11 - Z.of_nat (S j))).
    { rewrite <- Z.pow_succ_r by lia. f_equal. lia. }
    pow2. rewrite bit10 by lia. destruct (Z.ltb_spec frac 1024); [|lia].
    rewrite Z.shiftl_mul_pow2 by lia. change (2^1) with 2.
    rewrite (Z.mod_small (frac * 2)) by lia.
    rewrite IH; [| lia | lia | apply Z.mod_pos_bound; lia | lia].
    f_equal.
    + rewrite Nat2Z.inj_succ, Z.pow_succ_r by lia. lia.
    + rewrite Zminus_mod_idemp_l. f_equal. lia.
Qed.

Lemma subnormal_shift f : 1 <= f < 1024 ->
  exists j : nat, (1 <= j <= 10)%nat
    /\ 2^(10 - Z.of_nat j) <= f < 2^(11 - Z.of_nat j).
Proof.
  intros Hf. pose proof (Z.log2_spec f ltac:(lia)) as Hl.
  pose proof (Z.log2_nonneg f) as Hn.
  assert (Hlt : Z.log2 f < 10) by (apply Z.log2_lt_pow2; [lia | pow2; lia]).
  exists (Z.to_nat (10 - Z.log2 f)). split; [lia|].
  rewrite Z2Nat.id by lia.
  replace (10 - (10 - Z.log2 f)) with (Z.log2 f) by lia.
  replace (11 - (10 - Z.log2 f)) with (Z.succ (Z.log2 f)) by lia. exact Hl.
Qed.

Lemma ToF32_subnormal s f (j : nat) :
  0 <= s <= 1 -> (1 <= j <= 10)%nat ->
  2^(10 - Z.of_nat j) <= f < 2^(11 - Z.of_nat j) ->
  float16.ToF32 (s * 32768 + 0 * 1024 + f)
  = s * 2^31 + (113 - Z.of_nat j) * 2^23 + (f * 2^(Z.of_nat j) - 1024) * 2^13.
Proof.
  intros Hs Hj Hf.
  assert (Hp : 0 < 2^(10 - Z.of_nat j)) by (apply Z.pow_pos_nonneg; lia).
  assert (Hle : 2^(11 - Z.of_nat j) <= 2^10) by (apply Z.pow_le_mono_r; lia).
  assert (Hf' : 1 <= f < 1024) by (pow2; lia).
  assert (Hfj : 1024 <= f * 2^(Z.of_nat j) < 2048).
  { assert (E : 2^10 = 2^(10 - Z.of_nat j) * 2^(Z.of_nat j))
      by (rewrite <- Z.pow_add_r by lia; f_equal; lia).
    assert (E' : 2^11 = 2^(11 - Z.of_nat j) * 2^(Z.of_nat j))
      by (rewrite <- Z.pow_add_r by lia; f_equal; lia).
    assert (0 < 2^(Z.of_nat j)) by (apply Z.pow_pos_nonneg; lia).
    pow2. nia. }
  destruct (half_fields s 0 f Hs ltac:(lia) ltac:(lia)) as (E1 & E2 & E3 & _).
  unfold float16.ToF32. cbv zeta. rewrite E1, E2, E3.
  change (0 =? 0x1f) with false. change (0 =? 0) with true. cbv iota.
  destruct (Z.eqb_spec f 0); [lia|]. cbn [andb].
  rewrite (renorm_spec 32 ltac:(lia) j 10 f 0) by (pow2; lia). cbv beta iota.
  change 0x3ff with (2^10 - 1). rewrite land_mask by lia.
  unfold u32. rewrite (Zplus_mod_idemp_l (0 - Z.of_nat j) 1).
  rewrite Zplus_mod_idemp_l.
  replace (0 - Z.of_nat j + 1 + (127 - 15)) with (113 - Z.of_nat j) by lia.
  rewrite !Z.shiftl_mul_pow2 by lia. pow2.
  rewrite (Z.mod_small (113 - Z.of_nat j)) by lia.
  replace (f * 2^(Z.of_nat j) mod 1024) with (f * 2^(Z.of_nat j) - 1024)
    by (Z.div_mod_to_equations; lia).
  rewrite (Z.mod_small (s * _)) by lia.
  rewrite (Z.mod_small ((113 - _) * _)) by lia.
  rewrite (Z.mod_small ((_ - 1024) * _)) by lia.
  rewrite (lor_disjoint (s * 2147483648) _ 31)
    by (pow2; Z.div_mod_to_equations; lia).
  rewrite (lor_disjoint _ ((f * 2^(Z.of_nat j) - 1024) * 8192) 23)
    by (pow2; Z.div_mod_to_equations; lia).
  rewrite Z.mod_small by lia. lia.
Qed.

Lemma ToF64_subnormal s f (j : nat) :
  0 <= s <= 1 -> (1 <= j <= 10)%nat ->
  2^(10 - Z.of_nat j) <= f < 2^(11 - Z.of_nat j) ->
  float16.ToF64 (s * 32768 + 0 * 1024 + f)
  = s * 2^63 + (1009 - Z.of_nat j) * 2^52 + (f * 2^(Z.of_nat j) - 1024) * 2^42.
Proof.
  intros Hs Hj Hf.
  assert (Hp : 0 < 2^(10 - Z.of_nat j)) by (apply Z.pow_pos_nonneg; lia).
  assert (Hle : 2^(11 - Z.of_nat j) <= 2^10) by (apply Z.pow_le_mono_r; lia).
  assert (Hf' : 1 <= f < 1024) by (pow2; lia).
  assert (Hfj : 1024 <= f * 2^(Z.of_nat j) < 2048).
  { assert (E : 2^10 = 2^(10 - Z.of_nat j) * 2^(Z.of_nat j))
      by (rewrite <- Z.pow_add_r by lia; f_equal; lia).
    assert (E' : 2^11 = 2^(11 - Z.of_nat j) * 2^(Z.of_nat j))
      by (rewrite <- Z.pow_add_r by lia; f_equal; lia).
    assert (0 < 2^(Z.of_nat j)) by (apply Z.pow_pos_nonneg; lia).
    pow2. nia. }
  destruct (half_fields s 0 f Hs ltac:(lia) ltac:(lia)) as (_ & _ & _ & E1 & E2 & E3).
  unfold float16.ToF64. cbv zeta. rewrite E1, E2, E3.
  change (0 =? 0x1f) with false. change (0 =? 0) with true. cbv iota.
  destruct (Z.eqb_spec f 0); [lia|]. cbn [andb].
  rewrite (renorm_spec 64 ltac:(lia) j 10 f 0) by (pow2; lia). cbv beta iota.
  unfold u64. rewrite (Zplus_mod_idemp_l (0 - Z.of_nat j) 1).
  rewrite Zplus_mod_idemp_l.
  replace (0 - Z.of_nat j + 1 + (1023 - 15)) with (1009 - Z.of_nat j) by lia.
  change 0x3ff with (2^10 - 1). rewrite land_mask by lia.
  rewrite !Z.shiftl_mul_pow2 by lia. pow2.
  rewrite (Z.mod_small (1009 - Z.of_nat j)) by lia.
  replace (f * 2^(Z.of_nat j) mod 1024) with (f * 2^(Z.of_nat j) - 1024)
    by (Z.div_mod_to_equations; lia).
  rewrite (Z.mod_small (s * _)) by lia.
  rewrite (Z.mod_small ((1009 - _) * _)) by lia.
  rewrite (Z.mod_small ((_ - 1024) * _)) by lia.
  rewrite (lor_disjoint (s * 9223372036854775808) _ 63)
    by (pow2; Z.div_mod_to_equations; lia).
  rewrite (lor_disjoint _ ((f * 2^(Z.of_nat j) - 1024) * 4398046511104) 52)
    by (pow2; Z.div_mod_to_equations; lia).
  rewrite Z.mod_small by lia. lia.
Qed.

Lemma decode16_fields s e f :
  0 <= s <= 1 -> 0 <= e < 32 -> 0 <= f < 1024 ->
  ieee.decode binary16 (s * 32768 + e * 1024 + f) =
    if e =? 31 then (if f =? 0 then S754_infinity (Z.odd s) else S754_nan)
    else if e =? 0 then
      match f with
      | Zpos p => S754_finite (Z.odd s) p (-24)
      | _ => S754_zero (Z.odd s)
      end
    else
      match f + 1024 with
      | Zpos p => S754_finite (Z.odd s) p (e - 25)
      | _ => S754_nan
      end.
Proof.
  intros Hs He Hf.
  assert (E : exists h, h = s * 32768 + e * 1024 + f) by eauto.
  destruct E as [h E]. rewrite <- E.
  destruct (half_decompose h ltac:(pow2; lia))
    as (s' & e' & f' & Hs' & He' & Hf' & E' & Ee & Ef).
  assert (s' = s /\ e' = e /\ f' = f) as (-> & -> & ->) by lia.
  unfold ieee.decode, ieee.sign_field, ieee.bias. rewrite Ee, Ef.
  cbn [ieee.mw ieee.ew binary16]. rewrite Z.testbit_odd, Z.shiftr_div_pow2 by lia.
  replace (h / 2^(10 + 5)) with s by (pow2; Z.div_mod_to_equations; lia).
  change (2^5 - 1) with 31. change (1 - (2^(5 - 1) - 1) - 10) with (-24).
  replace (e - (2^(5 - 1) - 1) - 10) with (e - 25) by (pow2; lia).
  reflexivity.
Qed.

Lemma decode32_fields s e f :
  0 <= s <= 1 -> 0 <= e < 256 -> 0 <= f < 2^23 ->
  ieee.decode ieee.binary32 (s * 2^31 + e * 2^23 + f) =
    if e =? 255 then (if f =? 0 then S754_infinity (Z.odd s) else S754_nan)
    else if e =? 0 then
      match f with
      | Zpos p => S754_finite (Z.odd s) p (-149)
      | _ => S754_zero (Z.odd s)
      end
    else
      match f + 2^23 with
      | Zpos p => S754_finite (Z.odd s) p (e - 150)
      | _ => S754_nan
      end.
Proof.
  intros Hs He Hf.
  assert (E : exists x, x = s * 2^31 + e * 2^23 + f) by eauto.
  destruct E as [x E]. rewrite <- E.
  destruct (single_decompose x ltac:(pow2; lia))
    as (s' & e' & f' & Hs' & He' & Hf' & E' & Ee & Ef & Es).
  assert (s' = s /\ e' = e /\ f' = f) as (-> & -> & ->)
    by (pow2; lia).
  unfold ieee.decode, ieee.sign_field, ieee.bias. rewrite Ee, Ef.
  cbn [ieee.mw ieee.ew ieee.binary32]. rewrite Z.testbit_odd.
  change (23 + 8) with 31. rewrite Es.
  change (2^8 - 1) with 255. change (1 - (2^(8 - 1) - 1) - 23) with (-149).
  replace (e - (2^(8 - 1) - 1) - 23) with (e - 150) by (pow2; lia).
  reflexivity.
Qed.

Lemma decode64_fields s e f :
  0 <= s <= 1 -> 0 <= e < 2048 -> 0 <= f < 2^52 ->
  ieee.decode ieee.binary64 (s * 2^63 + e * 2^52 + f) =
    if e =? 2047 then (if f =? 0 then S754_infinity (Z.odd s) else S754_nan)
    else if e =? 0 then
      match f with
      | Zpos p => S754_finite (Z.odd s) p (-1074)
      | _ => S754_zero (Z.odd s)
      end
    else
      match f + 2^52 with
      | Zpos p => S754_finite (Z.odd s) p (e - 1075)
      | _ => S754_nan
      end.
Proof.
  intros Hs He Hf.
  assert (E : exists x, x = s * 2^63 + e * 2^52 + f) by eauto.
  destruct E as [x E]. rewrite <- E.
  destruct (double_decompose x ltac:(pow2; lia))
    as (s' & e' & f' & Hs' & He' & Hf' & E' & Ee & Ef & Es).
  assert (s' = s /\ e' = e /\ f' = f) as (-> & -> & ->)
    by (pow2; lia).
  unfold ieee.decode, ieee.sign_field, ieee.bias. rewrite Ee, Ef.
  cbn [ieee.mw ieee.ew ieee.binary64]. rewrite Z.testbit_odd.
  change (52 + 11) with 63. rewrite Es.
  change (2^11 - 1) with 2047. change (1 - (2^(11 - 1) - 1) - 52) with (-1074).
  replace (e - (2^(11 - 1) - 1) - 52) with (e - 1075) by (pow2; lia).
  reflexivity.
Qed.

Lemma ToF_zero s : 0 <= s <= 1 ->
  float16.ToF32 (s * 32768 + 0 * 1024 + 0) = 0
  /\ float16.ToF64 (s * 32768 + 0 * 1024 + 0) = 0.
Proof.
  intros Hs.
  destruct (half_fields s 0 0 Hs ltac:(lia) ltac:(lia))
    as (E1 & E2 & E3 & E4 & E5 & E6).
  unfold float16.ToF32, float16.ToF64. cbv zeta.
  rewrite E1, E2, E3, E4, E5, E6. split; reflexivity.
Qed.

(** X: the decoders are exact.  For a half that is not a NaN, [ToF32] and
    [ToF64] return the [float32] and the [float64] that stand for the same
    number as the half read by the rules of binary16, subnormals included
    (the sign of a zero apart: both zeros decode to the positive zero).  A
    NaN decodes to a NaN. *)
Theorem decoders_exact (h : Z) :
  0 <= h < 2^16 ->
  (ieee.isNaN binary16 h = false ->
     same_number (ieee.decode ieee.binary32 (float16.ToF32 h))
                 (ieee.decode binary16 h)
     /\ same_number (ieee.decode ieee.binary64 (float16.ToF64 h))
                    (ieee.decode binary16 h))
  /\ (ieee.isNaN binary16 h = true ->
     ieee.decode ieee.binary32 (float16.ToF32 h) = S754_nan
     /\ ieee.decode ieee.binary64 (float16.ToF64 h) = S754_nan).
Proof.
  intros Hh.
  destruct (half_decompose h Hh) as (s & e & f & Hs & He & Hf & -> & Ee & Ef).
  unfold ieee.isNaN. rewrite Ee, Ef. cbn [ieee.ew binary16].
  change (2^5 - 1) with 31.
  rewrite (decode16_fields s e f Hs He Hf).
  destruct (Z.eqb_spec e 31) as [->|He31]; cbn [andb].
  - (* infinities and NaNs *)
    rewrite ToF32_special, ToF64_special by lia.
    destruct (Z.eqb_spec f 0) as [->|Hf0]; cbn [negb];
      (split; [intros Hn | intros Hn]; try discriminate).
    + rewrite <- (Z.add_0_r (s * 2^31 + _)), <- (Z.add_0_r (s * 2^63 + _)).
      rewrite (decode32_fields s 255 0), (decode64_fields s 2047 0)
        by (pow2; lia).
      split; reflexivity.
    + replace (255 * 2^23 + f * 2^13 + 1)
        with (0 * 2^31 + 255 * 2^23 + (f * 2^13 + 1)) by lia.
      replace (2047 * 2^52 + f * 2^42 + 1)
        with (0 * 2^63 + 2047 * 2^52 + (f * 2^42 + 1)) by lia.
      rewrite (decode32_fields 0 255), (decode64_fields 0 2047) by (pow2; lia).
      cbn [Z.eqb Pos.eqb].
      destruct (Z.eqb_spec (f * 2^13 + 1) 0), (Z.eqb_spec (f * 2^42 + 1) 0);
        try (pow2; lia). split; reflexivity.
  - split; [intros _ | discriminate].
    destruct (Z.eqb_spec e 0) as [->|He0].
    + destruct (Z.eq_dec f 0) as [->|Hf0].
      * (* zeros *)
        destruct (ToF_zero s Hs) as [-> ->]. split; exact I.
      * (* subnormals *)
        destruct (subnormal_shift f ltac:(lia)) as (j & Hj & Hfj).
        assert (Hp : 0 < 2^(10 - Z.of_nat j)) by (apply Z.pow_pos_nonneg; lia).
        assert (Hfj' : 1024 <= f * 2^(Z.of_nat j) < 2048).
        { assert (E : 2^10 = 2^(10 - Z.of_nat j) * 2^(Z.of_nat j))
            by (rewrite <- Z.pow_add_r by lia; f_equal; lia).
          assert (E' : 2^11 = 2^(11 - Z.of_nat j) * 2^(Z.of_nat j))
            by (rewrite <- Z.pow_add_r by lia; f_equal; lia).
          assert (0 < 2^(Z.of_nat j)) by (apply Z.pow_pos_nonneg; lia).
          pow2. nia. }
        rewrite (ToF32_subnormal s f j), (ToF64_subnormal s f j) by lia.
        rewrite decode32_fields, decode64_fields by (pow2; lia).
        destruct (Z.eqb_spec (113 - Z.of_nat j) 255),
          (Z.eqb_spec (113 - Z.of_nat j) 0),
          (Z.eqb_spec (1009 - Z.of_nat j) 2047),
          (Z.eqb_spec (1009 - Z.of_nat j) 0); try lia.
        destruct f as [|p|p]; try lia.
        destruct ((Z.pos p * 2^(Z.of_nat j) - 1024) * 2^13 + 2^23)
          as [|p32|p32] eqn:E32; try (pow2; lia).
        destruct ((Z.pos p * 2^(Z.of_nat j) - 1024) * 2^42 + 2^52)
          as [|p64|p64] eqn:E64; try (pow2; lia).
        cbn [same_number]. rewrite !Z.min_l by lia. rewrite !Z.sub_diag.
        replace (-24 - (113 - Z.of_nat j - 150)) with (Z.of_nat j + 13) by lia.
        replace (-24 - (1009 - Z.of_nat j - 1075)) with (Z.of_nat j + 42) by lia.
        rewrite !Z.pow_add_r by lia. pow2.
        split; (split; [reflexivity | lia]).
    + (* normal numbers *)
      rewrite ToF32_normal, ToF64_normal by lia.
      rewrite decode32_fields, decode64_fields by (pow2; lia).
      destruct (Z.eqb_spec (e + 112) 255), (Z.eqb_spec (e + 112) 0),
        (Z.eqb_spec (e + 1008) 2047), (Z.eqb_spec (e + 1008) 0); try lia.
      destruct (f + 1024) as [|p16|p16] eqn:E16; try lia.
      destruct (f * 2^13 + 2^23) as [|p32|p32] eqn:E32; try (pow2; lia).
      destruct (f * 2^42 + 2^52) as [|p64|p64] eqn:E64; try (pow2; lia).
      cbn [same_number]. rewrite !Z.min_l by lia. rewrite !Z.sub_diag.
      replace (e - 25 - (e + 112 - 150)) with 13 by lia.
      replace (e - 25 - (e + 1008 - 1075)) with 42 by lia.
      pow2. split; (split; [reflexivity | lia]).
Qed.

Lemma decoders_exact_witness :
  (ieee.isNaN binary16 0x0001 = false ->
     same_number (ieee.decode ieee.binary32 (float16.ToF32 0x0001))
                 (ieee.decode binary16 0x0001)
     /\ same_number (ieee.decode ieee.binary64 (float16.ToF64 0x0001))
                    (ieee.decode binary16 0x0001))
  /\ (ieee.isNaN binary16 0x0001 = true ->
     ieee.decode ieee.binary32 (float16.ToF32 0x0001) = S754_nan
     /\ ieee.decode ieee.binary64 (float16.ToF64 0x0001) = S754_nan).
Proof.
  apply (decoders_exact 0x0001). vm_compute. split; [discriminate | reflexivity].
Defined.

(** ** Well-formed tensors with an exact shape *)

Lemma wf_nonempty h ts : wf h ts -> shape ts <> [].
Proof.
  intros [_ Hst _ _] E. rewrite E, Shape_Strides_nil in Hst. discriminate.
Qed.

Lemma wf_radix h ts :
  wf h ts -> exact (shape ts) -> strides ts = radix 1 (shape ts).
Proof.
  intros Hwf Hex. pose proof (wf_nonempty _ _ Hwf) as Hne.
  destruct Hwf as [_ Hst _ Hp].
  rewrite (Shape_Strides_exact _ Hne Hp Hex) in Hst. congruence.
Qed.

(** The checking loop of [testIndex] and [testKey], from axis [length pi] on:
    it stops with [ErrIndexOutOfRange] at the first entry outside
    [lo <= x < d]. *)
Lemma test_loop (lo : Z) (idx sh : list Z) : forall (pi ps : list Z),
  length pi = length ps -> length idx = length sh ->
  for_up (length idx) (length pi)
    (fun i (_ : ()) => x ← load (pi ++ idx) i; d ← load (ps ++ sh) i;
       if (x <? lo) || (x >=? d) then Panic ErrIndexOutOfRange else Ok ()) ()
  = if decide (Forall2 (fun x d => lo <= x < d) idx sh) then Ok ()
    else Panic ErrIndexOutOfRange.
Proof.
  revert sh. induction idx as [|x idx IH]; intros [|d sh] pi ps Hp Hl;
    try discriminate.
  - cbn. destruct (decide _) as [|n]; [reflexivity|]. destruct n; constructor.
  - cbn [length for_up].
    rewrite (load_Some (pi ++ x :: idx) (length pi) x)
      by (apply list_lookup_middle; reflexivity).
    cbn. rewrite (load_Some (ps ++ d :: sh) (length pi) d)
      by (apply list_lookup_middle; congruence).
    cbn. destruct (Z.ltb_spec x lo), (Z.geb_spec x d); cbn.
    1-3: destruct (decide _) as [F|]; [inversion F; subst; lia | reflexivity].
    specialize (IH sh (pi ++ [x]) (ps ++ [d])).
    rewrite !length_app, <- !app_assoc in IH. cbn in IH.
    rewrite Nat.add_1_r in IH. rewrite IH by (cbn in *; lia).
    destruct (decide (Forall2 _ idx sh)) as [F|F],
      (decide (Forall2 _ (x :: idx) (d :: sh))) as [G|G]; try reflexivity.
    + destruct G. constructor; [lia | exact F].
    + inversion G; subst. contradiction.
Qed.

Lemma Tensor_testIndex_spec ts idx :
  Tensor_testIndex ts idx =
    if decide (length idx = length (shape ts)) then
      if decide (Forall2 (fun x d => 0 <= x < d) idx (shape ts)) then Ok ()
      else Panic ErrIndexOutOfRange
    else Panic ErrDimMismatch.
Proof.
  unfold Tensor_testIndex.
  destruct (Nat.eqb_spec (length idx) (length (shape ts))) as [E|E];
    destruct (decide (length idx = length (shape ts))); try contradiction;
    [|reflexivity].
  cbn [negb]. exact (test_loop 0 idx (shape ts) [] [] eq_refl E).
Qed.

Lemma Tensor_testKey_spec ts key :
  Tensor_testKey ts key =
    if decide (length key = length (shape ts)) then
      if decide (Forall2 (fun x d => -1 <= x < d) key (shape ts)) then Ok ()
      else Panic ErrIndexOutOfRange
    else Panic ErrDimMismatch.
Proof.
  unfold Tensor_testKey.
  destruct (Nat.eqb_spec (length key) (length (shape ts))) as [E|E];
    destruct (decide (length key = length (shape ts))); try contradiction;
    [|reflexivity].
  cbn [negb]. exact (test_loop (-1) key (shape ts) [] [] eq_refl E).
Qed.

(** X: the other direction of the round trip between offsets and
    multi-indices.  On a well-formed tensor whose element count is
    representable, the offset of an index inside the bounds of the shape is a
    valid flat offset, and [index] gives the index back. *)
Theorem offset_index_roundtrip (h : heap) (ts : Tensor) (idx : list Z) :
  wf h ts -> exact (shape ts) -> in_bounds (shape ts) idx ->
  exists k, Tensor_offset ts idx = Ok k
    /\ 0 <= k < Shape_Len (shape ts)
    /\ Tensor_index ts k = Ok idx.
Proof.
  intros Hwf Hex Hb. pose proof (wf_radix _ _ Hwf Hex) as Hr.
  pose proof (wf_positive _ _ Hwf) as Hp.
  destruct (Tensor_offset_exact ts idx Hp Hex Hr Hb) as [Eo Hrg].
  exists (dot (strides ts) idx). split; [exact Eo|].
  rewrite (Shape_Len_exact _ Hp Hex). split; [exact Hrg|].
  exact (Tensor_index_exact ts idx Hp Hex Hr Hb).
Qed.

Lemma offset_index_roundtrip_witness :
  exists k, Tensor_offset tensor_4x4 [3; 2] = Ok k
    /\ 0 <= k < Shape_Len (shape tensor_4x4)
    /\ Tensor_index tensor_4x4 k = Ok [3; 2].
Proof.
  apply (offset_index_roundtrip heap_4x4 tensor_4x4 [3; 2]).
  - exact heap_4x4_wf.
  - vm_compute. discriminate.
  - repeat constructor; lia.
Defined.

(** ** Writing a cell and reading it back *)

Lemma wf_kind h ts : wf h ts -> exists k, kind_of (typ ts) = Some k.
Proof. intros [(k & _ & Hk & _) _ _ _]. eauto. Qed.

Lemma wf_buffer_kind h ts k :
  wf h ts -> kind_of (typ ts) = Some k ->
  exists v, buffer h ts = Some {| elem := k; cells := v |}
    /\ Z.of_nat (length v) = Shape_Len (shape ts).
Proof.
  intros [(k' & v & Hk' & Hb & Hl) _ _ _] Hk.
  assert (k' = k) as -> by congruence. eauto.
Qed.

(** A write to the cells of the tensor's backing array keeps the tensor well
    formed, and is the only change to the store. *)
Lemma wf_write h ts k v v' l :
  wf h ts -> kind_of (typ ts) = Some k ->
  data ts = SliceRef l -> h !! l = Some {| elem := k; cells := v |} ->
  length v' = length v ->
  let h' := <[l := {| elem := k; cells := v' |}]> h in
  buffer h' ts = Some {| elem := k; cells := v' |}
  /\ wf h' ts
  /\ length h' = length h
  /\ (forall l', l' <> l -> h' !! l' = h !! l').
Proof.
  intros Hwf Hk Hd Hl Hlen h'.
  assert (Hlt : (l < length h)%nat) by (eapply lookup_lt_Some; eauto).
  assert (Hb' : buffer h' ts = Some {| elem := k; cells := v' |}).
  { unfold buffer, h'. rewrite Hd. apply list_lookup_insert_eq, Hlt. }
  split; [exact Hb'|]. split; [|split].
  - destruct (wf_buffer_kind _ _ _ Hwf Hk) as (v0 & Hb0 & Hl0).
    unfold buffer in Hb0. rewrite Hd, Hl in Hb0. inversion Hb0; subst v0.
    destruct Hwf as [_ Hst Hrk Hp].
    apply (wf_intro h' ts k v'); auto. rewrite Hlen. exact Hl0.
  - unfold h'. apply length_insert.
  - intros l' Hne. unfold h'. apply list_lookup_insert_ne. congruence.
Qed.

Lemma load_Z_insert_ne (v : list Z) off j x :
  0 <= off -> j <> off ->
  load_Z (<[Z.to_nat off := x]> v) j = load_Z v j.
Proof.
  intros Ho Hne. unfold load_Z. destruct (Z.ltb_spec j 0); [reflexivity|].
  unfold load. rewrite list_lookup_insert_ne by lia. reflexivity.
Qed.

Lemma load_Z_insert_eq (v : list Z) off x :
  0 <= off < Z.of_nat (length v) ->
  load_Z (<[Z.to_nat off := x]> v) off = Ok x.
Proof.
  intros Ho. unfold load_Z. destruct (Z.ltb_spec off 0); [lia|].
  apply load_Some, list_lookup_insert_eq. lia.
Qed.

Lemma assign_Z_in_range (v : list Z) off x :
  0 <= off < Z.of_nat (length v) ->
  assign_Z v off x = Ok (<[Z.to_nat off := x]> v).
Proof.
  intros Ho. unfold assign_Z. destruct (Z.ltb_spec off 0); [lia|].
  apply assign_lt. lia.
Qed.

(** X: [SetAt] followed by [GetAt].  On a well-formed tensor, storing a value
    of the tensor's precision at an offset below [Len()] succeeds; [GetAt]
    then returns that value at the offset and what it returned before at
    every other offset; the tensor stays well formed and no other backing
    array changes. *)
Theorem SetAt_then_GetAt (h : heap) (ts : Tensor) (k : kind) (off x : Z) :
  wf h ts -> kind_of (typ ts) = Some k ->
  0 <= off < Shape_Len (shape ts) ->
  exists h',
    Tensor_SetAt h ts off (box k x) = Ok h'
    /\ Tensor_GetAt h' ts off = Ok (box k x)
    /\ (forall j, j <> off -> Tensor_GetAt h' ts j = Tensor_GetAt h ts j)
    /\ wf h' ts
    /\ (forall l, data ts <> SliceRef l -> h' !! l = h !! l).
Proof.
  intros Hwf Hk Ho.
  destruct (wf_buffer_kind _ _ _ Hwf Hk) as (v & Hb & Hl).
  destruct (buffer_as_slice _ _ _ _ Hb) as (l & Hd & Hhl & _).
  destruct (Tensor_setAt_buffer h ts k v off x Hk Hb) as (l0 & Hd0 & Es).
  assert (l0 = l) as -> by congruence.
  rewrite assign_Z_in_range in Es by lia. cbn in Es.
  destruct (wf_write h ts k v (<[Z.to_nat off := x]> v) l Hwf Hk Hd Hhl
              ltac:(apply length_insert)) as (Hb' & Hwf' & _ & Hfr).
  eexists. split; [|split; [|split; [|split]]].
  - unfold Tensor_SetAt, Tensor_testOffset.
    destruct (Z.ltb_spec off 0), (Z.gtb_spec off (Shape_Len (shape ts)));
      try lia. cbn. exact Es.
  - unfold Tensor_GetAt, Tensor_testOffset.
    destruct (Z.ltb_spec off 0), (Z.gtb_spec off (Shape_Len (shape ts)));
      try lia. cbn.
    rewrite (Tensor_at_buffer _ _ _ _ _ Hk Hb'), load_Z_insert_eq by lia.
    reflexivity.
  - intros j Hj. unfold Tensor_GetAt.
    rewrite (Tensor_at_buffer _ _ _ _ _ Hk Hb'), (Tensor_at_buffer _ _ _ _ _ Hk Hb).
    rewrite load_Z_insert_ne by lia. reflexivity.
  - exact Hwf'.
  - intros l' Hne. apply Hfr. congruence.
Qed.

Lemma SetAt_then_GetAt_witness :
  exists h',
    Tensor_SetAt heap_4x4 tensor_4x4 6 (box KF64 0x4059000000000000) = Ok h'
    /\ Tensor_GetAt h' tensor_4x4 6 = Ok (box KF64 0x4059000000000000)
    /\ (forall j, j <> 6 ->
          Tensor_GetAt h' tensor_4x4 j = Tensor_GetAt heap_4x4 tensor_4x4 j)
    /\ wf h' tensor_4x4
    /\ (forall l, data tensor_4x4 <> SliceRef l -> h' !! l = heap_4x4 !! l).
Proof.
  apply (SetAt_then_GetAt heap_4x4 tensor_4x4 KF64 6 0x4059000000000000).
  - exact heap_4x4_wf.
  - reflexivity.
  - vm_compute. split; [discriminate | reflexivity].
Defined.

(** Two indices inside the bounds of an exact shape with the same offset are
    the same index. *)
Lemma dot_radix_inj sh idx idx' :
  in_bounds sh idx -> in_bounds sh idx' ->
  dot (radix 1 sh) idx = dot (radix 1 sh) idx' -> idx = idx'.
Proof.
  intros H H' E. rewrite <- (digits_dot sh idx H), <- (digits_dot sh idx' H').
  rewrite E. reflexivity.
Qed.

(** X: [Set] followed by [Get].  On a well-formed tensor whose element count
    is representable, storing a value of the tensor's precision at an index
    inside the bounds succeeds; [Get] then returns that value at the index,
    and at every other index what it returned before. *)
Theorem Set_then_Get (h : heap) (ts : Tensor) (k : kind) (idx : list Z) (x : Z) :
  wf h ts -> exact (shape ts) -> kind_of (typ ts) = Some k ->
  in_bounds (shape ts) idx ->
  exists h',
    Tensor_Set h ts idx (box k x) = Ok h'
    /\ Tensor_Get h' ts idx = Ok (box k x)
    /\ (forall idx', idx' <> idx -> Tensor_Get h' ts idx' = Tensor_Get h ts idx')
    /\ wf h' ts.
Proof.
  intros Hwf Hex Hk Hin.
  pose proof (wf_radix _ _ Hwf Hex) as Hr.
  pose proof (wf_positive _ _ Hwf) as Hp.
  destruct (wf_buffer_kind _ _ _ Hwf Hk) as (v & Hb & Hl).
  rewrite (Shape_Len_exact _ Hp Hex) in Hl.
  destruct (buffer_as_slice _ _ _ _ Hb) as (l & Hd & Hhl & _).
  destruct (Tensor_offset_exact ts idx Hp Hex Hr Hin) as [Eo Hrg].
  set (off := dot (strides ts) idx) in *.
  destruct (Tensor_setAt_buffer h ts k v off x Hk Hb) as (l0 & Hd0 & Es).
  assert (l0 = l) as -> by congruence.
  rewrite assign_Z_in_range in Es by lia. cbn in Es.
  destruct (wf_write h ts k v (<[Z.to_nat off := x]> v) l Hwf Hk Hd Hhl
              ltac:(apply length_insert)) as (Hb' & Hwf' & _ & _).
  eexists. split; [|split; [|split]].
  - unfold Tensor_Set, Tensor_set.
    rewrite (Tensor_testIndex_in_bounds _ _ Hin). cbn. rewrite Eo. cbn. exact Es.
  - unfold Tensor_Get, Tensor_get.
    rewrite (Tensor_testIndex_in_bounds _ _ Hin). cbn. rewrite Eo. cbn.
    rewrite (Tensor_at_buffer _ _ _ _ _ Hk Hb'), load_Z_insert_eq by lia.
    reflexivity.
  - intros idx' Hne. unfold Tensor_Get. rewrite Tensor_testIndex_spec.
    destruct (decide (length idx' = length (shape ts))); [|reflexivity].
    destruct (decide (Forall2 _ idx' (shape ts))) as [Hin'|]; [|reflexivity].
    cbn. unfold Tensor_get.
    destruct (Tensor_offset_exact ts idx' Hp Hex Hr Hin') as [Eo' Hrg'].
    rewrite Eo'. cbn.
    rewrite (Tensor_at_buffer _ _ _ _ _ Hk Hb'), (Tensor_at_buffer _ _ _ _ _ Hk Hb).
    rewrite load_Z_insert_ne; [reflexivity | lia |].
    intros E. apply Hne. unfold off in E. rewrite Hr in E.
    exact (dot_radix_inj _ _ _ Hin' Hin E).
  - exact Hwf'.
Qed.

Lemma Set_then_Get_witness :
  exists h',
    Tensor_Set heap_4x4 tensor_4x4 [1; 2] (box KF64 0x4059000000000000) = Ok h'
    /\ Tensor_Get h' tensor_4x4 [1; 2] = Ok (box KF64 0x4059000000000000)
    /\ (forall idx', idx' <> [1; 2] ->
          Tensor_Get h' tensor_4x4 idx' = Tensor_Get heap_4x4 tensor_4x4 idx')
    /\ wf h' tensor_4x4.
Proof.
  apply (Set_then_Get heap_4x4 tensor_4x4 KF64 [1; 2] 0x4059000000000000).
  - exact heap_4x4_wf.
  - vm_compute. discriminate.
  - reflexivity.
  - repeat constructor; lia.
Defined.

(** ** Outcomes of the checked accessors *)

Lemma wf_strides_length h ts : wf h ts -> length (strides ts) = length (shape ts).
Proof.
  intros Hwf. pose proof (wf_nonempty _ _ Hwf) as Hne.
  destruct (Shape_Strides_spec _ Hne) as (st & E & Hl & _).
  rewrite (wf_strides _ _ Hwf) in E. congruence.
Qed.

Lemma testIndex_Ok_length ts idx :
  Tensor_testIndex ts idx = Ok () -> length idx = length (shape ts).
Proof.
  rewrite Tensor_testIndex_spec.
  destruct (decide (length idx = length (shape ts))); [auto | discriminate].
Qed.

(** X: the outcomes of [Get].  On a well-formed tensor whose element count is
    representable, [Get] panics with [ErrDimMismatch] when the index has not
    one entry per axis, with [ErrIndexOutOfRange] when it has and an entry is
    outside its axis, and returns a value of the tensor's precision
    otherwise: it never stops on a panic of the runtime. *)
Theorem Get_outcomes (h : heap) (ts : Tensor) (idx : list Z) :
  wf h ts -> exact (shape ts) ->
  (length idx <> length (shape ts)
     /\ Tensor_Get h ts idx = Panic ErrDimMismatch)
  \/ (length idx = length (shape ts) /\ ~ in_bounds (shape ts) idx
     /\ Tensor_Get h ts idx = Panic ErrIndexOutOfRange)
  \/ (in_bounds (shape ts) idx
     /\ exists k x, kind_of (typ ts) = Some k
          /\ Tensor_Get h ts idx = Ok (box k x)).
Proof.
  intros Hwf Hex. unfold Tensor_Get at 1 2. rewrite Tensor_testIndex_spec.
  destruct (decide (length idx = length (shape ts))) as [El|El];
    [|left; split; [exact El | reflexivity]].
  destruct (decide (Forall2 _ idx (shape ts))) as [Hin|Hin];
    [|right; left; split; [exact El | split; [exact Hin | reflexivity]]].
  right; right. split; [exact Hin|].
  destruct (wf_kind _ _ Hwf) as [k Hk].
  destruct (wf_buffer_kind _ _ _ Hwf Hk) as (v & Hb & Hl).
  pose proof (wf_positive _ _ Hwf) as Hp.
  rewrite (Shape_Len_exact _ Hp Hex) in Hl.
  destruct (Tensor_get_exact h ts k v idx Hk Hb Hl Hp Hex
              (wf_radix _ _ Hwf Hex) Hin) as (x & _ & _ & E).
  exists k, x. split; [exact Hk | exact E].
Qed.

Lemma Get_outcomes_witness :
  (length [1; 4] <> length (shape tensor_4x4)
     /\ Tensor_Get heap_4x4 tensor_4x4 [1; 4] = Panic ErrDimMismatch)
  \/ (length [1; 4] = length (shape tensor_4x4)
     /\ ~ in_bounds (shape tensor_4x4) [1; 4]
     /\ Tensor_Get heap_4x4 tensor_4x4 [1; 4] = Panic ErrIndexOutOfRange)
  \/ (in_bounds (shape tensor_4x4) [1; 4]
     /\ exists k x, kind_of (typ tensor_4x4) = Some k
          /\ Tensor_Get heap_4x4 tensor_4x4 [1; 4] = Ok (box k x)).
Proof.
  apply (Get_outcomes heap_4x4 tensor_4x4 [1; 4]).
  - exact heap_4x4_wf.
  - vm_compute. discriminate.
Defined.

Lemma Tensor_setAt_mismatch h ts k off value :
  wf h ts -> kind_of (typ ts) = Some k -> (forall x, value <> box k x) ->
  Tensor_setAt h ts off value = Panic ErrTypeMismatch.
Proof.
  intros Hwf Hk Hv.
  destruct (wf_buffer_kind _ _ _ Hwf Hk) as (v & Hb & _).
  destruct (buffer_as_slice _ _ _ _ Hb) as (l & _ & _ & Hs).
  unfold Tensor_setAt.
  destruct (kind_of_cases _ _ Hk) as [[Ht ->]|[[Ht ->]|[Ht ->]]];
    rewrite Ht; cbn; rewrite Hs; cbn;
    destruct value; try reflexivity; exfalso; eapply Hv; reflexivity.
Qed.

(** X: no implicit conversion on a write.  On a well-formed tensor, [Set] at
    an index inside the bounds and [SetAt] at an offset that [testOffset]
    accepts panic with [ErrTypeMismatch] when the value is not of the
    tensor's own precision, whatever else it is. *)
Theorem Set_rejects_other_precision (h : heap) (ts : Tensor) (k : kind)
    (value : any) :
  wf h ts -> kind_of (typ ts) = Some k -> (forall x, value <> box k x) ->
  (forall idx, in_bounds (shape ts) idx ->
     Tensor_Set h ts idx value = Panic ErrTypeMismatch)
  /\ (forall off, 0 <= off <= Shape_Len (shape ts) ->
     Tensor_SetAt h ts off value = Panic ErrTypeMismatch).
Proof.
  intros Hwf Hk Hv. split.
  - intros idx Hin. unfold Tensor_Set, Tensor_set.
    rewrite (Tensor_testIndex_in_bounds _ _ Hin). cbn.
    rewrite Tensor_offset_wrap
      by (rewrite (wf_strides_length _ _ Hwf), (in_bounds_length _ _ Hin); lia).
    cbn. exact (Tensor_setAt_mismatch _ _ _ _ _ Hwf Hk Hv).
  - intros off Ho. unfold Tensor_SetAt, Tensor_testOffset.
    destruct (Z.ltb_spec off 0), (Z.gtb_spec off (Shape_Len (shape ts)));
      try lia. cbn. exact (Tensor_setAt_mismatch _ _ _ _ _ Hwf Hk Hv).
Qed.

Lemma Set_rejects_other_precision_witness :
  (forall idx, in_bounds (shape tensor_4x4) idx ->
     Tensor_Set heap_4x4 tensor_4x4 idx (F32 0x42C80000) = Panic ErrTypeMismatch)
  /\ (forall off, 0 <= off <= Shape_Len (shape tensor_4x4) ->
     Tensor_SetAt heap_4x4 tensor_4x4 off (F32 0x42C80000)
       = Panic ErrTypeMismatch).
Proof.
  apply (Set_rejects_other_precision heap_4x4 tensor_4x4 KF64 (F32 0x42C80000)).
  - exact heap_4x4_wf.
  - reflexivity.
  - intros x. discriminate.
Defined.

(** X: the typed accessors against the generic ones.  On a well-formed
    tensor of element kind [k], the setter and the getter of kind [k] do what
    [Set] and [Get] do with a value of that kind, at every index; those of
    another kind panic with [ErrTypeMismatch] before they look at the
    index. *)
Theorem typed_accessors_agree (h : heap) (ts : Tensor) (k : kind)
    (idx : list Z) (x : Z) :
  wf h ts -> kind_of (typ ts) = Some k ->
  Tensor_SetK k h ts idx x = Tensor_Set h ts idx (box k x)
  /\ Tensor_Get h ts idx = (y ← Tensor_GetKAt k h ts idx; Ok (box k y))
  /\ (forall k', k' <> k ->
        Tensor_SetK k' h ts idx x = Panic ErrTypeMismatch
        /\ Tensor_GetKAt k' h ts idx = Panic ErrTypeMismatch).
Proof.
  intros Hwf Hk.
  destruct (wf_buffer_kind _ _ _ Hwf Hk) as (v & Hb & _).
  destruct (buffer_as_slice _ _ _ _ Hb) as (l & _ & _ & Hs).
  pose proof (wf_strides_length _ _ Hwf) as Hsl.
  assert (Ho : Tensor_testIndex ts idx = Ok () ->
               exists o, Tensor_offset ts idx = Ok o).
  { intros E. apply testIndex_Ok_length in E. eexists.
    apply Tensor_offset_wrap. lia. }
  split; [|split].
  - unfold Tensor_Set, Tensor_set.
    destruct (kind_of_cases _ _ Hk) as [[Ht ->]|[[Ht ->]|[Ht ->]]];
      cbn [Tensor_SetK box];
      unfold Tensor_SetF16, Tensor_SetF32, Tensor_SetF64, Tensor_setAt;
      rewrite Ht; cbn;
      (destruct (Tensor_testIndex ts idx) as [[]|e] eqn:Et; [|reflexivity]);
      destruct (Ho eq_refl) as [o Eo]; cbn; rewrite Hs, Eo; reflexivity.
  - unfold Tensor_Get, Tensor_get.
    destruct (kind_of_cases _ _ Hk) as [[Ht ->]|[[Ht ->]|[Ht ->]]];
      cbn [Tensor_GetKAt box];
      unfold Tensor_GetF16At, Tensor_GetF32At, Tensor_GetF64At, Tensor_at;
      rewrite Ht; cbn;
      (destruct (Tensor_testIndex ts idx) as [[]|e] eqn:Et; [|reflexivity]);
      destruct (Ho eq_refl) as [o Eo]; cbn; rewrite Hs, Eo; cbn;
      destruct (load_Z v o); reflexivity.
  - intros k' Hne.
    destruct (kind_of_cases _ _ Hk) as [[Ht ->]|[[Ht ->]|[Ht ->]]];
      destruct k'; try contradiction;
      cbn [Tensor_SetK Tensor_GetKAt];
      unfold Tensor_SetF16, Tensor_SetF32, Tensor_SetF64,
        Tensor_GetF16At, Tensor_GetF32At, Tensor_GetF64At;
      rewrite Ht; split; reflexivity.
Qed.

Lemma typed_accessors_agree_witness :
  Tensor_SetK KF64 heap_4x4 tensor_4x4 [1; 2] 0
    = Tensor_Set heap_4x4 tensor_4x4 [1; 2] (box KF64 0)
  /\ Tensor_Get heap_4x4 tensor_4x4 [1; 2]
     = (y ← Tensor_GetKAt KF64 heap_4x4 tensor_4x4 [1; 2]; Ok (box KF64 y))
  /\ (forall k', k' <> KF64 ->
        Tensor_SetK k' heap_4x4 tensor_4x4 [1; 2] 0 = Panic ErrTypeMismatch
        /\ Tensor_GetKAt k' heap_4x4 tensor_4x4 [1; 2] = Panic ErrTypeMismatch).
Proof.
  apply (typed_accessors_agree heap_4x4 tensor_4x4 KF64 [1; 2] 0).
  - exact heap_4x4_wf.
  - reflexivity.
Defined.

(** ** Construction from a slice *)

Lemma forallb_positive_inv (sh : Shape) :
  forallb (fun x => 0 <? x) sh = true -> Forall (fun d => 0 < d) sh.
Proof.
  induction sh as [|d sh IH]; [constructor|]. cbn.
  destruct (Z.ltb_spec 0 d); [|discriminate]. intros E. constructor; auto.
Qed.

Lemma kind_of_valid typ k :
  kind_of typ = Some k ->
  negb (typ =? Float16) && negb (typ =? Float32) && negb (typ =? Float64)
    = false.
Proof.
  intros Hk. destruct (kind_of_cases _ _ Hk) as [[-> _]|[[-> _]|[-> _]]];
    reflexivity.
Qed.

Lemma kind_of_invalid typ :
  kind_of typ = None ->
  negb (typ =? Float16) && negb (typ =? Float32) && negb (typ =? Float64)
    = true.
Proof.
  unfold kind_of. destruct (typ =? Float16), (typ =? Float32), (typ =? Float64);
    (discriminate || reflexivity).
Qed.

(** [NewTensor] on a slice: the length test, then the strides; the tensor
    keeps the slice when its elements are of the requested kind, and gets a
    new backing array of converted elements when they are not. *)
Lemma NewTensor_slice h l k0 v typ k sh :
  h !! l = Some {| elem := k0; cells := v |} ->
  kind_of typ = Some k ->
  Forall (fun d => 0 < d) sh ->
  NewTensor h (SliceRef l) typ sh =
    if negb (Z.of_nat (length v) =? Shape_Len sh) then Panic ErrInvalidShape
    else
      strides ← Shape_Strides sh;
      let '(d, h') :=
        if decide (k0 = k) then (SliceRef l, h)
        else alloc k (map (convert_elem k0 k) v) h in
      Ok ({| rank := Z.of_nat (length sh); data := d; shape := sh;
             typ := typ; strides := strides |}, h').
Proof.
  intros Hl Hk Hp. unfold NewTensor.
  rewrite (kind_of_valid _ _ Hk), (forallb_positive _ Hp).
  cbn -[Shape_Len Shape_Strides]. unfold deref. rewrite Hl.
  cbn -[Shape_Len Shape_Strides].
  destruct (kind_of_cases _ _ Hk) as [[-> ->]|[[-> ->]|[-> ->]]];
    destruct k0; cbn -[Shape_Len Shape_Strides];
    destruct (Z.of_nat (length v) =? Shape_Len sh);
    cbn -[Shape_Len Shape_Strides]; try reflexivity;
    destruct (Shape_Strides sh); reflexivity.
Qed.

Lemma NewTensor_nil_unfold h typ k sh :
  kind_of typ = Some k ->
  Forall (fun d => 0 < d) sh ->
  NewTensor h Nil typ sh =
    ('(d, h1) ← make (match k with KF16 => KF16 | KF32 => KF64 | KF64 => KF32 end)
                  (Shape_Len sh) h;
     NewTensor h1 d typ sh).
Proof.
  intros Hk Hp. unfold NewTensor.
  rewrite (kind_of_valid _ _ Hk), (forallb_positive _ Hp).
  cbn -[Shape_Len Shape_Strides make].
  destruct (kind_of_cases _ _ Hk) as [[-> ->]|[[-> ->]|[-> ->]]];
    cbn -[Shape_Len Shape_Strides make]; unfold make;
    destruct (Shape_Len sh <? 0); cbn -[Shape_Len Shape_Strides]; reflexivity.
Qed.

Lemma prefix_lookup (h : heap) (ext : list slice) l :
  (l < length h)%nat -> (h ++ ext) !! l = h !! l.
Proof. apply lookup_app_l. Qed.

Lemma NewTensor_slice_wf h l k0 v typ k sh ts h' :
  h !! l = Some {| elem := k0; cells := v |} ->
  kind_of typ = Some k ->
  Forall (fun d => 0 < d) sh ->
  NewTensor h (SliceRef l) typ sh = Ok (ts, h') ->
  wf h' ts /\ graph.typ ts = typ /\ shape ts = sh
  /\ (forall l', (l' < length h)%nat -> h' !! l' = h !! l').
Proof.
  intros Hl Hk Hp. rewrite (NewTensor_slice _ _ _ _ _ _ _ Hl Hk Hp).
  destruct (Z.eqb_spec (Z.of_nat (length v)) (Shape_Len sh)) as [El|];
    [|discriminate]. cbn -[Shape_Len Shape_Strides].
  destruct (Shape_Strides sh) as [st|] eqn:Est; [|discriminate].
  cbn -[Shape_Len Shape_Strides].
  destruct (decide (k0 = k)) as [->|Hne]; intros E; inversion E; subst ts h';
    clear E.
  - split; [|auto]. apply (wf_intro _ _ k v); auto.
  - split; [|split; [reflexivity|split; [reflexivity|]]].
    + apply (wf_intro _ _ k (map (convert_elem k0 k) v)); auto.
      * unfold buffer. cbn. apply list_lookup_middle. reflexivity.
      * cbn. rewrite length_map. exact El.
    + intros l' Hl'. apply prefix_lookup, Hl'.
Qed.

(** X: what [NewTensor] returns is well formed.  Whenever [NewTensor]
    returns, the tensor has the requested tag and shape, its buffer is a
    slice of the tag's precision with [shape.Len()] cells, its strides are
    those of the shape, every axis is positive, and the backing arrays that
    existed before the call are unchanged. *)
Theorem NewTensor_returns_wf (h : heap) (d : any) (typ : Type_) (sh : Shape)
    (ts : Tensor) (h' : heap) :
  NewTensor h d typ sh = Ok (ts, h') ->
  wf h' ts /\ graph.typ ts = typ /\ shape ts = sh
  /\ (forall l, (l < length h)%nat -> h' !! l = h !! l).
Proof.
  intros E.
  destruct (kind_of typ) as [k|] eqn:Hk;
    [|unfold NewTensor in E; rewrite (kind_of_invalid _ Hk) in E; discriminate].
  assert (Hp : Forall (fun d => 0 < d) sh).
  { apply forallb_positive_inv. unfold NewTensor in E.
    rewrite (kind_of_valid _ _ Hk) in E.
    destruct (forallb _ sh); [reflexivity | discriminate]. }
  destruct d as [|l| | | |].
  - rewrite (NewTensor_nil_unfold _ _ _ _ Hk Hp) in E.
    unfold make in E. destruct (Shape_Len sh <? 0); [discriminate|].
    cbn -[NewTensor] in E.
    eapply NewTensor_slice_wf in E; [| apply list_lookup_middle; reflexivity
                                     | exact Hk | exact Hp].
    destruct E as (Hwf & Ht & Hs & Hfr).
    split; [exact Hwf|]. split; [exact Ht|]. split; [exact Hs|].
    intros l Hl. rewrite Hfr by (rewrite length_app; cbn; lia).
    apply prefix_lookup, Hl.
  - destruct (h !! l) as [[k0 v]|] eqn:Hl.
    + exact (NewTensor_slice_wf _ _ _ _ _ _ _ _ _ Hl Hk Hp E).
    + unfold NewTensor in E.
      rewrite (kind_of_valid _ _ Hk), (forallb_positive _ Hp) in E.
      cbn in E. unfold deref in E. rewrite Hl in E. discriminate.
  - unfold NewTensor in E.
    rewrite (kind_of_valid _ _ Hk), (forallb_positive _ Hp) in E. discriminate.
  - unfold NewTensor in E.
    rewrite (kind_of_valid _ _ Hk), (forallb_positive _ Hp) in E. discriminate.
  - unfold NewTensor in E.
    rewrite (kind_of_valid _ _ Hk), (forallb_positive _ Hp) in E. discriminate.
  - unfold NewTensor in E.
    rewrite (kind_of_valid _ _ Hk), (forallb_positive _ Hp) in E. discriminate.
Qed.

Lemma NewTensor_returns_wf_witness :
  wf heap_4x4 tensor_4x4 /\ typ tensor_4x4 = Float64
  /\ shape tensor_4x4 = [4; 4]
  /\ (forall l, (l < length heap_4x4)%nat -> heap_4x4 !! l = heap_4x4 !! l).
Proof.
  apply (NewTensor_returns_wf heap_4x4 (SliceRef 0%nat) Float64 [4; 4]).
  reflexivity.
Defined.

(** X: [NewTensor] does not copy a slice of the requested precision.  The
    tensor's buffer is the caller's slice itself: the typed view returns that
    very reference, the store is left as it was, and a [SetAt] through the
    tensor is a write to the caller's slice. *)
Theorem NewTensor_shares_buffer (h : heap) (l : nat) (k : kind) (v : list Z)
    (typ : Type_) (sh : Shape) :
  h !! l = Some {| elem := k; cells := v |} ->
  kind_of typ = Some k ->
  sh <> [] -> Forall (fun d => 0 < d) sh ->
  Z.of_nat (length v) = Shape_Len sh ->
  exists ts,
    NewTensor h (SliceRef l) typ sh = Ok (ts, h)
    /\ data ts = SliceRef l
    /\ Tensor_KSlice k h ts = Ok (l, v)
    /\ forall off x, 0 <= off < Shape_Len sh ->
         exists h', Tensor_SetAt h ts off (box k x) = Ok h'
           /\ h' !! l = Some {| elem := k; cells := <[Z.to_nat off := x]> v |}.
Proof.
  intros Hl Hk Hne Hp Hlen.
  destruct (Shape_Strides_spec sh Hne) as (st & Est & _).
  set (ts := {| rank := Z.of_nat (length sh); data := SliceRef l; shape := sh;
                typ := typ; strides := st |}).
  assert (E : NewTensor h (SliceRef l) typ sh = Ok (ts, h)).
  { rewrite (NewTensor_slice _ _ _ _ _ _ _ Hl Hk Hp), Hlen, Z.eqb_refl, Est.
    cbn. destruct (decide (k = k)); [reflexivity | contradiction]. }
  assert (Hb : buffer h ts = Some {| elem := k; cells := v |}) by exact Hl.
  assert (Hkt : kind_of (graph.typ ts) = Some k) by exact Hk.
  assert (Hs : as_slice h (SliceRef l) k = Ok (l, v)).
  { destruct (buffer_as_slice _ _ _ _ Hb) as (l0 & Hd & _ & Hs).
    unfold ts in Hd, Hs. cbn [data] in Hd, Hs. inversion Hd; subst l0.
    exact Hs. }
  exists ts. split; [exact E|]. split; [reflexivity|]. split.
  - destruct (kind_of_cases _ _ Hk) as [[Ht ->]|[[Ht ->]|[Ht ->]]];
      cbn [Tensor_KSlice];
      unfold Tensor_F16Slice, Tensor_F32Slice, Tensor_F64Slice;
      unfold ts; cbn [graph.typ data]; rewrite Ht; cbn -[as_slice]; exact Hs.
  - intros off x Ho.
    destruct (Tensor_setAt_buffer h ts k v off x Hkt Hb) as (l1 & Hd1 & Es).
    cbn in Hd1. inversion Hd1; subst l1.
    rewrite assign_Z_in_range in Es by lia. cbn in Es.
    eexists. split.
    + unfold Tensor_SetAt, Tensor_testOffset. cbn [shape ts].
      destruct (Z.ltb_spec off 0), (Z.gtb_spec off (Shape_Len sh)); try lia.
      cbn. exact Es.
    + apply list_lookup_insert_eq. eapply lookup_lt_Some, Hl.
Qed.

Lemma NewTensor_shares_buffer_witness :
  exists ts,
    NewTensor heap_4x4 (SliceRef 0%nat) Float64 [2; 8] = Ok (ts, heap_4x4)
    /\ data ts = SliceRef 0%nat
    /\ Tensor_KSlice KF64 heap_4x4 ts = Ok (0%nat, map Z.of_nat (seq 0 16))
    /\ forall off x, 0 <= off < Shape_Len [2; 8] ->
         exists h', Tensor_SetAt heap_4x4 ts off (box KF64 x) = Ok h'
           /\ h' !! 0%nat = Some {| elem := KF64;
                 cells := <[Z.to_nat off := x]> (map Z.of_nat (seq 0 16)) |}.
Proof.
  apply (NewTensor_shares_buffer heap_4x4 0%nat KF64 _ Float64 [2; 8]).
  - reflexivity.
  - reflexivity.
  - discriminate.
  - repeat constructor.
  - reflexivity.
Defined.



(** X: what [NewTensor] rejects, in the order of its tests: a tag that is
    none of the three precisions ([ErrTypeMismatch]), then an axis that is
    not positive ([ErrInvalidShape]), then data that is neither nil nor a
    slice of floats ([ErrInvalidData]), or a slice whose length is not
    [shape.Len()] ([ErrInvalidShape]). *)
Theorem NewTensor_rejects (h : heap) (d : any) (typ : Type_) (sh : Shape) :
  (kind_of typ = None -> NewTensor h d typ sh = Panic ErrTypeMismatch)
  /\ (kind_of typ <> None -> ~ Forall (fun d => 0 < d) sh ->
      NewTensor h d typ sh = Panic ErrInvalidShape)
  /\ (kind_of typ <> None -> Forall (fun d => 0 < d) sh ->
      d <> Nil -> (forall l, d <> SliceRef l) ->
      NewTensor h d typ sh = Panic ErrInvalidData)
  /\ (forall l s, kind_of typ <> None -> Forall (fun d => 0 < d) sh ->
      d = SliceRef l -> h !! l = Some s ->
      Z.of_nat (length (cells s)) <> Shape_Len sh ->
      NewTensor h d typ sh = Panic ErrInvalidShape).
Proof.
  split; [|split; [|split]].
  - intros Hk. unfold NewTensor. rewrite (kind_of_invalid _ Hk). reflexivity.
  - intros Hk Hn. destruct (kind_of typ) as [k|] eqn:Ek; [|contradiction].
    unfold NewTensor. rewrite (kind_of_valid _ _ Ek).
    destruct (forallb (fun x => 0 <? x) sh) eqn:Ef; [|reflexivity].
    destruct Hn. apply forallb_positive_inv, Ef.
  - intros Hk Hp Hn Hs. destruct (kind_of typ) as [k|] eqn:Ek; [|contradiction].
    unfold NewTensor. rewrite (kind_of_valid _ _ Ek), (forallb_positive _ Hp).
    destruct d; try reflexivity; [contradiction | destruct (Hs l); reflexivity].
  - intros l [k0 v] Hk Hp -> Hl Hlen.
    destruct (kind_of typ) as [k|] eqn:Ek; [|contradiction].
    rewrite (NewTensor_slice _ _ _ _ _ _ _ Hl Ek Hp).
    cbn in Hlen. destruct (Z.eqb_spec (Z.of_nat (length v)) (Shape_Len sh));
      [contradiction | reflexivity].
Qed.

Lemma NewTensor_rejects_witness :
  NewTensor heap_4x4 (SliceRef 0%nat) 4 [4; 4] = Panic ErrTypeMismatch
  /\ NewTensor heap_4x4 (SliceRef 0%nat) Float64 [4; 0] = Panic ErrInvalidShape
  /\ NewTensor heap_4x4 (F64 0) Float64 [4; 4] = Panic ErrInvalidData
  /\ NewTensor heap_4x4 (SliceRef 0%nat) Float64 [4; 5] = Panic ErrInvalidShape.
Proof.
  split; [|split; [|split]].
  - apply (proj1 (NewTensor_rejects heap_4x4 (SliceRef 0%nat) 4 [4; 4])).
    reflexivity.
  - apply (proj1 (proj2 (NewTensor_rejects heap_4x4 (SliceRef 0%nat) Float64
                           [4; 0]))); [discriminate|].
    intros HF. inversion HF as [|? ? _ HF']. inversion HF' as [|? ? Hz _]. lia.
  - apply (proj1 (proj2 (proj2 (NewTensor_rejects heap_4x4 (F64 0) Float64
                                  [4; 4])))); try discriminate.
    repeat constructor.
  - apply (proj2 (proj2 (proj2 (NewTensor_rejects heap_4x4 (SliceRef 0%nat)
                                  Float64 [4; 5]))) 0%nat
             {| elem := KF64; cells := map Z.of_nat (seq 0 16) |});
      try discriminate; try reflexivity.
    repeat constructor.
Defined.

(** ** Reshape, again *)

(** [Reshape] on a well-formed tensor, test by test. *)
Lemma Tensor_Reshape_wf h ts sh :
  wf h ts ->
  Tensor_Reshape h ts sh =
    if negb (forallb (fun x => 0 <? x) sh) then Panic ErrInvalidShape
    else if negb (Shape_Len (shape ts) =? Shape_Len sh)
    then Panic ErrInvalidShape
    else
      strides ← Shape_Strides sh;
      Ok {| rank := Z.of_nat (length sh); data := data ts; shape := sh;
            typ := typ ts; strides := strides |}.
Proof.
  intros Hwf. destruct (wf_kind _ _ Hwf) as [k Hk].
  destruct (wf_buffer_kind _ _ _ Hwf Hk) as (v & Hb & Hl).
  destruct (buffer_as_slice _ _ _ _ Hb) as (l & _ & _ & Hs).
  unfold Tensor_Reshape. destruct (forallb _ sh); [|reflexivity].
  cbn -[Shape_Len Shape_Strides].
  destruct (kind_of_cases _ _ Hk) as [[Ht ->]|[[Ht ->]|[Ht ->]]];
    rewrite Ht; cbn -[Shape_Len Shape_Strides]; rewrite Hs;
    cbn -[Shape_Len Shape_Strides]; rewrite Hl;
    destruct (Shape_Len (shape ts) =? Shape_Len sh); reflexivity.
Qed.

(** X: what [Reshape] rejects.  On a well-formed tensor, [Reshape] panics
    with [ErrInvalidShape] when an axis of the new shape is not positive, and
    when the new [Len()] differs from the current one. *)
Theorem Reshape_rejects (h : heap) (ts : Tensor) (sh : Shape) :
  wf h ts ->
  ~ (Forall (fun d => 0 < d) sh /\ Shape_Len sh = Shape_Len (shape ts)) ->
  Tensor_Reshape h ts sh = Panic ErrInvalidShape.
Proof.
  intros Hwf Hn. rewrite (Tensor_Reshape_wf _ _ _ Hwf).
  destruct (forallb (fun x => 0 <? x) sh) eqn:Ef; [|reflexivity]. cbn.
  destruct (Z.eqb_spec (Shape_Len (shape ts)) (Shape_Len sh)) as [E|];
    [|reflexivity].
  destruct Hn. split; [apply forallb_positive_inv, Ef | congruence].
Qed.

Lemma Reshape_rejects_witness :
  Tensor_Reshape heap_4x4 tensor_4x4 [3; 5] = Panic ErrInvalidShape.
Proof.
  apply (Reshape_rejects heap_4x4 tensor_4x4 [3; 5]).
  - exact heap_4x4_wf.
  - intros [_ E]. vm_compute in E. discriminate.
Defined.

(** X: [Reshape] composes and can be undone.  After a [Reshape] of a
    well-formed tensor that returned, a further [Reshape] does what it would
    have done on the original tensor, and the [Reshape] to the original
    shape gives the original tensor back, strides and rank included. *)
Theorem Reshape_composes (h : heap) (ts ts' : Tensor) (sh : Shape) :
  wf h ts ->
  Tensor_Reshape h ts sh = Ok ts' ->
  wf h ts'
  /\ (forall sh2, Tensor_Reshape h ts' sh2 = Tensor_Reshape h ts sh2)
  /\ Tensor_Reshape h ts' (shape ts) = Ok ts.
Proof.
  intros Hwf E. rewrite (Tensor_Reshape_wf _ _ _ Hwf) in E.
  destruct (forallb (fun x => 0 <? x) sh) eqn:Ef; [|discriminate]. cbn in E.
  destruct (Z.eqb_spec (Shape_Len (shape ts)) (Shape_Len sh)) as [El|];
    [|discriminate]. cbn in E.
  destruct (Shape_Strides sh) as [st|] eqn:Est; [|discriminate].
  cbn in E. inversion E; subst ts'; clear E.
  destruct (wf_kind _ _ Hwf) as [k Hk].
  destruct (wf_buffer_kind _ _ _ Hwf Hk) as (v & Hb & Hl).
  set (ts' := {| rank := Z.of_nat (length sh); data := data ts; shape := sh;
                 typ := typ ts; strides := st |}).
  assert (Hwf' : wf h ts').
  { apply (wf_intro h ts' k v); auto.
    - change (Z.of_nat (length v) = Shape_Len sh). congruence.
    - apply forallb_positive_inv, Ef. }
  assert (Hc : forall sh2, Tensor_Reshape h ts' sh2 = Tensor_Reshape h ts sh2).
  { intros sh2. rewrite (Tensor_Reshape_wf _ _ _ Hwf),
      (Tensor_Reshape_wf _ _ _ Hwf'). cbn [shape data typ ts'].
    rewrite El. reflexivity. }
  split; [exact Hwf'|]. split; [exact Hc|].
  rewrite Hc, (Tensor_Reshape_wf _ _ _ Hwf).
  rewrite (forallb_positive _ (wf_positive _ _ Hwf)), Z.eqb_refl,
    (wf_strides _ _ Hwf). cbn. rewrite <- (wf_rank _ _ Hwf).
  destruct ts; reflexivity.
Qed.

Lemma Reshape_composes_witness :
  wf heap_4x4 tensor_2x8
  /\ (forall sh2, Tensor_Reshape heap_4x4 tensor_2x8 sh2
                  = Tensor_Reshape heap_4x4 tensor_4x4 sh2)
  /\ Tensor_Reshape heap_4x4 tensor_2x8 (shape tensor_4x4) = Ok tensor_4x4.
Proof.
  apply (Reshape_composes heap_4x4 tensor_4x4 tensor_2x8 [2; 8]).
  - exact heap_4x4_wf.
  - reflexivity.
Defined.

(** ** Sub-tensors, again *)

(** The buffer that [GetSub] fills, cell by cell: the cell at offset [o] is
    the source cell at the offset of the source coordinate of the
    multi-index of [o]. *)
Lemma GetSub_cells (h : heap) (ts : Tensor) (key : list Z) (k : kind)
    (v : list Z) :
  wf h ts -> exact (shape ts) -> valid_key (shape ts) key ->
  kind_of (typ ts) = Some k ->
  buffer h ts = Some {| elem := k; cells := v |} ->
  exists sub h' buf ld,
    Tensor_GetSub h ts key = Ok (sub, h')
    /\ typ sub = typ ts
    /\ shape sub = sub_shape key (shape ts)
    /\ wf h' sub
    /\ exact (shape sub)
    /\ data sub = SliceRef ld /\ (length h <= ld)%nat
    /\ (forall l, (l < length h)%nat -> h' !! l = h !! l)
    /\ h' !! ld = Some {| elem := k; cells := buf |}
    /\ length buf = Z.to_nat (product (shape sub))
    /\ forall o, (o < length buf)%nat ->
         exists x,
           v !! Z.to_nat (dot (radix 1 (shape ts))
                            (merge key (digits (shape sub) (Z.of_nat o))))
             = Some x
           /\ buf !! o = Some x.
Proof.
  intros Hwf Hx Hkey Hk Hb.
  pose proof (wf_radix _ _ Hwf Hx) as Hstr.
  pose proof (wf_nonempty _ _ Hwf) as Hne.
  destruct (wf_buffer_kind _ _ _ Hwf Hk) as (v0 & Hb0 & Hl).
  rewrite Hb in Hb0. inversion Hb0; subst v0; clear Hb0.
  destruct Hwf as [_ Hst Hrk Hp].
  pose proof (Forall2_length _ _ _ Hkey) as Hlk.
  assert (Hlv : Z.of_nat (length v) = product (shape ts))
    by (rewrite Hl; apply Shape_Len_exact; assumption).
  destruct (buffer_as_slice _ _ _ _ Hb) as (ls & Hds & Hhls & _).
  pose proof (lookup_lt_Some _ _ _ Hhls) as Hlsh.
  set (sh' := sub_shape key (shape ts)).
  assert (Hp' : Forall (fun d => 0 < d) sh') by apply sub_shape_positive, Hp.
  assert (Hls' : length sh' = length (shape ts)) by apply sub_shape_length, Hlk.
  assert (Hne' : sh' <> []).
  { intros E. rewrite E in Hls'. destruct (shape ts); [congruence | discriminate]. }
  assert (Hx' : exact sh').
  { unfold exact in *. pose proof (sub_shape_product key (shape ts) Hp Hlk) as H.
    fold sh' in H. lia. }
  pose proof (Shape_Len_exact sh' Hp' Hx') as HLen'.
  pose proof (product_pos sh' Hp') as Hpos'.
  assert (Htyp : typ ts = Float16 \/ typ ts = Float32 \/ typ ts = Float64)
    by (destruct (kind_of_cases _ _ Hk) as [[? _]|[[? _]|[? _]]]; auto).
  destruct (NewTensor_nil_spec h (typ ts) sh' Htyp Hne' Hp' ltac:(lia))
    as (t' & h1 & k1 & ld & En & Hk1 & Htyp' & Hsh' & Hbuf1 & Hwf1 & Hdd & Hld & Hfr1).
  assert (k1 = k) as -> by congruence.
  destruct Hwf1 as [_ Hst1 Hrk1 _].
  assert (Hstr' : strides t' = radix 1 (shape t')).
  { rewrite Hsh' in *. pose proof (Shape_Strides_exact _ Hne' Hp' Hx') as E.
    congruence. }
  assert (Hk' : kind_of (typ t') = Some k) by (rewrite Htyp'; exact Hk).
  rewrite (buffer_ref _ _ _ Hdd) in Hbuf1.
  assert (Hnel : ls <> ld) by lia.
  assert (Hh1ls : h1 !! ls = Some {| elem := k; cells := v |})
    by (rewrite Hfr1 by lia; exact Hhls).
  destruct (GetSub_loop h1 ts t' key k v _ ls ld Hk Hds Hp Hx Hstr Hlv Hkey Hk'
              Hdd Hsh' Hstr' Hnel Hh1ls Hbuf1)
    as (h2 & src & buf & Eloop & Hl2 & Hfr2 & Hbuf2 & Hlbuf & Hcells).
  { rewrite length_replicate, HLen', Hsh'. reflexivity. }
  exists t', h2, buf, ld.
  split.
  { rewrite Tensor_GetSub_unfold.
    rewrite (Tensor_testKey_valid _ _ Hp Hkey). cbn -[Shape_Len NewTensor].
    rewrite (sub_shape_loop _ _ Hlk). cbn -[Shape_Len NewTensor].
    fold sh'. rewrite En. cbn -[Shape_Len].
    rewrite HLen'. rewrite Hsh' in Eloop. rewrite Eloop. reflexivity. }
  split; [exact Htyp'|]. split; [exact Hsh'|].
  split.
  { apply (wf_intro h2 t' k buf); auto.
    - rewrite (buffer_ref _ _ _ Hdd). exact Hbuf2.
    - rewrite Hsh', HLen', <- Hsh', Hlbuf. rewrite Hsh'. lia.
    - rewrite Hsh'. exact Hp'. }
  split; [rewrite Hsh'; exact Hx'|].
  split; [exact Hdd|]. split; [exact Hld|].
  split.
  { intros l Hll. rewrite Hfr2 by lia. apply Hfr1, Hll. }
  split; [exact Hbuf2|]. split; [exact Hlbuf|].
  intros o Ho. rewrite <- Hstr. apply Hcells. lia.
Qed.

Lemma Shape_Key_valid (sh : Shape) :
  Forall (fun d => 0 < d) sh -> valid_key sh (Shape_Key sh).
Proof.
  unfold valid_key, Shape_Key. induction 1; cbn; constructor; auto.
Qed.

Lemma sub_shape_Key (sh : Shape) : sub_shape (Shape_Key sh) sh = sh.
Proof.
  unfold sub_shape, Shape_Key. induction sh as [|d sh IH]; cbn; [reflexivity|].
  f_equal. exact IH.
Qed.

Lemma merge_Key (sh idx : list Z) :
  length idx = length sh -> merge (Shape_Key sh) idx = idx.
Proof.
  unfold merge, Shape_Key. revert idx.
  induction sh as [|d sh IH]; intros [|x idx] Hl; cbn in *; try discriminate;
    [reflexivity|]. f_equal. apply IH. lia.
Qed.

(** X: [GetSub] with the key of [Shape.Key()], all wildcards, is a copy.  The
    result has the shape of the source and a buffer of its own with the same
    cells in the same order; a later [SetAt] on the source does not reach
    it. *)
Theorem GetSub_of_Key_copies (h : heap) (ts : Tensor) (k : kind) (v : list Z) :
  wf h ts -> exact (shape ts) ->
  kind_of (typ ts) = Some k ->
  buffer h ts = Some {| elem := k; cells := v |} ->
  exists sub h',
    Tensor_GetSub h ts (Shape_Key (shape ts)) = Ok (sub, h')
    /\ shape sub = shape ts /\ typ sub = typ ts
    /\ data sub <> data ts
    /\ buffer h' sub = Some {| elem := k; cells := v |}
    /\ buffer h' ts = Some {| elem := k; cells := v |}
    /\ forall off x h'',
         Tensor_SetAt h' ts off (box k x) = Ok h'' ->
         buffer h'' sub = Some {| elem := k; cells := v |}.
Proof.
  intros Hwf Hx Hk Hb.
  pose proof (wf_positive _ _ Hwf) as Hp.
  destruct (GetSub_cells h ts _ k v Hwf Hx (Shape_Key_valid _ Hp) Hk Hb)
    as (sub & h' & buf & ld & E & Ht & Hs & Hwf' & Hx' & Hd & Hld & Hfr & Hbuf
        & Hlen & Hcells).
  rewrite sub_shape_Key in Hs.
  destruct (wf_buffer_kind _ _ _ Hwf Hk) as (v0 & Hb0 & Hl).
  rewrite Hb in Hb0. inversion Hb0; subst v0; clear Hb0.
  rewrite (Shape_Len_exact _ Hp Hx) in Hl.
  destruct (buffer_as_slice _ _ _ _ Hb) as (ls & Hds & Hhls & _).
  pose proof (lookup_lt_Some _ _ _ Hhls) as Hlsh.
  assert (Ebuf : buf = v).
  { apply list_eq_same_length with (length buf); [rewrite Hlen, Hs; lia | reflexivity |].
    intros o x y Ho Hbx Hvy.
    destruct (Hcells o Ho) as (z & Hvz & Hbz).
    rewrite Hs in Hvz.
    assert (Hrg : 0 <= Z.of_nat o < product (shape ts)) by (rewrite Hs in Hlen; lia).
    destruct (digits_spec (shape ts) (Z.of_nat o) Hp Hrg) as [Hin Hdot].
    rewrite merge_Key in Hvz by (apply in_bounds_length, Hin).
    rewrite Hdot, Nat2Z.id in Hvz. congruence. }
  subst buf.
  assert (Hbs : buffer h' sub = Some {| elem := k; cells := v |})
    by (rewrite (buffer_ref _ _ _ Hd); exact Hbuf).
  assert (Hbt : buffer h' ts = Some {| elem := k; cells := v |})
    by (rewrite (buffer_ref _ _ _ Hds), Hfr by exact Hlsh; exact Hhls).
  exists sub, h'. split; [exact E|]. split; [exact Hs|]. split; [exact Ht|].
  split; [rewrite Hd, Hds; intros Heq; inversion Heq; lia|].
  split; [exact Hbs|]. split; [exact Hbt|].
  intros off x h'' Eset.
  unfold Tensor_SetAt in Eset.
  destruct (Tensor_testOffset ts off); [|discriminate]. cbn in Eset.
  destruct (Tensor_setAt_buffer h' ts k v off x Hk Hbt) as (l1 & Hd1 & Es).
  rewrite Es in Eset.
  destruct (assign_Z v off x) as [v'|]; [|discriminate]. cbn in Eset.
  inversion Eset; subst h''.
  rewrite (buffer_ref _ _ _ Hd).
  rewrite list_lookup_insert_ne; [exact Hbuf|].
  rewrite Hds in Hd1. inversion Hd1; subst l1. lia.
Qed.

Lemma GetSub_of_Key_copies_witness :
  exists sub h',
    Tensor_GetSub heap_4x4 tensor_4x4 (Shape_Key (shape tensor_4x4))
      = Ok (sub, h')
    /\ shape sub = shape tensor_4x4 /\ typ sub = typ tensor_4x4
    /\ data sub <> data tensor_4x4
    /\ buffer h' sub = Some {| elem := KF64; cells := map Z.of_nat (seq 0 16) |}
    /\ buffer h' tensor_4x4
       = Some {| elem := KF64; cells := map Z.of_nat (seq 0 16) |}
    /\ forall off x h'',
         Tensor_SetAt h' tensor_4x4 off (box KF64 x) = Ok h'' ->
         buffer h'' sub = Some {| elem := KF64; cells := map Z.of_nat (seq 0 16) |}.
Proof.
  apply (GetSub_of_Key_copies heap_4x4 tensor_4x4 KF64).
  - exact heap_4x4_wf.
  - vm_compute. discriminate.
  - reflexivity.
  - reflexivity.
Defined.

(** X: what [GetSub] rejects.  A key that has not one entry per axis makes
    [GetSub] panic with [ErrDimMismatch]; a key of the right length with an
    entry below [-1], or not below the size of its axis, makes it panic with
    [ErrIndexOutOfRange]. *)
Theorem GetSub_rejects (h : heap) (ts : Tensor) (key : list Z) :
  (length key <> length (shape ts) ->
     Tensor_GetSub h ts key = Panic ErrDimMismatch)
  /\ (length key = length (shape ts) ->
      ~ Forall2 (fun x d => -1 <= x < d) key (shape ts) ->
      Tensor_GetSub h ts key = Panic ErrIndexOutOfRange).
Proof.
  rewrite Tensor_GetSub_unfold, Tensor_testKey_spec. split.
  - intros Hl. destruct (decide (length key = length (shape ts)));
      [contradiction | reflexivity].
  - intros Hl Hn. destruct (decide (length key = length (shape ts)));
      [|contradiction].
    destruct (decide (Forall2 _ key (shape ts))); [contradiction | reflexivity].
Qed.

Lemma GetSub_rejects_witness :
  Tensor_GetSub heap_4x4 tensor_4x4 [1] = Panic ErrDimMismatch
  /\ Tensor_GetSub heap_4x4 tensor_4x4 [1; -2] = Panic ErrIndexOutOfRange.
Proof.
  split.
  - apply (proj1 (GetSub_rejects heap_4x4 tensor_4x4 [1])). discriminate.
  - apply (proj2 (GetSub_rejects heap_4x4 tensor_4x4 [1; -2])); [reflexivity|].
    intros HF. inversion HF as [|? ? ? ? _ HF'].
    inversion HF' as [|? ? ? ? Hz _]. lia.
Defined.

(** ** Equality of tensors, again *)

Lemma ieee_eqb_sym f a b : ieee.eqb f a b = ieee.eqb f b a.
Proof.
  unfold ieee.eqb. rewrite (Z.eqb_sym a b).
  destruct (ieee.isNaN f a), (ieee.isNaN f b), (b =? a),
    (ieee.isZero f a), (ieee.isZero f b); reflexivity.
Qed.

Lemma elem_eqb_sym k a b : elem_eqb k a b = elem_eqb k b a.
Proof. destruct k; cbn; [apply Z.eqb_sym | apply ieee_eqb_sym..]. Qed.

Lemma Tensor_Equal_loop_sym k (v o : list Z) cnt :
  forall i, Tensor_Equal_loop k v o cnt i = Tensor_Equal_loop k o v cnt i.
Proof.
  induction cnt as [|c IH]; intros i; cbn [Tensor_Equal_loop]; [reflexivity|].
  unfold load. destruct (v !! i) as [a|], (o !! i) as [b|]; cbn; try reflexivity.
  rewrite (elem_eqb_sym k a b), IH. reflexivity.
Qed.

(** X: [Equal] is symmetric.  For two well-formed tensors of the same rank,
    [a.Equal(b)] and [b.Equal(a)] give the same answer. *)
Theorem Tensor_Equal_symmetric (h : heap) (a b : Tensor) :
  wf h a -> wf h b -> length (shape a) = length (shape b) ->
  Tensor_Equal h a b = Tensor_Equal h b a.
Proof.
  intros Ha Hb Hr. unfold Tensor_Equal.
  rewrite (Shape_Equal_same_rank _ _ Hr),
    (Shape_Equal_same_rank _ _ (eq_sym Hr)). cbn.
  do 2 case_bool_decide; try congruence; cbn; [|reflexivity].
  rewrite (Z.eqb_sym (typ b) (typ a)).
  destruct (Z.eqb_spec (typ a) (typ b)) as [Et|]; [|reflexivity]. cbn.
  destruct (wf_kind _ _ Ha) as [k Hk].
  assert (Hk' : kind_of (typ b) = Some k) by (rewrite <- Et; exact Hk).
  destruct (wf_buffer_kind _ _ _ Ha Hk) as (v & Hva & _).
  destruct (wf_buffer_kind _ _ _ Hb Hk') as (o & Hob & _).
  destruct (buffer_as_slice _ _ _ _ Hva) as (la & _ & _ & Hsa).
  destruct (buffer_as_slice _ _ _ _ Hob) as (lb & _ & _ & Hsb).
  rewrite <- Et.
  destruct (kind_of_cases _ _ Hk) as [[Ht ->]|[[Ht ->]|[Ht ->]]];
    rewrite Ht; cbn; rewrite Hsa, Hsb; cbn;
    replace (shape b) with (shape a) by assumption;
    apply Tensor_Equal_loop_sym.
Qed.

Lemma Tensor_Equal_symmetric_witness :
  Tensor_Equal heap_special tensor_pos_zero tensor_neg_zero
  = Tensor_Equal heap_special tensor_neg_zero tensor_pos_zero.
Proof.
  destruct heap_special_wf as (_ & Hp & Hm).
  apply (Tensor_Equal_symmetric heap_special tensor_pos_zero tensor_neg_zero).
  - exact Hp.
  - exact Hm.
  - reflexivity.
Defined.

(** ** The directed graph *)

Section digraph_facts.
Import digraph.

Lemma load_Z_Ok {A} (l : list A) (z : Z) (x : A) :
  load_Z l z = Ok x <-> 0 <= z /\ l !! Z.to_nat z = Some x.
Proof.
  unfold load_Z, load. destruct (Z.ltb_spec z 0).
  - split; [discriminate | lia].
  - destruct (l !! Z.to_nat z) as [y|]; split.
    + intros E; inversion E; auto.
    + intros [_ E]; inversion E; auto.
    + discriminate.
    + intros [_ E]; discriminate.
Qed.

Lemma load_Z_lt {A} (l : list A) (z : Z) :
  0 <= z < len l -> exists x, l !! Z.to_nat z = Some x /\ load_Z l z = Ok x.
Proof. apply load_Z_in_range. Qed.

Lemma assign_Z_lt {A} (l : list A) (z : Z) (x : A) :
  0 <= z < len l -> assign_Z l z x = Ok (<[Z.to_nat z := x]> l).
Proof.
  unfold len. intros H. unfold assign_Z. destruct (Z.ltb_spec z 0); [lia|].
  apply assign_lt. lia.
Qed.

Lemma sources_lookup g d srcLs :
  0 <= d -> edges g !! Z.to_nat d = Some srcLs -> sources g d = srcLs.
Proof.
  intros Hd E. unfold sources. destruct (Z.ltb_spec d 0); [lia|].
  rewrite E. reflexivity.
Qed.

Lemma sources_outside g d : ~ 0 <= d < len (edges g) -> sources g d = [].
Proof.
  unfold sources, len. intros H. destruct (Z.ltb_spec d 0); [reflexivity|].
  rewrite lookup_ge_None_2 by lia. reflexivity.
Qed.

Lemma InEdges_sources g d : Graph_InEdges g d = sources g d.
Proof.
  unfold Graph_InEdges, sources.
  destruct (Z.ltb_spec d 0), (Z.geb_spec d (len (edges g))); cbn;
    try reflexivity; try lia.
  unfold len in *. rewrite lookup_ge_None_2 by lia. reflexivity.
Qed.

Lemma wf_sources_range g s d :
  wf_graph g -> s ∈ sources g d -> 0 <= s < len (vertices g).
Proof.
  intros (_ & Hr & _) Hs. unfold sources in Hs.
  destruct (Z.ltb_spec d 0); [inversion Hs|].
  destruct (edges g !! Z.to_nat d) as [l|] eqn:E; [|inversion Hs].
  cbn in Hs. rewrite Forall_forall in Hr.
  specialize (Hr l (list_elem_of_lookup_2 _ _ _ E)).
  rewrite Forall_forall in Hr. exact (Hr s Hs).
Qed.

Lemma HasEdge_loop_spec l s : HasEdge_loop l s = bool_decide (s ∈ l).
Proof.
  induction l as [|x l IH]; cbn.
  - symmetry. apply bool_decide_eq_false_2. inversion 1.
  - destruct (Z.eqb_spec x s) as [->|Hne].
    + symmetry. apply bool_decide_eq_true_2. constructor.
    + rewrite IH. apply bool_decide_ext. rewrite elem_of_cons. intuition congruence.
Qed.

Lemma wf_load_sources g d :
  wf_graph g -> 0 <= d < len (vertices g) ->
  load_Z (edges g) d = Ok (sources g d)
  /\ edges g !! Z.to_nat d = Some (sources g d).
Proof.
  intros (Hl & _) Hd. unfold len in Hd.
  destruct (load_Z_lt (edges g) d ltac:(unfold len; lia)) as (l & E & El).
  rewrite (sources_lookup g d l) by (lia || exact E). auto.
Qed.

Lemma OutEdges_inner (node edge : Z) srcLs : forall acc x,
  x ∈ fold_left (fun dstLs dst => if dst =? node then dstLs ++ [edge] else dstLs)
        srcLs acc
  <-> x ∈ acc \/ (x = edge /\ node ∈ srcLs).
Proof.
  induction srcLs as [|d srcLs IH]; intros acc x; cbn.
  - split; [auto | intros [H|[_ H]]; [exact H | inversion H]].
  - rewrite IH. destruct (Z.eqb_spec d node) as [->|Hne].
    + rewrite elem_of_app, list_elem_of_singleton, elem_of_cons. intuition.
    + rewrite elem_of_cons. intuition congruence.
Qed.

Lemma OutEdges_loop_spec node rest : forall edge acc x,
  x ∈ OutEdges_loop node edge rest acc
  <-> x ∈ acc
      \/ exists (i : nat) srcLs, rest !! i = Some srcLs /\ node ∈ srcLs
           /\ x = edge + Z.of_nat i.
Proof.
  induction rest as [|srcLs rest IH]; intros edge acc x; cbn [OutEdges_loop].
  - split; [auto | intros [H|(i & l & E & _)]; [exact H | discriminate]].
  - rewrite IH, OutEdges_inner. split.
    + intros [[H|[-> H]]|(i & l & E & Hn & ->)].
      * auto.
      * right. exists 0%nat, srcLs. split; [reflexivity|]. split; [exact H | lia].
      * right. exists (S i), l. split; [exact E|]. split; [exact Hn | lia].
    + intros [H|(i & l & E & Hn & ->)]; [auto|].
      destruct i as [|i]; cbn in E.
      * inversion E; subst l. left; right. split; [lia | exact Hn].
      * right. exists i, l. split; [exact E|]. split; [exact Hn | lia].
Qed.

Lemma Graph_HasEdge_sources (g : Graph) (s d : Z) :
  wf_graph g -> Graph_HasEdge g s d = Ok (bool_decide (s ∈ sources g d)).
Proof.
  intros Hwf. pose proof Hwf as (Hl & Hr & _). unfold Graph_HasEdge.
  destruct (Z.ltb_spec s 0), (Z.geb_spec s (len (vertices g))); cbn;
    try (f_equal; symmetry; apply bool_decide_eq_false_2; intros Hs;
         apply (wf_sources_range _ _ _ Hwf) in Hs; lia).
  destruct (Z.ltb_spec d 0), (Z.geb_spec d (len (vertices g))); cbn;
    try (rewrite sources_outside by (unfold len in *; lia);
         f_equal; symmetry; apply bool_decide_eq_false_2; inversion 1).
  destruct (wf_load_sources g d Hwf ltac:(lia)) as [-> _]. cbn.
  rewrite HasEdge_loop_spec. reflexivity.
Qed.

Lemma Graph_OutEdges_sources (g : Graph) (s d : Z) :
  wf_graph g -> d ∈ Graph_OutEdges g s <-> s ∈ sources g d.
Proof.
  intros Hwf. pose proof Hwf as (Hl & Hr & _). unfold Graph_OutEdges.
  destruct (Z.ltb_spec s 0), (Z.geb_spec s (len (edges g))); cbn;
    try (split; [inversion 1 | intros Hs;
         apply (wf_sources_range _ _ _ Hwf) in Hs; unfold len in *; lia]).
  rewrite OutEdges_loop_spec. split.
  - intros [Ha|(i & l & E & Hn & ->)]; [inversion Ha|].
    rewrite (sources_lookup g (0 + Z.of_nat i) l);
      [exact Hn | lia | rewrite Z.add_0_l, Nat2Z.id; exact E].
  - intros Hs. right. unfold sources in Hs.
    destruct (Z.ltb_spec d 0); [inversion Hs|].
    destruct (edges g !! Z.to_nat d) as [l|] eqn:E; [|inversion Hs].
    exists (Z.to_nat d), l. split; [exact E|]. split; [exact Hs | lia].
Qed.

(** X: the three views of the edges agree.  On a graph of the package,
    [HasEdge(s, d)] is true exactly when [s] is among [InEdges(d)], and that
    is exactly when [d] is among [OutEdges(s)]; none of the three panics. *)
Theorem edge_views_agree (g : Graph) (s d : Z) :
  wf_graph g ->
  Graph_HasEdge g s d = Ok (bool_decide (s ∈ Graph_InEdges g d))
  /\ (d ∈ Graph_OutEdges g s <-> s ∈ Graph_InEdges g d).
Proof.
  intros Hwf. rewrite InEdges_sources.
  split; [apply Graph_HasEdge_sources | apply Graph_OutEdges_sources];
    exact Hwf.
Qed.

Lemma wf_graph_intro (g : Graph) :
  length (edges g) = length (vertices g) ->
  (forall d s, s ∈ sources g d -> 0 <= s < len (vertices g)) ->
  len (vertices g) <= max_int ->
  wf_graph g.
Proof.
  intros Hl Hr Hm. split; [exact Hl|]. split; [|exact Hm].
  apply Forall_forall. intros l Hin. apply Forall_forall. intros s Hs.
  apply list_elem_of_lookup_1 in Hin as [i Hi].
  apply (Hr (Z.of_nat i)). rewrite (sources_lookup g (Z.of_nat i) l);
    [exact Hs | lia | rewrite Nat2Z.id; exact Hi].
Qed.

Lemma sources_insert g es d l d' :
  0 <= d < len (edges g) ->
  edges es = <[Z.to_nat d := l]> (edges g) ->
  sources es d' = if decide (d' = d) then l else sources g d'.
Proof.
  unfold len. intros Hd E. unfold sources. rewrite E.
  destruct (decide (d' = d)) as [->|Hne].
  - destruct (Z.ltb_spec d 0); [lia|].
    rewrite list_lookup_insert_eq by lia. reflexivity.
  - destruct (Z.ltb_spec d' 0); [reflexivity|].
    rewrite list_lookup_insert_ne by lia. reflexivity.
Qed.

(** Replacing the sources of one vertex by vertices keeps the invariant. *)
Lemma wf_graph_insert g d l :
  wf_graph g -> 0 <= d < len (vertices g) ->
  (forall x, x ∈ l -> 0 <= x < len (vertices g)) ->
  wf_graph {| Graph_Name := Graph_Name g; vertices := vertices g;
              edges := <[Z.to_nat d := l]> (edges g) |}.
Proof.
  intros Hwf Hd Hx. pose proof Hwf as (Hl & Hr & Hm).
  assert (Hde : 0 <= d < len (edges g)) by (unfold len in *; lia).
  apply wf_graph_intro; cbn.
  - rewrite length_insert. exact Hl.
  - intros d' x. rewrite (sources_insert g _ d l d' Hde) by reflexivity.
    destruct (decide (d' = d)); [apply Hx | apply wf_sources_range, Hwf].
  - exact Hm.
Qed.

Lemma AddEdge_in_range g s d :
  wf_graph g -> 0 <= s < len (vertices g) -> 0 <= d < len (vertices g) ->
  Graph_AddEdge g s d =
    Ok ({| Graph_Name := Graph_Name g; vertices := vertices g;
           edges := <[Z.to_nat d := sources g d ++ [s]]> (edges g) |}, None).
Proof.
  intros Hwf Hs Hd. pose proof Hwf as (Hl & _). unfold Graph_AddEdge.
  destruct (Z.ltb_spec s 0), (Z.ltb_spec d 0),
    (Z.geb_spec s (len (vertices g))), (Z.geb_spec d (len (vertices g)));
    try lia. cbn.
  destruct (wf_load_sources g d Hwf Hd) as [-> _]. cbn.
  rewrite assign_Z_lt by (unfold len in *; lia). reflexivity.
Qed.

Lemma AddEdge_outside g s d :
  ~ (0 <= s < len (vertices g) /\ 0 <= d < len (vertices g)) ->
  Graph_AddEdge g s d = Ok (g, Some ErrNodeNoExist).
Proof.
  intros Hn. unfold Graph_AddEdge.
  destruct (Z.ltb_spec s 0), (Z.ltb_spec d 0),
    (Z.geb_spec s (len (vertices g))), (Z.geb_spec d (len (vertices g)));
    try reflexivity. lia.
Qed.

Lemma AddEdge_wf g s d g' e :
  wf_graph g -> Graph_AddEdge g s d = Ok (g', e) -> wf_graph g'.
Proof.
  intros Hwf E.
  destruct (decide (0 <= s < len (vertices g) /\ 0 <= d < len (vertices g)))
    as [[Hs Hd]|Hn].
  - rewrite (AddEdge_in_range g s d Hwf Hs Hd) in E. inversion E; subst.
    apply wf_graph_insert; [exact Hwf | exact Hd |].
    intros x. rewrite elem_of_app, list_elem_of_singleton.
    intros [Hx| ->]; [exact (wf_sources_range _ _ _ Hwf Hx) | exact Hs].
  - rewrite (AddEdge_outside g s d Hn) in E. inversion E; subst. exact Hwf.
Qed.

(** X: [AddEdge].  On a graph of the package, [AddEdge(s, d)] between two
    vertices returns nil and appends [s] to the sources of [d], so
    [HasEdge(s, d)] holds afterwards; the vertices and the sources of every
    other vertex are unchanged.  When [s] or [d] is not a vertex it returns
    [ErrNodeNoExist] and leaves the graph as it was. *)
Theorem AddEdge_spec (g : Graph) (s d : Z) :
  wf_graph g ->
  (0 <= s < Graph_LenNodes g /\ 0 <= d < Graph_LenNodes g ->
     exists g', Graph_AddEdge g s d = Ok (g', None)
       /\ wf_graph g'
       /\ vertices g' = vertices g
       /\ Graph_InEdges g' d = Graph_InEdges g d ++ [s]
       /\ (forall d', d' <> d -> Graph_InEdges g' d' = Graph_InEdges g d')
       /\ Graph_HasEdge g' s d = Ok true)
  /\ (~ (0 <= s < Graph_LenNodes g /\ 0 <= d < Graph_LenNodes g) ->
      Graph_AddEdge g s d = Ok (g, Some ErrNodeNoExist)).
Proof.
  intros Hwf. pose proof Hwf as (Hl & Hr & Hm). unfold Graph_LenNodes. split.
  - intros [Hs Hd].
    pose proof (AddEdge_in_range g s d Hwf Hs Hd) as E.
    assert (Hde : 0 <= d < len (edges g)) by (unfold len in *; lia).
    set (g' := {| Graph_Name := Graph_Name g; vertices := vertices g;
                  edges := <[Z.to_nat d := sources g d ++ [s]]> (edges g) |})
      in *.
    assert (Hsrc : forall d', sources g' d'
              = if decide (d' = d) then sources g d ++ [s] else sources g d')
      by (intros d'; apply (sources_insert g g' d _ d' Hde); reflexivity).
    pose proof (AddEdge_wf g s d g' None Hwf E) as Hwf'.
    exists g'. split; [exact E|]. split; [exact Hwf'|].
    split; [reflexivity|]. rewrite !InEdges_sources, Hsrc.
    destruct (decide (d = d)); [|contradiction]. split; [reflexivity|]. split.
    + intros d' Hne. rewrite !InEdges_sources, Hsrc.
      destruct (decide (d' = d)); [contradiction | reflexivity].
    + rewrite (Graph_HasEdge_sources g' s d Hwf'). f_equal.
      apply bool_decide_eq_true_2. rewrite Hsrc.
      destruct (decide (d = d)); [|contradiction].
      rewrite elem_of_app, list_elem_of_singleton. auto.
  - apply AddEdge_outside.
Qed.

Lemma AddNode_sources g name v d :
  wf_graph g ->
  sources (Graph_AddNode g name v).1 d = sources g d.
Proof.
  intros (Hl & _). unfold sources. cbn.
  destruct (Z.ltb_spec d 0); [reflexivity|].
  destruct (decide (Z.to_nat d < length (edges g))%nat).
  - rewrite lookup_app_l by lia. reflexivity.
  - rewrite (lookup_ge_None_2 (edges g)) by lia.
    destruct (decide (Z.to_nat d = length (edges g))) as [E|].
    + rewrite E, list_lookup_middle by reflexivity. reflexivity.
    + rewrite lookup_ge_None_2 by (rewrite length_app; cbn; lia). reflexivity.
Qed.

Lemma AddNode_wf g name v :
  wf_graph g -> len (vertices g) < max_int ->
  wf_graph (Graph_AddNode g name v).1.
Proof.
  intros Hwf Hm. pose proof Hwf as (Hl & _).
  assert (Hlen : len (vertices (Graph_AddNode g name v).1)
                 = len (vertices g) + 1)
    by (unfold len; cbn; rewrite length_app; cbn; lia).
  apply wf_graph_intro.
  - cbn. rewrite !length_app. cbn. lia.
  - intros d s. rewrite (AddNode_sources g name v d Hwf), Hlen. intros Hs.
    pose proof (wf_sources_range _ _ _ Hwf Hs). lia.
  - lia.
Qed.

(** X: [AddNode].  On a graph of the package with room for one more vertex,
    [AddNode] returns the number of vertices before the call; the new
    vertex is at that number, the older ones keep theirs, no edge is added
    or lost, and the new vertex has no edge. *)
Theorem AddNode_spec (g : Graph) (name : string) (v : any) :
  wf_graph g -> Graph_LenNodes g < max_int ->
  exists g', Graph_AddNode g name v = (g', Graph_LenNodes g)
    /\ wf_graph g'
    /\ Graph_LenNodes g' = Graph_LenNodes g + 1
    /\ Graph_NodeAt g' (Graph_LenNodes g)
       = Some {| Node_Name := name; Node_Value := v |}
    /\ (forall i, i <> Graph_LenNodes g -> Graph_NodeAt g' i = Graph_NodeAt g i)
    /\ (forall d, Graph_InEdges g' d = Graph_InEdges g d)
    /\ Graph_InEdges g' (Graph_LenNodes g) = []
    /\ Graph_OutEdges g' (Graph_LenNodes g) = [].
Proof.
  intros Hwf Hm. pose proof Hwf as (Hl & Hr & _). unfold Graph_LenNodes in *.
  set (g' := (Graph_AddNode g name v).1).
  assert (Hv : vertices g' = vertices g ++ [{| Node_Name := name; Node_Value := v |}])
    by reflexivity.
  assert (Hlen : len (vertices g') = len (vertices g) + 1)
    by (unfold len; rewrite Hv, length_app; cbn; lia).
  assert (Hsrc : forall d, sources g' d = sources g d)
    by (intros d; apply AddNode_sources, Hwf).
  assert (Hwf' : wf_graph g') by (apply AddNode_wf; assumption).
  exists g'. split; [reflexivity|]. split; [exact Hwf'|]. split; [exact Hlen|].
  split; [|split; [|split; [|split]]].
  - unfold Graph_NodeAt. rewrite Hlen.
    destruct (Z.ltb_spec (len (vertices g)) 0),
      (Z.geb_spec (len (vertices g)) (len (vertices g) + 1));
      try (unfold len in *; lia). cbn [orb]. rewrite Hv. unfold len.
    rewrite Nat2Z.id. apply list_lookup_middle. reflexivity.
  - intros i Hi. unfold Graph_NodeAt. rewrite Hlen.
    destruct (Z.ltb_spec i 0); [reflexivity|]. cbn [orb].
    destruct (Z.geb_spec i (len (vertices g) + 1)),
      (Z.geb_spec i (len (vertices g))); try lia; try reflexivity.
    + rewrite Hv. apply lookup_app_l. unfold len in *. lia.
  - intros d. rewrite !InEdges_sources. apply Hsrc.
  - rewrite InEdges_sources, Hsrc. apply sources_outside. unfold len in *. lia.
  - destruct (Graph_OutEdges g' (len (vertices g))) as [|x l] eqn:E;
      [reflexivity|]. exfalso.
    assert (Hx : x ∈ Graph_OutEdges g' (len (vertices g)))
      by (rewrite E; constructor).
    apply (Graph_OutEdges_sources g' _ x Hwf') in Hx.
    rewrite Hsrc in Hx.
    pose proof (wf_sources_range _ _ _ Hwf Hx). lia.
Qed.

Lemma RemoveEdge_loop_spec (l : list Z) (s : Z) cnt :
  forall i, (i + cnt = length l)%nat ->
  RemoveEdge_loop l s cnt i =
    Ok (if bool_decide (s ∈ drop i l)
        then Some (take i l ++ remove_first s (drop i l)) else None).
Proof.
  induction cnt as [|c IH]; intros i Hi; cbn [RemoveEdge_loop].
  - rewrite drop_ge by lia. rewrite bool_decide_eq_false_2 by inversion 1.
    reflexivity.
  - destruct (lookup_lt_is_Some_2 l i ltac:(lia)) as [x Hx].
    rewrite (load_Some _ _ _ Hx). cbn. rewrite (drop_S _ _ _ Hx).
    cbn [remove_first]. destruct (Z.eqb_spec x s) as [->|Hne].
    + rewrite bool_decide_eq_true_2 by constructor. reflexivity.
    + rewrite IH by lia. f_equal.
      rewrite (bool_decide_ext (s ∈ x :: drop (S i) l) (s ∈ drop (S i) l))
        by (rewrite elem_of_cons; intuition congruence).
      case_bool_decide; [|reflexivity].
      rewrite (take_S_r _ _ _ Hx), <- app_assoc. reflexivity.
Qed.

Lemma remove_first_subset s l x : x ∈ remove_first s l -> x ∈ l.
Proof.
  induction l as [|y l IH]; cbn; [auto|].
  destruct (y =? s); rewrite ?elem_of_cons; intuition.
Qed.

Lemma remove_first_absent s l : s ∉ l -> remove_first s l = l.
Proof.
  induction l as [|y l IH]; cbn; [auto|]. rewrite elem_of_cons.
  intros Hn. destruct (Z.eqb_spec y s); [intuition congruence|].
  f_equal. apply IH. intuition.
Qed.

Lemma RemoveEdge_in_range g s d :
  wf_graph g -> 0 <= s <= len (vertices g) -> 0 <= d < len (vertices g) ->
  Graph_RemoveEdge g s d =
    Ok (if bool_decide (s ∈ sources g d)
        then ({| Graph_Name := Graph_Name g; vertices := vertices g;
                 edges := <[Z.to_nat d := remove_first s (sources g d)]>
                            (edges g) |}, true)
        else (g, false)).
Proof.
  intros Hwf Hs Hd. pose proof Hwf as (Hl & _). unfold Graph_RemoveEdge.
  destruct (Z.ltb_spec s 0), (Z.ltb_spec d 0),
    (Z.gtb_spec s (len (vertices g))), (Z.gtb_spec d (len (vertices g)));
    try lia. cbn.
  destruct (wf_load_sources g d Hwf Hd) as [-> _]. cbn.
  rewrite RemoveEdge_loop_spec by lia. cbn. rewrite drop_0, take_0. cbn [app].
  case_bool_decide; [|reflexivity].
  rewrite assign_Z_lt by (unfold len in *; lia). reflexivity.
Qed.

Lemma RemoveEdge_at_len g s :
  wf_graph g -> 0 <= s <= len (vertices g) ->
  Graph_RemoveEdge g s (len (vertices g)) = Panic RuntimeIndex.
Proof.
  intros (Hl & _) Hs. unfold Graph_RemoveEdge.
  destruct (Z.ltb_spec s 0), (Z.ltb_spec (len (vertices g)) 0),
    (Z.gtb_spec s (len (vertices g))),
    (Z.gtb_spec (len (vertices g)) (len (vertices g)));
    try (unfold len in *; lia). cbn.
  unfold len. rewrite <- Hl, load_Z_at_length. reflexivity.
Qed.

Lemma RemoveEdge_outside g s d :
  s < 0 \/ len (vertices g) < s \/ d < 0 \/ len (vertices g) < d ->
  Graph_RemoveEdge g s d = Ok (g, false).
Proof.
  intros H. unfold Graph_RemoveEdge.
  destruct (Z.ltb_spec s 0), (Z.ltb_spec d 0),
    (Z.gtb_spec s (len (vertices g))), (Z.gtb_spec d (len (vertices g)));
    try reflexivity. lia.
Qed.

Lemma RemoveEdge_wf g s d g' b :
  wf_graph g -> Graph_RemoveEdge g s d = Ok (g', b) -> wf_graph g'.
Proof.
  intros Hwf E.
  destruct (decide (s < 0 \/ len (vertices g) < s \/ d < 0
                    \/ len (vertices g) < d)) as [Ho|Hi].
  { rewrite (RemoveEdge_outside g s d Ho) in E. inversion E; subst.
    exact Hwf. }
  destruct (decide (d = len (vertices g))) as [->|Hne].
  { rewrite RemoveEdge_at_len in E by (exact Hwf || lia). discriminate. }
  rewrite RemoveEdge_in_range in E by (exact Hwf || lia).
  case_bool_decide; inversion E; subst; [|exact Hwf].
  apply wf_graph_insert; [exact Hwf | lia |].
  intros x Hx. apply remove_first_subset in Hx.
  exact (wf_sources_range _ _ _ Hwf Hx).
Qed.

(** X: [RemoveEdge].  On a graph of the package, [RemoveEdge(s, d)] to a
    vertex [d] answers whether there is an edge from [s] to [d], and cuts
    one entry [s], the first, out of the sources of [d]: of two parallel
    edges one is left.  Nothing else changes. *)
Theorem RemoveEdge_spec (g : Graph) (s d : Z) :
  wf_graph g ->
  0 <= s <= Graph_LenNodes g -> 0 <= d < Graph_LenNodes g ->
  exists g',
    Graph_RemoveEdge g s d = Ok (g', bool_decide (s ∈ Graph_InEdges g d))
    /\ wf_graph g'
    /\ vertices g' = vertices g
    /\ Graph_InEdges g' d = remove_first s (Graph_InEdges g d)
    /\ (forall d', d' <> d -> Graph_InEdges g' d' = Graph_InEdges g d').
Proof.
  intros Hwf Hs Hd. pose proof Hwf as (Hl & Hr & Hm). unfold Graph_LenNodes in *.
  pose proof (RemoveEdge_in_range g s d Hwf Hs Hd) as E.
  assert (Hde : 0 <= d < len (edges g)) by (unfold len in *; lia).
  rewrite !InEdges_sources.
  case_bool_decide as Hin.
  - set (g' := {| Graph_Name := Graph_Name g; vertices := vertices g;
                  edges := <[Z.to_nat d := remove_first s (sources g d)]>
                             (edges g) |}) in *.
    assert (Hsrc : forall d', sources g' d'
              = if decide (d' = d) then remove_first s (sources g d)
                else sources g d')
      by (intros d'; apply (sources_insert g g' d _ d' Hde); reflexivity).
    exists g'. split; [exact E|].
    split; [exact (RemoveEdge_wf _ _ _ _ _ Hwf E)|]. split; [reflexivity|].
    split.
    + rewrite InEdges_sources, Hsrc.
      destruct (decide (d = d)); [reflexivity | contradiction].
    + intros d' Hne. rewrite !InEdges_sources, Hsrc.
      destruct (decide (d' = d)); [contradiction | reflexivity].
  - exists g. split; [exact E|]. split; [exact Hwf|].
    split; [reflexivity|]. rewrite InEdges_sources.
    split; [symmetry; apply remove_first_absent, Hin | reflexivity].
Qed.

(** X: the bound of [RemoveEdge] is off by one.  With [d] the number of
    vertices, which is not a vertex, [RemoveEdge(s, d)] passes the test of
    its arguments and stops on the runtime's index panic at
    [graph.edges[d]]; [AddEdge] and [HasEdge] reject the same arguments
    without a panic.  Beyond that number, and below zero, [RemoveEdge]
    returns false and leaves the graph as it was. *)
Theorem RemoveEdge_at_LenNodes (g : Graph) (s : Z) :
  wf_graph g -> 0 <= s <= Graph_LenNodes g ->
  Graph_RemoveEdge g s (Graph_LenNodes g) = Panic RuntimeIndex
  /\ Graph_AddEdge g s (Graph_LenNodes g) = Ok (g, Some ErrNodeNoExist)
  /\ Graph_HasEdge g s (Graph_LenNodes g) = Ok false
  /\ (forall d, d < 0 \/ Graph_LenNodes g < d ->
        Graph_RemoveEdge g s d = Ok (g, false)).
Proof.
  intros Hwf Hs. unfold Graph_LenNodes in *. split; [|split; [|split]].
  - apply RemoveEdge_at_len; assumption.
  - apply AddEdge_outside. lia.
  - unfold Graph_HasEdge.
    destruct (Z.geb_spec (len (vertices g)) (len (vertices g))); [|lia].
    rewrite !orb_true_r. destruct (_ || _); reflexivity.
  - intros d Hd. apply RemoveEdge_outside. lia.
Qed.

Lemma RemoveNodeAt_loop_spec (index : Z) (rest : list Z) :
  forall (fuel : nat) (pre : list Z),
  (length rest <= fuel)%nat ->
  Forall (fun x => min_int < x <= max_int) rest ->
  RemoveNodeAt_loop index fuel (pre ++ rest) (length pre)
  = pre ++ renumber index rest.
Proof.
  induction rest as [|x rest IH]; intros fuel pre Hf Hr.
  - cbn [renumber]. rewrite !app_nil_r. destruct fuel; cbn; [reflexivity|].
    rewrite lookup_ge_None_2 by lia. reflexivity.
  - destruct fuel as [|fuel]; [cbn in Hf; lia|]. cbn [RemoveNodeAt_loop renumber].
    rewrite list_lookup_middle by reflexivity.
    inversion Hr as [|? ? Hx Hr']; subst.
    destruct (Z.eqb_spec x index) as [->|Hne].
    + assert (Ed : drop (S (length pre)) (pre ++ index :: rest) = rest).
      { rewrite cons_middle, app_assoc. apply drop_app_length'.
        rewrite length_app. cbn. lia. }
      rewrite take_app_length, Ed. apply IH; [cbn in Hf; lia | exact Hr'].
    + assert (E : forall y, pre ++ y :: rest = (pre ++ [y]) ++ rest)
        by (intros y; rewrite <- app_assoc; reflexivity).
      assert (El : S (length pre) = length (pre ++ [x]))
        by (rewrite length_app; cbn; lia).
      destruct (Z.gtb_spec x index).
      * rewrite insert_app_r_alt, Nat.sub_diag by lia. cbn [insert list_insert].
        unfold sub. rewrite wrap_small by int_lia.
        rewrite (E (x - 1)).
        replace (S (length pre)) with (length (pre ++ [x - 1]))
          by (rewrite length_app; cbn; lia).
        rewrite IH by (cbn in Hf; lia || exact Hr').
        rewrite <- app_assoc. reflexivity.
      * rewrite (E x), El, IH by (cbn in Hf; lia || exact Hr').
        rewrite <- app_assoc. reflexivity.
Qed.

Lemma renumber_elem index l s' :
  s' ∈ renumber index l <-> before_removal index s' ∈ l.
Proof.
  unfold before_removal. induction l as [|x l IH]; cbn [renumber].
  - split; inversion 1.
  - destruct (Z.eqb_spec x index) as [->|Hne].
    + rewrite IH, elem_of_cons. destruct (Z.ltb_spec s' index); intuition lia.
    + rewrite !elem_of_cons, IH.
      destruct (Z.gtb_spec x index), (Z.ltb_spec s' index); intuition lia.
Qed.

Lemma wf_sources_bounds g l :
  wf_graph g -> l ∈ edges g -> Forall (fun x => min_int < x <= max_int) l.
Proof.
  intros (_ & Hr & Hm) Hl. rewrite Forall_forall in Hr. specialize (Hr l Hl).
  eapply Forall_impl; [exact Hr|]. cbn. intros x Hx. int_lia.
Qed.

Lemma RemoveNodeAt_sources g index :
  wf_graph g -> 0 <= index < len (vertices g) ->
  let g' := {| Graph_Name := Graph_Name g;
               vertices := delete (Z.to_nat index) (vertices g);
               edges := map (fun srcLs => RemoveNodeAt_loop index
                                            (length srcLs) srcLs 0)
                            (delete (Z.to_nat index) (edges g)) |} in
  forall d, 0 <= d < len (vertices g) - 1 ->
    sources g' d = renumber index (sources g (before_removal index d)).
Proof.
  intros Hwf Hi g' d Hd. pose proof Hwf as (Hl & Hr & Hm). unfold len in *.
  unfold sources at 1. destruct (Z.ltb_spec d 0); [lia|]. cbn [edges g'].
  rewrite list_lookup_fmap, list_lookup_delete.
  assert (Hb : 0 <= before_removal index d < Z.of_nat (length (edges g)))
    by (unfold before_removal; destruct (Z.ltb_spec d index); lia).
  destruct (load_Z_lt (edges g) (before_removal index d) Hb) as (l & El & _).
  rewrite (sources_lookup g _ l) by (lia || exact El).
  replace (if decide (Z.to_nat d < Z.to_nat index)%nat
           then Z.to_nat d else S (Z.to_nat d))
    with (Z.to_nat (before_removal index d)).
  2:{ unfold before_removal. destruct (decide _), (Z.ltb_spec d index); lia. }
  rewrite El. cbn.
  apply (RemoveNodeAt_loop_spec index l (length l) []); [lia|].
  apply (wf_sources_bounds g l Hwf), (list_elem_of_lookup_2 _ _ _ El).
Qed.

Lemma RemoveNodeAt_in_range g index :
  wf_graph g -> 0 <= index < len (vertices g) ->
  Graph_RemoveNodeAt g index =
    Ok ({| Graph_Name := Graph_Name g;
           vertices := delete (Z.to_nat index) (vertices g);
           edges := map (fun srcLs => RemoveNodeAt_loop index
                                        (length srcLs) srcLs 0)
                        (delete (Z.to_nat index) (edges g)) |}, true).
Proof.
  intros (Hl & _) Hi. unfold Graph_RemoveNodeAt.
  destruct (Z.ltb_spec index 0), (Z.geb_spec index (len (vertices g)));
    try lia. cbn [orb].
  destruct (Z.gtb_spec (index + 1) (len (edges g)));
    [unfold len in *; lia|].
  rewrite <- !delete_take_drop. reflexivity.
Qed.

Lemma RemoveNodeAt_outside g index :
  ~ 0 <= index < len (vertices g) -> Graph_RemoveNodeAt g index = Ok (g, false).
Proof.
  intros Hn. unfold Graph_RemoveNodeAt.
  destruct (Z.ltb_spec index 0), (Z.geb_spec index (len (vertices g)));
    try reflexivity. lia.
Qed.

Lemma RemoveNodeAt_sources_elem g index :
  wf_graph g -> 0 <= index < len (vertices g) ->
  let g' := {| Graph_Name := Graph_Name g;
               vertices := delete (Z.to_nat index) (vertices g);
               edges := map (fun srcLs => RemoveNodeAt_loop index
                                            (length srcLs) srcLs 0)
                            (delete (Z.to_nat index) (edges g)) |} in
  len (vertices g') = len (vertices g) - 1
  /\ forall d s, s ∈ sources g' d ->
        0 <= d < len (vertices g) - 1
        /\ before_removal index s ∈ sources g (before_removal index d).
Proof.
  intros Hwf Hi g'. pose proof Hwf as (Hl & Hr & Hm).
  pose proof (RemoveNodeAt_sources g index Hwf Hi) as Hsrc.
  fold g' in Hsrc. cbv zeta in Hsrc.
  split.
  { unfold len. cbn [vertices g']. rewrite length_delete
      by (apply lookup_lt_is_Some_2; unfold len in *; lia).
    unfold len in *. lia. }
  intros d s Hs.
  destruct (decide (0 <= d < len (vertices g) - 1)) as [Hd|Hd].
  - split; [exact Hd|]. rewrite Hsrc in Hs by exact Hd.
    apply renumber_elem, Hs.
  - rewrite sources_outside in Hs; [inversion Hs|].
    unfold len in *. cbn [edges g']. rewrite length_map, length_delete
      by (apply lookup_lt_is_Some_2; lia). lia.
Qed.

Lemma RemoveNodeAt_wf g index g' b :
  wf_graph g -> Graph_RemoveNodeAt g index = Ok (g', b) -> wf_graph g'.
Proof.
  intros Hwf E. pose proof Hwf as (Hl & _ & Hm).
  destruct (decide (0 <= index < len (vertices g))) as [Hi|Hn].
  2:{ rewrite (RemoveNodeAt_outside g index Hn) in E. inversion E; subst.
      exact Hwf. }
  rewrite (RemoveNodeAt_in_range g index Hwf Hi) in E. inversion E; subst.
  destruct (RemoveNodeAt_sources_elem g index Hwf Hi) as [Hlen Hrange].
  cbv zeta in Hlen, Hrange.
  apply wf_graph_intro.
  - cbn [edges vertices]. rewrite length_map, !length_delete
      by (apply lookup_lt_is_Some_2; unfold len in *; lia). lia.
  - intros d s Hs. destruct (Hrange d s Hs) as [_ Hb].
    pose proof (wf_sources_range _ _ _ Hwf Hb) as Hx.
    rewrite Hlen. unfold before_removal in Hx.
    destruct (Z.ltb_spec s index); lia.
  - lia.
Qed.

(** X: [RemoveNodeAt].  On a graph of the package, removing a vertex gives
    a graph with one vertex less in which the vertices above the removed
    one are renumbered one down: the vertex at a number is the one that was
    at that number, or at the next one from the removed number on; there is
    an edge between two numbers exactly when there was one between the
    vertices they stand for, so exactly the edges from and to the removed
    vertex are gone.  A number that is not a vertex is answered false and
    changes nothing. *)
Theorem RemoveNodeAt_spec (g : Graph) (index : Z) :
  wf_graph g ->
  (0 <= index < Graph_LenNodes g ->
     exists g', Graph_RemoveNodeAt g index = Ok (g', true)
       /\ wf_graph g'
       /\ Graph_LenNodes g' = Graph_LenNodes g - 1
       /\ (forall x, 0 <= x < Graph_LenNodes g' ->
             Graph_NodeAt g' x = Graph_NodeAt g (before_removal index x))
       /\ (forall s d, 0 <= s < Graph_LenNodes g' ->
             0 <= d < Graph_LenNodes g' ->
             (s ∈ Graph_InEdges g' d
              <-> before_removal index s
                    ∈ Graph_InEdges g (before_removal index d))))
  /\ (~ 0 <= index < Graph_LenNodes g ->
      Graph_RemoveNodeAt g index = Ok (g, false)).
Proof.
  intros Hwf. pose proof Hwf as (Hl & Hr & Hm). unfold Graph_LenNodes. split.
  - intros Hi. pose proof (RemoveNodeAt_in_range g index Hwf Hi) as E.
    set (g' := {| Graph_Name := Graph_Name g;
                  vertices := delete (Z.to_nat index) (vertices g);
                  edges := map (fun srcLs => RemoveNodeAt_loop index
                                               (length srcLs) srcLs 0)
                               (delete (Z.to_nat index) (edges g)) |}) in *.
    pose proof (RemoveNodeAt_sources g index Hwf Hi) as Hsrc.
    fold g' in Hsrc. cbv zeta in Hsrc.
    destruct (RemoveNodeAt_sources_elem g index Hwf Hi) as [Hlen _].
    fold g' in Hlen. cbv zeta in Hlen.
    exists g'. split; [exact E|].
    split; [exact (RemoveNodeAt_wf _ _ _ _ Hwf E)|].
    split; [exact Hlen|split].
    + intros x Hx. rewrite Hlen in Hx. unfold Graph_NodeAt. rewrite Hlen.
      unfold before_removal.
      destruct (Z.ltb_spec x 0), (Z.geb_spec x (len (vertices g) - 1));
        try lia. cbn [orb vertices g']. rewrite list_lookup_delete.
      destruct (Z.ltb_spec x index), (decide (Z.to_nat x < Z.to_nat index)%nat);
        try lia.
      * destruct (Z.ltb_spec x 0), (Z.geb_spec x (len (vertices g)));
          try lia. reflexivity.
      * destruct (Z.ltb_spec (x + 1) 0), (Z.geb_spec (x + 1) (len (vertices g)));
          try lia. cbn [orb]. f_equal. lia.
    + intros s d Hs Hd. rewrite Hlen in Hs, Hd. rewrite !InEdges_sources.
      rewrite Hsrc by exact Hd. apply renumber_elem.
  - apply RemoveNodeAt_outside.
Qed.

(** X: [LenEdges] counts the vertices.  Every graph that the exported
    functions build has one list of sources per vertex, with every source a
    vertex; [LenEdges] is the number of those lists, so it equals
    [LenNodes] whatever edges were added or removed. *)
Theorem LenEdges_counts_vertices (g : Graph) :
  built g -> wf_graph g /\ Graph_LenEdges g = Graph_LenNodes g.
Proof.
  assert (H : forall g, wf_graph g -> Graph_LenEdges g = Graph_LenNodes g).
  { intros g0 (Hl & _). unfold Graph_LenEdges, Graph_LenNodes, len. lia. }
  intros Hb. cut (wf_graph g); [auto|].
  induction Hb as [name | g name v Hb IH Hm | g s d g' e Hb IH E
                   | g s d g' b Hb IH E | g i g' b Hb IH E].
  - split; [reflexivity|]. split; [constructor|].
    change (0 <= max_int). int_lia.
  - apply AddNode_wf; assumption.
  - exact (AddEdge_wf _ _ _ _ _ IH E).
  - exact (RemoveEdge_wf _ _ _ _ _ IH E).
  - exact (RemoveNodeAt_wf _ _ _ _ IH E).
Qed.

(** *** The searches *)

Lemma marks_range n v l x : marks n v l -> x ∈ l -> 0 <= x < Z.of_nat n.
Proof. intros (_ & H & _). apply H. Qed.

Lemma marks_load n v l x :
  marks n v l -> 0 <= x < Z.of_nat n ->
  load_Z v x = Ok (bool_decide (x ∈ l)).
Proof.
  intros (Hl & Hr & Hm & _) Hx.
  destruct (load_Z_lt v x ltac:(unfold len; lia)) as (b & Eb & ->). f_equal.
  destruct b.
  - symmetry. apply bool_decide_eq_true_2, Hm; [lia | exact Eb].
  - symmetry. apply bool_decide_eq_false_2. intros Hin.
    apply Hm in Hin; [congruence | lia].
Qed.

Lemma marks_assign n v l x :
  marks n v l -> 0 <= x < Z.of_nat n -> x ∉ l ->
  exists v', assign_Z v x true = Ok v' /\ marks n v' (l ++ [x]).
Proof.
  intros (Hl & Hr & Hm & Hnd) Hx Hnin.
  exists (<[Z.to_nat x := true]> v).
  split; [apply assign_Z_lt; unfold len; lia|].
  split; [rewrite length_insert; exact Hl|]. split; [|split].
  - intros y. rewrite elem_of_app, list_elem_of_singleton.
    intros [Hy| ->]; [apply Hr, Hy | exact Hx].
  - intros y Hy. rewrite elem_of_app, list_elem_of_singleton.
    destruct (decide (y = x)) as [->|Hne].
    + rewrite list_lookup_insert_eq by lia. intuition.
    + rewrite list_lookup_insert_ne by lia. rewrite (Hm y Hy). intuition.
  - apply NoDup_app. split; [exact Hnd|]. split; [|apply NoDup_singleton].
    intros y Hy. rewrite list_elem_of_singleton. intros ->. contradiction.
Qed.

Lemma marks_length n v l : marks n v l -> (length l <= n)%nat.
Proof.
  intros (_ & Hr & _ & Hnd).
  assert (Hs : l ⊆+ seqZ 0 (Z.of_nat n)).
  { apply NoDup_submseteq; [exact Hnd|]. intros x Hx.
    apply elem_of_seqZ. specialize (Hr x Hx). lia. }
  apply submseteq_length in Hs. rewrite length_seqZ in Hs. lia.
Qed.

Lemma marks_init n : marks n (replicate n false) [].
Proof.
  split; [apply length_replicate|]. split; [inversion 1|].
  split; [|constructor]. intros x Hx. split; [|inversion 1].
  intros E. apply lookup_replicate in E as [E _]. discriminate.
Qed.

Lemma BFS_visit_unfold x q v :
  BFS_visit x (q, v) =
    (b ← load_Z v x;
     if negb b then v' ← assign_Z v x true; Ok (q ++ [x], v')
     else Ok (q, v)).
Proof. reflexivity. Qed.

(** The inner loop of [BFS]: every source that is not marked yet is marked
    and joins the queue. *)
Lemma BFS_inner (n : nat) (seq' : list Z) (srcLs : list Z) :
  forall q v,
  marks n v (seq' ++ q) ->
  (forall x, x ∈ srcLs -> 0 <= x < Z.of_nat n) ->
  exists added v',
    for_range srcLs BFS_visit (q, v) = Ok (q ++ added, v')
    /\ marks n v' (seq' ++ q ++ added)
    /\ (forall x, x ∈ srcLs -> x ∈ seq' ++ q ++ added)
    /\ (forall x, x ∈ added -> x ∈ srcLs).
Proof.
  induction srcLs as [|x rest IH]; intros q v Hm Hr.
  - exists [], v. rewrite !app_nil_r. cbn.
    split; [reflexivity|]. split; [exact Hm|]. split; inversion 1.
  - cbn [for_range]. rewrite BFS_visit_unfold.
    rewrite (marks_load n v _ x Hm) by (apply Hr; constructor). cbn.
    assert (Hr' : forall y, y ∈ rest -> 0 <= y < Z.of_nat n)
      by (intros y Hy; apply Hr; constructor; exact Hy).
    case_bool_decide as Hin; cbn.
    + destruct (IH q v Hm Hr') as (added & v' & E & Hm' & Hs & Ha).
      exists added, v'. split; [exact E|]. split; [exact Hm'|]. split.
      * intros y. rewrite elem_of_cons. intros [->|Hy]; [|apply Hs, Hy].
        rewrite app_assoc. apply elem_of_app. left. exact Hin.
      * intros y Hy. constructor. apply Ha, Hy.
    + destruct (marks_assign n v _ x Hm ltac:(apply Hr; constructor) Hin)
        as (v1 & -> & Hm1). cbn.
      rewrite <- app_assoc in Hm1.
      destruct (IH (q ++ [x]) v1 Hm1 Hr') as (added & v' & E & Hm' & Hs & Ha).
      exists (x :: added), v'. rewrite <- app_assoc in E, Hm', Hs.
      cbn [app] in E, Hm', Hs.
      split; [exact E|]. split; [exact Hm'|]. split.
      * intros y. rewrite elem_of_cons. intros [->|Hy]; [|apply Hs, Hy].
        rewrite !elem_of_app, elem_of_cons. auto.
      * intros y. rewrite !elem_of_cons. intros [->|Hy]; [auto|].
        right. apply Ha, Hy.
Qed.

Lemma BFS_loop_correct (g : Graph) (node : Z) :
  wf_graph g ->
  forall (fuel : nat) (queue : list Z) (v : list bool) (seq : list Z),
  marks (length (vertices g)) v (seq ++ queue) ->
  (forall x, x ∈ seq ++ queue -> reaches g node x) ->
  (forall y x, y ∈ seq -> x ∈ sources g y -> x ∈ seq ++ queue) ->
  (exists rest, seq ++ queue = node :: rest) ->
  (length (vertices g) + 1 <= fuel + length seq)%nat ->
  exists res,
    BFS_loop g fuel queue v seq = Some (Ok res)
    /\ head res = Some node
    /\ NoDup res
    /\ (forall x, x ∈ res <-> reaches g node x).
Proof.
  intros Hwf. set (n := length (vertices g)).
  induction fuel as [|fuel IH]; intros queue v seq Hm Hreach Hclosed Hhead Hfuel.
  - pose proof (marks_length _ _ _ Hm) as Hle. rewrite length_app in Hle.
    fold n in Hfuel. lia.
  - cbn [BFS_loop]. destruct queue as [|curr q].
    + rewrite app_nil_r in *. exists seq. split; [reflexivity|].
      split; [destruct Hhead as [rest ->]; reflexivity|].
      split; [apply Hm|]. intros x. split; [apply Hreach|].
      induction 1 as [|x y _ IHr He]; [|exact (Hclosed y x IHr He)].
      destruct Hhead as [rest ->]. constructor.
    + assert (Hc : 0 <= curr < len (vertices g)).
      { apply (marks_range _ _ _ curr Hm). rewrite elem_of_app, elem_of_cons.
        auto. }
      destruct (wf_load_sources g curr Hwf Hc) as [-> _].
      rewrite cons_middle, app_assoc in Hm.
      destruct (BFS_inner n (seq ++ [curr]) (sources g curr) q v Hm)
        as (added & v' & -> & Hm' & Hs & Ha).
      { intros x Hx. exact (wf_sources_range _ _ _ Hwf Hx). }
      assert (Emid : forall l : list Z,
                (seq ++ [curr]) ++ l = seq ++ curr :: l)
        by (intros l; rewrite <- app_assoc; reflexivity).
      apply IH.
      * exact Hm'.
      * intros x. rewrite Emid, app_comm_cons, app_assoc, elem_of_app.
        intros [Hx|Hx]; [apply Hreach, Hx|].
        apply (reaches_step g node x curr); [|apply Ha, Hx].
        apply Hreach. rewrite elem_of_app, elem_of_cons. auto.
      * intros y x. rewrite elem_of_app, list_elem_of_singleton.
        intros [Hy| ->] Hx; [|apply Hs, Hx].
        specialize (Hclosed y x Hy Hx).
        rewrite Emid, app_comm_cons, app_assoc, elem_of_app. auto.
      * destruct Hhead as [rest Hrest]. exists (rest ++ added).
        rewrite Emid, app_comm_cons, app_assoc, Hrest. reflexivity.
      * rewrite length_app. cbn. fold n. lia.
Qed.

(** X: [BFS].  On a graph of the package, [BFS] from a vertex returns: the
    queue empties within the rounds allowed.  The sequence starts with the
    vertex, holds no vertex twice, and holds exactly the vertices reached
    from it by following edges backwards.  From a number that is not a
    vertex, [BFS] stops on the runtime's index panic. *)
Theorem BFS_spec (g : Graph) (node : Z) :
  wf_graph g ->
  (0 <= node < Graph_LenNodes g ->
     exists sequence,
       Graph_BFS g node = Some (Ok sequence)
       /\ head sequence = Some node
       /\ NoDup sequence
       /\ (forall x, x ∈ sequence <-> reaches g node x))
  /\ (~ 0 <= node < Graph_LenNodes g ->
      Graph_BFS g node = Some (Panic RuntimeIndex)).
Proof.
  intros Hwf. unfold Graph_LenNodes, Graph_BFS. split.
  - intros Hn.
    destruct (marks_assign _ _ [] node (marks_init (length (vertices g))) Hn)
      as (v & -> & Hm); [inversion 1|].
    apply (BFS_loop_correct g node Hwf _ [node] v []).
    + exact Hm.
    + intros x Hx. apply list_elem_of_singleton in Hx as ->. constructor.
    + intros y x Hy. inversion Hy.
    + exists []. reflexivity.
    + cbn. lia.
  - intros Hn. unfold assign_Z, assign. rewrite length_replicate.
    destruct (Z.ltb_spec node 0); [reflexivity|].
    destruct (decide _); [unfold len in *; lia | reflexivity].
Qed.

Lemma sum_list_Permutation (l k : list nat) :
  l ≡ₚ k -> sum_list l = sum_list k.
Proof. induction 1; cbn; lia. Qed.

Lemma sum_list_app (l k : list nat) :
  sum_list (l ++ k) = (sum_list l + sum_list k)%nat.
Proof. induction l; cbn; lia. Qed.

Lemma length_concat_sum {A} (ls : list (list A)) :
  length (concat ls) = sum_list (map length ls).
Proof. induction ls as [|l ls IH]; cbn; [|rewrite length_app, IH]; reflexivity. Qed.

Lemma sources_seqZ g :
  map (sources g) (seqZ 0 (len (edges g))) = edges g.
Proof.
  apply list_eq. intros i. rewrite list_lookup_fmap. unfold len.
  destruct (decide (i < length (edges g))%nat) as [Hi|Hi].
  - rewrite lookup_seqZ_lt by lia. cbn.
    destruct (lookup_lt_is_Some_2 (edges g) i Hi) as [l El]. rewrite El.
    f_equal. apply sources_lookup; [lia|]. rewrite Z.add_0_l, Nat2Z.id.
    exact El.
  - rewrite lookup_seqZ_ge by lia. rewrite lookup_ge_None_2 by lia.
    reflexivity.
Qed.

Lemma weight_snoc g l y :
  weight g (l ++ [y]) = (weight g l + length (sources g y))%nat.
Proof. unfold weight. rewrite map_app, sum_list_app. cbn. lia. Qed.

Lemma weight_le g (l : list Z) :
  wf_graph g -> NoDup l -> (forall x, x ∈ l -> 0 <= x < len (vertices g)) ->
  (weight g l <= length (concat (edges g)))%nat.
Proof.
  intros (Hl & _) Hnd Hr.
  assert (Hs : l ⊆+ seqZ 0 (len (edges g))).
  { apply NoDup_submseteq; [exact Hnd|]. intros x Hx. apply elem_of_seqZ.
    specialize (Hr x Hx). unfold len in *. lia. }
  apply submseteq_Permutation in Hs as [k Hk].
  rewrite <- (sources_seqZ g) at 1. rewrite length_concat_sum, map_map.
  rewrite (sum_list_Permutation _ _
             (Permutation_map (fun y => length (sources g y)) Hk)).
  rewrite map_app, sum_list_app. unfold weight. lia.
Qed.

Lemma take_snoc {A} (l : list A) (x : A) :
  take (length (l ++ [x]) - 1) (l ++ [x]) = l.
Proof.
  rewrite length_app. cbn. replace (length l + 1 - 1)%nat with (length l) by lia.
  apply take_app_length.
Qed.

Lemma DFS_loop_correct (g : Graph) (node : Z) :
  wf_graph g ->
  forall (fuel : nat) (stack : list Z) (v : list bool) (seq : list Z),
  marks (length (vertices g)) v seq ->
  (forall x, x ∈ stack -> 0 <= x < len (vertices g) /\ reaches g node x) ->
  (forall x, x ∈ seq -> reaches g node x) ->
  (forall y x, y ∈ seq -> x ∈ sources g y -> x ∈ seq \/ x ∈ stack) ->
  (seq = [] /\ stack = [node] \/ exists rest, seq = node :: rest) ->
  (length (concat (edges g)) + 1 + length stack <= fuel + weight g seq)%nat ->
  exists res,
    DFS_loop g fuel stack v seq = Some (Ok res)
    /\ head res = Some node
    /\ NoDup res
    /\ (forall x, x ∈ res <-> reaches g node x).
Proof.
  intros Hwf.
  induction fuel as [|fuel IH];
    intros stack v seq Hm Hstack Hreach Hclosed Hstart Hfuel.
  - pose proof (weight_le g seq Hwf ltac:(apply Hm)
                  ltac:(intros x Hx; apply (marks_range _ _ _ _ Hm Hx))).
    lia.
  - cbn [DFS_loop]. destruct (last stack) as [curr|] eqn:Elast.
    + apply last_Some in Elast as [s' ->]. rewrite take_snoc.
      assert (Hc : 0 <= curr < len (vertices g) /\ reaches g node curr).
      { apply Hstack. rewrite elem_of_app, list_elem_of_singleton. auto. }
      destruct Hc as [Hc Hrc].
      rewrite (marks_load _ v seq curr Hm) by exact Hc.
      rewrite length_app in Hfuel. cbn [length] in Hfuel.
      case_bool_decide as Hin.
      * apply IH; try assumption.
        -- intros x Hx. apply Hstack. rewrite elem_of_app. auto.
        -- intros y x Hy Hx. destruct (Hclosed y x Hy Hx) as [H|H]; [auto|].
           apply elem_of_app in H as [H|H]; [auto|].
           apply list_elem_of_singleton in H as ->. auto.
        -- destruct Hstart as [[-> _]|H]; [inversion Hin | auto].
        -- lia.
      * destruct (marks_assign _ v seq curr Hm Hc Hin) as (v' & -> & Hm').
        destruct (wf_load_sources g curr Hwf Hc) as [-> _].
        apply IH.
        -- exact Hm'.
        -- intros x. rewrite elem_of_app. intros [Hx|Hx].
           ++ apply Hstack. rewrite elem_of_app. auto.
           ++ split; [exact (wf_sources_range _ _ _ Hwf Hx)|].
              exact (reaches_step g node x curr Hrc Hx).
        -- intros x. rewrite elem_of_app, list_elem_of_singleton.
           intros [Hx| ->]; [apply Hreach, Hx | exact Hrc].
        -- intros y x Hy Hx. rewrite !elem_of_app, list_elem_of_singleton.
           apply elem_of_app in Hy as [Hy|Hy].
           ++ destruct (Hclosed y x Hy Hx) as [H|H]; [auto|].
              apply elem_of_app in H as [H|H]; [auto|].
              apply list_elem_of_singleton in H. auto.
           ++ apply list_elem_of_singleton in Hy as ->. auto.
        -- right. destruct Hstart as [[-> Hs]|[rest ->]].
           ++ apply (app_inj_tail s' [] curr node) in Hs as [_ ->].
              exists []. reflexivity.
           ++ exists (rest ++ [curr]). reflexivity.
        -- rewrite weight_snoc, length_app. lia.
    + apply last_None in Elast as ->. exists seq. split; [reflexivity|].
      destruct Hstart as [[_ Hs]|[rest ->]]; [discriminate|].
      split; [reflexivity|]. split; [apply Hm|].
      intros x. split; [apply Hreach|].
      induction 1 as [|x y _ IHr He]; [constructor|].
      destruct (Hclosed y x IHr He) as [H|H]; [exact H | inversion H].
Qed.

(** X: [DFS].  On a graph of the package, [DFS] from a vertex returns: the
    stack empties within the rounds allowed.  The sequence starts with the
    vertex, holds no vertex twice, and holds exactly the vertices reached
    from it by following edges backwards.  From a number that is not a
    vertex, [DFS] stops on the runtime's index panic. *)
Theorem DFS_spec (g : Graph) (node : Z) :
  wf_graph g ->
  (0 <= node < Graph_LenNodes g ->
     exists sequence,
       Graph_DFS g node = Some (Ok sequence)
       /\ head sequence = Some node
       /\ NoDup sequence
       /\ (forall x, x ∈ sequence <-> reaches g node x))
  /\ (~ 0 <= node < Graph_LenNodes g ->
      Graph_DFS g node = Some (Panic RuntimeIndex)).
Proof.
  intros Hwf. unfold Graph_LenNodes, Graph_DFS, DFS_fuel. split.
  - intros Hn. apply (DFS_loop_correct g node Hwf).
    + apply marks_init.
    + intros x Hx. apply list_elem_of_singleton in Hx as ->.
      split; [exact Hn | constructor].
    + inversion 1.
    + intros y x Hy. inversion Hy.
    + left. auto.
    + cbn. lia.
  - intros Hn. cbn [DFS_loop last take length Nat.sub].
    unfold load_Z, load. destruct (Z.ltb_spec node 0); [reflexivity|].
    rewrite lookup_ge_None_2 by (rewrite length_replicate; unfold len in *; lia).
    reflexivity.
Qed.

Lemma swap_ends_reverse (s : list Z) : swap_ends s = Ok (reverse s).
Proof.
  unfold swap_ends. set (n := length s).
  destruct (for_up_inv
    (fun i (c : list Z) => length c = n /\
       forall k, (k < n)%nat ->
         c !! k = s !! (if decide (k < i \/ n - i <= k)%nat
                        then (n - 1 - k)%nat else k))
    (fun i c => a ← load c i; b ← load c (length c - 1 - i)%nat;
                c' ← assign c i b; assign c' (length c - 1 - i)%nat a)
    (n / 2)%nat 0%nat s) as (c & E & Hlen & Hc).
  - split; [reflexivity|]. intros k Hk.
    destruct (decide _) as [[H|H]|_]; [lia | lia | reflexivity].
  - intros j c Hj [Hlen Hc].
    assert (Hj2 : (2 * j < n)%nat).
    { pose proof (Nat.div_mod_eq n 2). pose proof (Nat.mod_upper_bound n 2).
      lia. }
    destruct (lookup_lt_is_Some_2 c j ltac:(lia)) as [a Ha].
    destruct (lookup_lt_is_Some_2 c (n - 1 - j) ltac:(lia)) as [b Hb].
    rewrite Hlen, (load_Some _ _ _ Ha). cbn.
    rewrite (load_Some _ _ _ Hb). cbn. rewrite assign_lt by lia. cbn.
    rewrite assign_lt by (rewrite length_insert; lia).
    eexists. split; [reflexivity|].
    split; [rewrite !length_insert; exact Hlen|]. intros k Hk.
    rewrite (Hc j) in Ha by lia. rewrite (Hc (n - 1 - j)%nat) in Hb by lia.
    destruct (decide (j < j \/ n - j <= j)%nat) as [H|_] in Ha; [lia|].
    destruct (decide (n - 1 - j < j \/ n - j <= n - 1 - j)%nat) as [H|_] in Hb;
      [lia|].
    destruct (decide (k = n - 1 - j)%nat) as [->|Hne1].
    + rewrite list_lookup_insert_eq by (rewrite length_insert; lia).
      destruct (decide _) as [_|H]; [|lia].
      rewrite <- Ha. f_equal. lia.
    + rewrite list_lookup_insert_ne by lia.
      destruct (decide (k = j)) as [->|Hne2].
      * rewrite list_lookup_insert_eq by lia.
        destruct (decide _) as [_|H]; [|lia]. congruence.
      * rewrite list_lookup_insert_ne by lia. rewrite (Hc k Hk).
        destruct (decide (k < j \/ n - j <= k)%nat),
          (decide (k < S j \/ n - S j <= k)%nat); try reflexivity; lia.
  - rewrite E. f_equal. apply list_eq_same_length with n;
      [apply length_reverse | exact Hlen |].
    intros k x y Hk Hx Hy. rewrite (Hc k Hk) in Hx.
    rewrite reverse_lookup in Hy by (fold n; lia). fold n in Hy.
    assert (Hh : (2 * (n / 2) <= n <= 2 * (n / 2) + 1)%nat).
    { pose proof (Nat.div_mod_eq n 2). pose proof (Nat.mod_upper_bound n 2).
      lia. }
    destruct (decide _) as [H|H] in Hx.
    + replace (n - S k)%nat with (n - 1 - k)%nat in Hy by lia. congruence.
    + replace (n - S k)%nat with k in Hy by lia. congruence.
Qed.

(** X: [ReverseBFS].  On a graph of the package, [ReverseBFS] from a vertex
    returns the sequence of [BFS] read backwards; the swapping loop never
    indexes outside the sequence. *)
Theorem ReverseBFS_spec (g : Graph) (node : Z) :
  wf_graph g -> 0 <= node < Graph_LenNodes g ->
  exists sequence,
    Graph_BFS g node = Some (Ok sequence)
    /\ Graph_ReverseBFS g node = Some (Ok (reverse sequence))
    /\ last (reverse sequence) = Some node.
Proof.
  intros Hwf Hn. unfold Graph_LenNodes in Hn. unfold Graph_ReverseBFS.
  destruct (marks_assign _ _ [] node (marks_init (length (vertices g))) Hn)
    as (v & Ev & Hm); [inversion 1|].
  destruct (BFS_loop_correct g node Hwf (S (length (vertices g))) [node] v [])
    as (seq & E & Hh & _).
  - exact Hm.
  - intros x Hx. apply list_elem_of_singleton in Hx as ->. constructor.
  - intros y x Hy. inversion Hy.
  - exists []. reflexivity.
  - cbn. lia.
  - exists seq. unfold Graph_BFS. rewrite Ev, E, swap_ends_reverse.
    split; [reflexivity|]. split; [reflexivity|].
    destruct seq as [|x seq]; [discriminate|]. cbn in Hh. inversion Hh; subst.
    rewrite reverse_cons. apply last_snoc.
Qed.

(** *** The scenarios of the package's tests *)

Lemma wf_graph_sample (g : Graph) :
  length (edges g) = length (vertices g) ->
  forallb (forallb (fun s => (0 <=? s) && (s <? len (vertices g)))) (edges g)
    = true ->
  len (vertices g) <= max_int ->
  wf_graph g.
Proof.
  intros Hl Hb Hm. split; [exact Hl|]. split; [|exact Hm].
  apply Forall_forall. intros l Hin. apply Forall_forall. intros s Hs.
  rewrite forallb_forall in Hb. apply list_elem_of_In in Hin.
  specialize (Hb l Hin). rewrite forallb_forall in Hb.
  apply list_elem_of_In in Hs. specialize (Hb s Hs). lia.
Qed.

Lemma graph_2_wf : wf_graph graph_2.
Proof. apply wf_graph_sample; [reflexivity | reflexivity | vm_compute; discriminate]. Qed.

Lemma graph_test_wf : wf_graph graph_test.
Proof. apply wf_graph_sample; [reflexivity | reflexivity | vm_compute; discriminate]. Qed.

Lemma graph_dfs_wf : wf_graph graph_dfs.
Proof. apply wf_graph_sample; [reflexivity | reflexivity | vm_compute; discriminate]. Qed.

Lemma graph_bfs_wf : wf_graph graph_bfs.
Proof. apply wf_graph_sample; [reflexivity | reflexivity | vm_compute; discriminate]. Qed.

Example test_Graph_build :
  add_edges (add_nodes (New "mygraph") ["0"; "1"; "2"; "3"; "4"; "5"; "6"])
    [(0, 1); (0, 2); (0, 3); (2, 4); (2, 5); (3, 6); (6, 4); (3, 3); (4, 3);
     (1, 5); (3, 5); (3, 5); (3, 0)]
  = Ok graph_test.
Proof. reflexivity. Qed.

(** [TestGraph]: of the two edges from 3 to 5 one is left after
    [RemoveEdge(3, 5)]. *)
Example test_Graph :
  ('(g, r1) ← Graph_RemoveEdge graph_test 3 5;
   '(g, r2) ← Graph_RemoveEdge g 3 3;
   h1 ← Graph_HasEdge g 3 6;
   h2 ← Graph_HasEdge g 2 1;
   h3 ← Graph_HasEdge g 3 5;
   '(g', r3) ← Graph_RemoveNodeAt g 3;
   Ok (r1, r2, h1, h2, h3, Graph_OutEdges g 3, Graph_InEdges g 3, r3, edges g'))
  = Ok (true, true, true, false, true, [0; 5; 6], [0; 4], true,
        [[]; [0]; [0]; [2; 5]; [2; 1]; []]).
Proof. reflexivity. Qed.

Example test_DFS :
  add_edges (add_nodes (New "G") names_a_j)
    [(9, 7); (8, 7); (7, 0); (6, 0); (5, 1); (4, 2); (3, 2); (2, 1); (1, 0)]
  = Ok graph_dfs
  /\ Graph_DFS graph_dfs 0 = Some (Ok [0; 1; 2; 3; 4; 5; 6; 7; 8; 9]).
Proof. split; reflexivity. Qed.

Example test_BFS :
  add_edges (add_nodes (New "G") names_a_j)
    [(3, 2); (4, 2); (2, 1); (1, 0); (6, 0); (7, 0); (5, 1); (8, 7); (9, 7)]
  = Ok graph_bfs
  /\ Graph_BFS graph_bfs 0 = Some (Ok [0; 1; 6; 7; 2; 5; 8; 9; 3; 4])
  /\ Graph_ReverseBFS graph_bfs 0 = Some (Ok [4; 3; 9; 8; 5; 2; 7; 6; 1; 0]).
Proof. repeat split; reflexivity. Qed.

Lemma graph_2_built : built graph_2.
Proof.
  apply (built_AddEdge (add_nodes (New "g") ["A"; "B"]) 0 1 graph_2 None);
    [|reflexivity].
  apply (built_AddNode (add_nodes (New "g") ["A"]) "B" Other);
    [|vm_compute; reflexivity].
  apply (built_AddNode (New "g") "A" Other); [|vm_compute; reflexivity].
  constructor.
Qed.

Lemma edge_views_agree_witness :
  Graph_HasEdge graph_test 3 5
    = Ok (bool_decide (3 ∈ Graph_InEdges graph_test 5))
  /\ (5 ∈ Graph_OutEdges graph_test 3 <-> 3 ∈ Graph_InEdges graph_test 5).
Proof. apply (edge_views_agree graph_test 3 5). exact graph_test_wf. Defined.

Lemma AddEdge_spec_witness :
  (0 <= 1 < Graph_LenNodes graph_2 /\ 0 <= 0 < Graph_LenNodes graph_2 ->
     exists g', Graph_AddEdge graph_2 1 0 = Ok (g', None)
       /\ wf_graph g'
       /\ vertices g' = vertices graph_2
       /\ Graph_InEdges g' 0 = Graph_InEdges graph_2 0 ++ [1]
       /\ (forall d', d' <> 0 -> Graph_InEdges g' d' = Graph_InEdges graph_2 d')
       /\ Graph_HasEdge g' 1 0 = Ok true)
  /\ (~ (0 <= 1 < Graph_LenNodes graph_2 /\ 0 <= 0 < Graph_LenNodes graph_2) ->
      Graph_AddEdge graph_2 1 0 = Ok (graph_2, Some ErrNodeNoExist)).
Proof. apply (AddEdge_spec graph_2 1 0). exact graph_2_wf. Defined.

Lemma AddNode_spec_witness :
  exists g', Graph_AddNode graph_2 "C" Other = (g', Graph_LenNodes graph_2)
    /\ wf_graph g'
    /\ Graph_LenNodes g' = Graph_LenNodes graph_2 + 1
    /\ Graph_NodeAt g' (Graph_LenNodes graph_2)
       = Some {| Node_Name := "C"; Node_Value := Other |}
    /\ (forall i, i <> Graph_LenNodes graph_2 ->
          Graph_NodeAt g' i = Graph_NodeAt graph_2 i)
    /\ (forall d, Graph_InEdges g' d = Graph_InEdges graph_2 d)
    /\ Graph_InEdges g' (Graph_LenNodes graph_2) = []
    /\ Graph_OutEdges g' (Graph_LenNodes graph_2) = [].
Proof.
  apply (AddNode_spec graph_2 "C" Other); [exact graph_2_wf|].
  vm_compute. reflexivity.
Defined.

Lemma RemoveEdge_spec_witness :
  exists g',
    Graph_RemoveEdge graph_test 3 5
      = Ok (g', bool_decide (3 ∈ Graph_InEdges graph_test 5))
    /\ wf_graph g'
    /\ vertices g' = vertices graph_test
    /\ Graph_InEdges g' 5 = remove_first 3 (Graph_InEdges graph_test 5)
    /\ (forall d', d' <> 5 -> Graph_InEdges g' d' = Graph_InEdges graph_test d').
Proof.
  apply (RemoveEdge_spec graph_test 3 5); [exact graph_test_wf | |];
    vm_compute; split; (discriminate || reflexivity).
Defined.

Lemma RemoveEdge_at_LenNodes_witness :
  Graph_RemoveEdge graph_2 0 (Graph_LenNodes graph_2) = Panic RuntimeIndex
  /\ Graph_AddEdge graph_2 0 (Graph_LenNodes graph_2)
     = Ok (graph_2, Some ErrNodeNoExist)
  /\ Graph_HasEdge graph_2 0 (Graph_LenNodes graph_2) = Ok false
  /\ (forall d, d < 0 \/ Graph_LenNodes graph_2 < d ->
        Graph_RemoveEdge graph_2 0 d = Ok (graph_2, false)).
Proof.
  apply (RemoveEdge_at_LenNodes graph_2 0); [exact graph_2_wf|].
  vm_compute. split; discriminate.
Defined.

Lemma RemoveNodeAt_spec_witness :
  (0 <= 3 < Graph_LenNodes graph_test ->
     exists g', Graph_RemoveNodeAt graph_test 3 = Ok (g', true)
       /\ wf_graph g'
       /\ Graph_LenNodes g' = Graph_LenNodes graph_test - 1
       /\ (forall x, 0 <= x < Graph_LenNodes g' ->
             Graph_NodeAt g' x = Graph_NodeAt graph_test (before_removal 3 x))
       /\ (forall s d, 0 <= s < Graph_LenNodes g' ->
             0 <= d < Graph_LenNodes g' ->
             (s ∈ Graph_InEdges g' d
              <-> before_removal 3 s
                    ∈ Graph_InEdges graph_test (before_removal 3 d))))
  /\ (~ 0 <= 3 < Graph_LenNodes graph_test ->
      Graph_RemoveNodeAt graph_test 3 = Ok (graph_test, false)).
Proof. apply (RemoveNodeAt_spec graph_test 3). exact graph_test_wf. Defined.

Lemma LenEdges_counts_vertices_witness :
  wf_graph graph_2 /\ Graph_LenEdges graph_2 = Graph_LenNodes graph_2.
Proof. apply (LenEdges_counts_vertices graph_2). exact graph_2_built. Defined.

Lemma BFS_spec_witness :
  (0 <= 0 < Graph_LenNodes graph_bfs ->
     exists sequence,
       Graph_BFS graph_bfs 0 = Some (Ok sequence)
       /\ head sequence = Some 0
       /\ NoDup sequence
       /\ (forall x, x ∈ sequence <-> reaches graph_bfs 0 x))
  /\ (~ 0 <= 0 < Graph_LenNodes graph_bfs ->
      Graph_BFS graph_bfs 0 = Some (Panic RuntimeIndex)).
Proof. apply (BFS_spec graph_bfs 0). exact graph_bfs_wf. Defined.

Lemma DFS_spec_witness :
  (0 <= 0 < Graph_LenNodes graph_dfs ->
     exists sequence,
       Graph_DFS graph_dfs 0 = Some (Ok sequence)
       /\ head sequence = Some 0
       /\ NoDup sequence
       /\ (forall x, x ∈ sequence <-> reaches graph_dfs 0 x))
  /\ (~ 0 <= 0 < Graph_LenNodes graph_dfs ->
      Graph_DFS graph_dfs 0 = Some (Panic RuntimeIndex)).
Proof. apply (DFS_spec graph_dfs 0). exact graph_dfs_wf. Defined.

Lemma ReverseBFS_spec_witness :
  exists sequence,
    Graph_BFS graph_bfs 0 = Some (Ok sequence)
    /\ Graph_ReverseBFS graph_bfs 0 = Some (Ok (reverse sequence))
    /\ last (reverse sequence) = Some 0.
Proof.
  apply (ReverseBFS_spec graph_bfs 0); [exact graph_bfs_wf|].
  vm_compute. split; [discriminate | reflexivity].
Defined.

(** *** Cycle detection *)

Lemma unvisited_le (v : list bool) : (unvisited v <= length v)%nat.
Proof. induction v as [|[] v IH]; cbn; lia. Qed.

Lemma unvisited_insert (v : list bool) (i : nat) :
  v !! i = Some false ->
  (unvisited (<[i := true]> v) + 1 = unvisited v)%nat.
Proof.
  revert i. induction v as [|b v IH]; intros [|i] E; try discriminate.
  - cbn in E. inversion E; subst. cbn. lia.
  - cbn in E. specialize (IH i E).
    change (<[S i := true]> (b :: v)) with (b :: <[i := true]> v).
    cbn [unvisited]. destruct b; cbv iota; lia.
Qed.

Lemma unvisited_mono (v v' : list bool) :
  length v = length v' ->
  (forall i, v !! i = Some true -> v' !! i = Some true) ->
  (unvisited v' <= unvisited v)%nat.
Proof.
  revert v'. induction v as [|b v IH]; intros [|b' v'] Hl Hm;
    try discriminate; [cbn; lia|].
  cbn in Hl. assert (IH' := IH v' ltac:(lia) (fun i => Hm (S i))).
  destruct b, b'; cbn; try lia.
  specialize (Hm 0%nat eq_refl). discriminate.
Qed.

Lemma black_closed g v r y :
  colours g v r -> black v r y -> forall z, reaches g y z -> black v r z.
Proof.
  intros (_ & _ & _ & Hc & _) Hy z Hz.
  induction Hz as [|z w _ IH He]; [exact Hy|]. exact (Hc w z IH He).
Qed.

Lemma edge_range g x y : wf_graph g -> edge g x y ->
  0 <= x < len (vertices g) /\ 0 <= y < len (vertices g).
Proof.
  intros Hwf He. split; [exact (wf_sources_range g x y Hwf He)|].
  destruct Hwf as (Hl & _).
  destruct (decide (0 <= y < len (edges g))) as [Hy|Hy].
  - unfold len in *. lia.
  - unfold edge in He. rewrite sources_outside in He by exact Hy.
    inversion He.
Qed.

Lemma colours_init g :
  colours g (replicate (length (vertices g)) false)
            (replicate (length (vertices g)) false).
Proof.
  assert (Hb : forall x, ~ black (replicate (length (vertices g)) false)
                           (replicate (length (vertices g)) false) x).
  { intros x (_ & E & _). apply lookup_replicate in E as [E _].
    discriminate. }
  split; [apply length_replicate|]. split; [apply length_replicate|].
  split.
  { intros i E. apply lookup_replicate in E as [E _]. discriminate. }
  split; intros x y Hx; destruct (Hb x Hx).
Qed.

(** A vertex that is visited and not grey is black. *)
Lemma black_intro g v r x :
  colours g v r -> 0 <= x < len (vertices g) ->
  v !! Z.to_nat x = Some true -> r !! Z.to_nat x <> Some true ->
  black v r x.
Proof.
  intros (_ & Hr & _) Hx Hv Hn. split; [lia|]. split; [exact Hv|].
  destruct (lookup_lt_is_Some_2 r (Z.to_nat x)) as [[] E];
    [unfold len in Hx; lia | contradiction | exact E].
Qed.

(** Entering a vertex: it turns grey. *)
Lemma colours_enter g v r node :
  colours g v r -> 0 <= node < len (vertices g) ->
  v !! Z.to_nat node = Some false ->
  colours g (<[Z.to_nat node := true]> v) (<[Z.to_nat node := true]> r).
Proof.
  intros (Hv & Hr & Hg & Hc & Ha) Hn Ev.
  assert (Hb : forall x, black (<[Z.to_nat node := true]> v)
                           (<[Z.to_nat node := true]> r) x -> black v r x).
  { intros x (Hx & E1 & E2).
    destruct (decide (Z.to_nat x = Z.to_nat node)) as [E|E].
    - rewrite E, list_lookup_insert_eq in E2 by (unfold len in Hn; lia).
      discriminate.
    - rewrite list_lookup_insert_ne in E1, E2 by auto. split; auto. }
  assert (Hb' : forall x, black v r x ->
                  black (<[Z.to_nat node := true]> v)
                        (<[Z.to_nat node := true]> r) x).
  { intros x (Hx & E1 & E2).
    assert (Z.to_nat x <> Z.to_nat node) by congruence.
    split; [exact Hx|]. rewrite !list_lookup_insert_ne by auto. auto. }
  split; [rewrite length_insert; exact Hv|].
  split; [rewrite length_insert; exact Hr|]. split.
  { intros i E. destruct (decide (i = Z.to_nat node)) as [->|Hi].
    - apply list_lookup_insert_eq. unfold len in Hn. lia.
    - rewrite list_lookup_insert_ne in E by auto.
      rewrite list_lookup_insert_ne by auto. exact (Hg i E). }
  split.
  - intros x y Hx He. apply Hb', (Hc x y (Hb x Hx) He).
  - intros x y Hx He. exact (Ha x y (Hb x Hx) He).
Qed.

(** Leaving a vertex whose sources are all black: it turns black. *)
Lemma colours_leave g v r node :
  colours g v r -> 0 <= node < len (vertices g) ->
  v !! Z.to_nat node = Some true -> r !! Z.to_nat node = Some true ->
  (forall y, edge g y node -> black v r y) ->
  colours g v (<[Z.to_nat node := false]> r).
Proof.
  intros Hcol Hn Ev Er Hs. pose proof Hcol as (Hv & Hr & Hg & Hc & Ha).
  assert (Hb' : forall x, black v r x ->
                  black v (<[Z.to_nat node := false]> r) x).
  { intros x (Hx & E1 & E2).
    assert (Z.to_nat x <> Z.to_nat node) by congruence.
    split; [exact Hx|]. rewrite list_lookup_insert_ne by auto. auto. }
  assert (Hb : forall x, black v (<[Z.to_nat node := false]> r) x ->
                 x = node \/ black v r x).
  { intros x (Hx & E1 & E2).
    destruct (decide (Z.to_nat x = Z.to_nat node)) as [E|E]; [left; lia|].
    rewrite list_lookup_insert_ne in E2 by auto. right. split; auto. }
  split; [exact Hv|]. split; [rewrite length_insert; exact Hr|]. split.
  { intros i E. destruct (decide (i = Z.to_nat node)) as [->|Hi].
    - rewrite list_lookup_insert_eq in E by (unfold len in Hn; lia).
      discriminate.
    - rewrite list_lookup_insert_ne in E by auto. exact (Hg i E). }
  split.
  - intros x y Hx He. apply Hb'. destruct (Hb x Hx) as [->|Hx'].
    + exact (Hs y He).
    + exact (Hc x y Hx' He).
  - intros x y Hx He. destruct (Hb x Hx) as [->|Hx'].
    + intros Hreach.
      destruct (black_closed g v r y Hcol (Hs y He) node Hreach)
        as (_ & _ & E).
      congruence.
    + exact (Ha x y Hx' He).
Qed.

(** More vertices visited, the same ones grey: the black ones stay black. *)
Lemma black_mono (v v' r : list bool) x :
  (forall i, v !! i = Some true -> v' !! i = Some true) ->
  black v r x -> black v' r x.
Proof. intros Hm (Hx & E1 & E2). split; auto. Qed.

(** The loop of [hasCycleUtil], given that the recursive calls are
    correct. *)
Lemma hasCycleUtil_range_correct g fuel node :
  wf_graph g ->
  (forall adj v r,
     colours g v r -> 0 <= adj < len (vertices g) ->
     v !! Z.to_nat adj = Some false ->
     (forall x, grey r x -> reaches g x adj) ->
     (unvisited v <= fuel)%nat ->
     exists b v' r',
       hasCycleUtil g fuel adj v r = Some (Ok (b, v', r'))
       /\ (b = true -> cyclic g)
       /\ (b = false ->
             colours g v' r' /\ r' = r
             /\ (forall i, v !! i = Some true -> v' !! i = Some true)
             /\ v' !! Z.to_nat adj = Some true)) ->
  0 <= node < len (vertices g) ->
  forall adjs v r,
    colours g v r ->
    v !! Z.to_nat node = Some true -> r !! Z.to_nat node = Some true ->
    (forall x, grey r x -> reaches g x node) ->
    (forall y, y ∈ adjs -> edge g y node) ->
    (forall y, edge g y node -> y ∈ adjs \/ black v r y) ->
    (unvisited v <= fuel)%nat ->
    exists b v' r',
      hasCycleUtil_range (hasCycleUtil g fuel) node adjs v r
        = Some (Ok (b, v', r'))
      /\ (b = true -> cyclic g)
      /\ (b = false ->
            colours g v' r' /\ r' = <[Z.to_nat node := false]> r
            /\ (forall i, v !! i = Some true -> v' !! i = Some true)).
Proof.
  intros Hwf IH Hn.
  induction adjs as [|adj rest IHl]; intros v r Hcol Ev Er Hgrey Hin Hsrc Hf.
  - cbn [hasCycleUtil_range].
    rewrite assign_Z_lt by (destruct Hcol as (_ & Hr & _); unfold len in *; lia).
    exists false, v, (<[Z.to_nat node := false]> r).
    split; [reflexivity|]. split; [discriminate|]. intros _.
    split; [|split; [reflexivity | auto]].
    apply colours_leave; auto.
    intros y He. destruct (Hsrc y He) as [Hy|Hy]; [inversion Hy | exact Hy].
  - assert (He : edge g adj node) by (apply Hin; left).
    destruct (edge_range g adj node Hwf He) as [Ha _].
    pose proof Hcol as (Hv & Hr & Hg & _).
    assert (Hnext : forall v',
              (forall i, v !! i = Some true -> v' !! i = Some true) ->
              black v' r adj ->
              forall y, edge g y node -> y ∈ rest \/ black v' r y).
    { intros v' Hm Hb y Hy. destruct (Hsrc y Hy) as [Hy'|Hy'].
      - apply elem_of_cons in Hy' as [->|Hy']; [right; exact Hb | left; exact Hy'].
      - right. exact (black_mono v v' r y Hm Hy'). }
    cbn [hasCycleUtil_range].
    destruct (load_Z_lt v adj ltac:(unfold len in *; lia)) as (bv & Ebv & ->).
    destruct (load_Z_lt r adj ltac:(unfold len in *; lia)) as (br & Ebr & Elr).
    destruct bv.
    + (* visited before *)
      rewrite Elr. destruct br.
      * exists true, v, r. split; [reflexivity|]. split; [|discriminate].
        intros _. exists adj, node. split; [exact He|].
        apply Hgrey. split; [lia | exact Ebr].
      * apply IHl; auto.
        -- intros y Hy. apply Hin. right. exact Hy.
        -- apply (Hnext v); auto. split; [lia | auto].
    + (* not visited: the recursive call *)
      assert (Ebr' : br = false).
      { destruct br; [|reflexivity]. specialize (Hg _ Ebr). congruence. }
      subst br.
      destruct (IH adj v r Hcol Ha Ebv) as (b & v1 & r1 & -> & Ht & Hfalse).
      { intros x Hx. exact (reaches_step g x adj node (Hgrey x Hx) He). }
      { exact Hf. }
      destruct b.
      * exists true, v1, r1. split; [reflexivity|]. split; [auto | discriminate].
      * destruct (Hfalse eq_refl) as (Hcol1 & -> & Hm & Ev1).
        rewrite Elr.
        destruct (IHl v1 r Hcol1) as (b & v2 & r2 & E & Ht2 & Hf2); auto.
        -- intros y Hy. apply Hin. right. exact Hy.
        -- apply Hnext; auto. split; [lia | auto].
        -- pose proof Hcol1 as (Hv1 & _).
           pose proof (unvisited_mono v v1 ltac:(lia) Hm). lia.
        -- exists b, v2, r2. split; [exact E|]. split; [exact Ht2|].
           intros Eb. destruct (Hf2 Eb) as (Hc2 & Er2 & Hm2).
           split; [exact Hc2|]. split; [exact Er2 | auto].
Qed.

Lemma hasCycleUtil_correct g :
  wf_graph g ->
  forall fuel node v r,
    colours g v r -> 0 <= node < len (vertices g) ->
    v !! Z.to_nat node = Some false ->
    (forall x, grey r x -> reaches g x node) ->
    (unvisited v <= fuel)%nat ->
    exists b v' r',
      hasCycleUtil g fuel node v r = Some (Ok (b, v', r'))
      /\ (b = true -> cyclic g)
      /\ (b = false ->
            colours g v' r' /\ r' = r
            /\ (forall i, v !! i = Some true -> v' !! i = Some true)
            /\ v' !! Z.to_nat node = Some true).
Proof.
  intros Hwf. induction fuel as [|fuel IH]; intros node v r Hcol Hn Ev Hgrey Hf.
  - pose proof (unvisited_insert v _ Ev). lia.
  - pose proof Hcol as (Hv & Hr & Hg & _).
    assert (Er : r !! Z.to_nat node = Some false).
    { destruct (lookup_lt_is_Some_2 r (Z.to_nat node)) as [[] E];
        [unfold len in Hn; lia | | exact E].
      specialize (Hg _ E). congruence. }
    cbn [hasCycleUtil].
    rewrite !assign_Z_lt by (unfold len in *; lia).
    assert (Hi : (Z.to_nat node < length v)%nat) by (unfold len in Hn; lia).
    assert (Hi' : (Z.to_nat node < length r)%nat) by (unfold len in Hn; lia).
    assert (Hm1 : forall i, v !! i = Some true ->
                    <[Z.to_nat node := true]> v !! i = Some true).
    { intros i E. destruct (decide (i = Z.to_nat node)) as [->|Hne].
      - apply list_lookup_insert_eq. exact Hi.
      - rewrite list_lookup_insert_ne by auto. exact E. }
    destruct (hasCycleUtil_range_correct g fuel node Hwf IH Hn
                (Graph_InEdges g node) (<[Z.to_nat node := true]> v)
                (<[Z.to_nat node := true]> r))
      as (b & v' & r' & E & Ht & Hfalse).
    + apply colours_enter; auto.
    + apply list_lookup_insert_eq. exact Hi.
    + apply list_lookup_insert_eq. exact Hi'.
    + intros x (Hx & Ex).
      destruct (decide (Z.to_nat x = Z.to_nat node)) as [Exn|Exn].
      * replace x with node by lia. constructor.
      * rewrite list_lookup_insert_ne in Ex by auto. apply Hgrey.
        split; auto.
    + intros y Hy. rewrite InEdges_sources in Hy. exact Hy.
    + intros y Hy. left. rewrite InEdges_sources. exact Hy.
    + pose proof (unvisited_insert v _ Ev). lia.
    + exists b, v', r'. split; [exact E|]. split; [exact Ht|].
      intros Eb. destruct (Hfalse Eb) as (Hc' & Er' & Hm').
      split; [exact Hc'|]. split.
      * rewrite Er', list_insert_insert_eq. apply list_insert_id. exact Er.
      * split; [auto|]. apply Hm', list_lookup_insert_eq. exact Hi.
Qed.

Lemma HasCycle_range_correct g :
  wf_graph g ->
  forall cnt i v,
    (i + cnt = length (vertices g))%nat ->
    colours g v (replicate (length (vertices g)) false) ->
    (forall j, (j < i)%nat -> v !! j = Some true) ->
    exists b,
      HasCycle_range g cnt i v (replicate (length (vertices g)) false)
        = Some (Ok b)
      /\ (b = true <-> cyclic g).
Proof.
  intros Hwf. set (r := replicate (length (vertices g)) false).
  assert (Hr : forall i, r !! i <> Some true).
  { intros i E. apply lookup_replicate in E as [E _]. discriminate. }
  induction cnt as [|cnt IH]; intros i v Hi Hcol Hvis.
  - exists false. split; [reflexivity|]. split; [discriminate|].
    intros (x & y & He & Hreach). exfalso.
    destruct (edge_range g x y Hwf He) as [_ Hy].
    pose proof Hcol as (_ & _ & _ & _ & Ha).
    apply (Ha y x); [|exact He | exact Hreach].
    apply (black_intro g); auto.
    apply Hvis. unfold len in Hy. lia.
  - pose proof Hcol as (Hv & _). cbn [HasCycle_range]. unfold load.
    destruct (lookup_lt_is_Some_2 v i ltac:(lia)) as [bv Ebv]. rewrite Ebv.
    assert (Hnext : forall v' : list bool,
               (forall j, v !! j = Some true -> v' !! j = Some true) ->
               v' !! i = Some true ->
               forall j, (j < S i)%nat -> v' !! j = Some true).
    { intros v' Hm Ei j Hj. destruct (decide (j = i)) as [->|Hne]; [exact Ei|].
      apply Hm, Hvis. lia. }
    destruct bv.
    + apply IH; [lia | exact Hcol |]. apply (Hnext v); auto.
    + destruct (hasCycleUtil_correct g Hwf (length (vertices g)) (Z.of_nat i)
                  v r Hcol) as (b & v' & r' & -> & Ht & Hfalse).
      * unfold len. lia.
      * rewrite Nat2Z.id. exact Ebv.
      * intros x (_ & E). destruct (Hr _ E).
      * rewrite <- Hv. apply unvisited_le.
      * destruct b.
        -- exists true. split; [reflexivity|]. split; auto.
        -- destruct (Hfalse eq_refl) as (Hcol' & -> & Hm & Ei).
           rewrite Nat2Z.id in Ei. apply IH; [lia | exact Hcol' |].
           apply Hnext; auto.
Qed.

(** [HasCycle] decides whether the graph has a cycle: on a graph
    with one list of sources per vertex and every source a vertex, it
    returns, without a panic, [true] exactly when there are an edge from
    some [x] to some [y] and a walk along the edges from [y] back to [x].
    A loop at a vertex is a cycle. *)
Theorem HasCycle_spec (g : Graph) :
  wf_graph g ->
  exists b, Graph_HasCycle g = Some (Ok b) /\ (b = true <-> cyclic g).
Proof.
  intros Hwf. unfold Graph_HasCycle.
  apply HasCycle_range_correct; [exact Hwf | lia | apply colours_init |].
  intros j Hj. lia.
Qed.

(** [TestHasCycle]: the triangle has a cycle, the chain has none. *)
Example test_HasCycle :
  (g1 ← add_edges (add_nodes (New "g1") ["A"; "B"; "C"])
          [(0, 1); (1, 2); (2, 0)];
   g2 ← add_edges (add_nodes (New "g2") ["A"; "B"; "C"]) [(0, 1); (1, 2)];
   Ok (Graph_HasCycle g1, Graph_HasCycle g2))
  = Ok (Some (Ok true), Some (Ok false)).
Proof. reflexivity. Qed.

Lemma HasCycle_spec_witness :
  exists b,
    Graph_HasCycle graph_test = Some (Ok b) /\ (b = true <-> cyclic graph_test).
Proof. apply (HasCycle_spec graph_test). exact graph_test_wf. Defined.

End digraph_facts.
